(* ===== verification/_CoqProject ===== *)
-Q . S2P
Prelude.v
Model.v
Base64.v
Node.v
Glob.v
Fixtures.v
LicenseBuilder.v
LicenseTexts.v
LicenseGaps.v
LegacyWalk.v
Pipeline.v
Heap.v
HeapWalk.v
HeapRun.v
