(* ===== verification/Prelude.v ===== *)
(** * License-evidence resolution of cyclonedx-node-npm: a verified model

    (This header is the documentation of the whole development; it is kept
    in step with the files listed in _CoqProject.)

    ** The program

    The repository is the license-text part of a CycloneDX SBOM generator
    for npm projects.  Its sources are

    - [src/src/licensetexts.ts]: the pass that is wired into the generator.
      [addLicenseTextsToBom] walks the component tree depth first
      ([addLicenseTextsToComponents]).  For each component with exactly one
      license that is a [NamedLicense] or an [SpdxLicense], it looks up the
      install path among the component's properties
      ([getComponentInstallPath]).  It then probes nine spellings of
      LICENSE/LICENCE/NOTICE, with three name variants and four extensions,
      for files that exist with exactly that case ([searchLicenseSources]:
      [existsSync] followed by a [realpathSync.native] suffix check).  Each
      file found is read as base64 and becomes the license text
      ([addLicTextBasedOnLicenseFiles]).  [checkLicenseGaps] then walks the
      tree again ([checkLicenseGapsInComponents], [hasComponentLicenseIncluded],
      [hasLicenseInformation]), prints every component without complete
      license evidence and throws.
    - [src/src/licenseBuilder.ts]: a newer class [LicenseBuilder].  Its
      [searchLicenseSources] lists the install directory once and matches
      every candidate name against the listing with [minimatch] (nocase).
      The candidates are five base names, four name variants built from the
      license name cut at its first hyphen, and four extensions.  [addText]
      attaches the first match; [addTexts] does that for a whole license
      repository and counts the licenses that carry a text.
    - [src/tests/integration/synthetics/cli.run.test.js]: integration tests
      of the CLI, whose code is not part of these sources.

    The two components interact through the data model.  Attaching texts
    mutates license objects in place, the audit reads them, and the
    LicenseBuilder's attacher calls its locator through [this].

    ** The files

    - [Prelude] (this file): JavaScript error values ([js_error]); a result
      type [res] for thrown exceptions; a state-and-error monad [st] whose
      errors keep the state reached (a JavaScript exception does not undo
      the mutations done before it); in-place iteration over an owned list
      ([for_each]); the JavaScript string operations the code uses
      ([toLowerCase], [endsWith], [startsWith], truthiness); the
      [sbom] hint database and the shared tactics.
    - [Model]: the CycloneDX classes the code reads and writes, as records
      and sums with the source's constructors.  A component tree is the
      nested inductive [Component]; [cid] stands for object identity.
      [World] is the state of a run: the BOM and the lines printed so far.
    - [Base64], [Node]: Node's base64 encoder with the decoder a reader of
      the SBOM applies ([base64_decode_encode]: no byte is lost), and the
      [fs]/[path] calls (a read-only [FileSystem] record, POSIX
      [path.join] and [extname]).
    - [Glob]: the part of [minimatch] that [LicenseBuilder] can exercise.
    - [Fixtures]: a concrete case-sensitive volume for the witnesses.
    - [LicenseBuilder] (Module [LicenseBuilder]): [licenseBuilder.ts], one
      Definition per method.  The [LicenseLocator] class is the interface
      between [addTexts] and [searchLicenseSources]; [builder_locator] is
      the class's own implementation, and [builder_locator_laws] shows it
      meets the laws the attacher's theorems assume.
    - [LicenseTexts] (Module [LicenseTexts]): the attaching half of
      [licensetexts.ts]: [getComponentInstallPath], [searchLicenseSources]
      (its three nested loops and the JavaScript [Map] as an ordered
      association list with in-place [set]), [addLicTextBasedOnLicenseFiles],
      [addLicenseTextToComponent], [addLicenseTextsToComponents] and
      [addLicenseTextsToBom], with explicit state passing.
    - [LicenseGaps] (Module [LicenseGaps]): the auditing half,
      [hasLicenseInformation] to [checkLicenseGaps], and [licenseRun], the
      two passes run one after the other as the generator runs them.
    - [LegacyWalk] (Module [LegacyWalk]): the attaching pass over a whole
      tree.  Per-component lemmas on [assignTexts] and
      [addLicenseTextToComponent] are lifted to the walk by a generic
      preservation lemma ([walk_preserves]) and the loop lemmas of this
      file.  The predicates it states ([reads_ok], [evidence_in_package],
      [text_wf]) are decidable, so the witnesses evaluate them.
    - [Pipeline] (Module [Pipeline]): the outcome of [licenseRun], from the
      theorems of both passes.
    - [Heap] (Module [Heap]): component objects as the JavaScript code has
      them, a heap ([gmap]) from addresses to [Node]s whose [components]
      are references, so that one object can be shared by two parents or
      reach itself.  [checkGapsHeap] is the audit over that heap; on the
      heap of a tree it computes what [checkLicenseGapsInComponents]
      computes ([checkGapsHeap_tree], [checkGapsHeap_heap_of]).
    - [HeapWalk] (Module [HeapWalk]): the attaching walk
      [addLicenseTextsToComponents] over that heap.  Each visited object is
      written back at its address, so a shared object is mutated once per
      parent.  The walk ([attach_list], [attachHeap]) is written for any
      per-object visit.  Its facts ([Section WalkFacts]) assume two laws of
      the visit: it keeps [components], and a visit that succeeded is a
      fixed point.  [Section Legacy] proves both of [visit_node], that is
      [addLicenseTextToComponent] on an object.
    - [HeapRun] (Module [HeapRun]): a generation run over that heap:
      [licenseRunHeap] is the walk, [console.log(packageFile)] and
      [checkLicenseGapsHeap] ([checkLicenseGaps] over the objects).
      [checkGapsHeap_spec] characterises the audit on any heap without a
      reachable cycle as a set: the reachable incomplete objects, each
      once.  The transfer lemmas ([visited_child], [visited_reach],
      [visited_bounded]) show that the walk leaves the object graph as it
      was.

    ** The theorems

    - The audit (LicenseGaps): [checkLicenseGapsInComponents] refines the
      abstract audit [gapsSpec] (all incomplete components of the tree,
      pre-order) and reports expressions and unlicensed components at any
      depth; [checkLicenseGaps] prints the
      count and one line per gap, then throws.  Two end-to-end runs
      ([licenseRun_licensed], [licenseRun_unlicensed]) compose both passes.
    - The legacy attacher (LicenseTexts): the search reports each path at
      most once, exactly the probed spellings for which [existsSync] holds
      and [realpathSync.native] returns a path ending in that spelling,
      each with the content type of its extension; the
      last file found wins; only single named or SPDX licenses get a text;
      the walk never changes the shape of the tree, also when a read
      throws half way.
    - LicenseBuilder: the search on literal names, on case variants and
      on a license name with glob syntax; [addTexts] takes evidence only from the
      install directory (for any locator meeting the laws), attaches the
      first candidate, changes nothing but texts, is idempotent, counts
      the licenses with a text and throws on a missing directory;
      [shortLicName] cuts at the first hyphen but not across a line break.
    - Glob: lemmas on the model of [minimatch.match] (a literal pattern is
      case-insensitive equality that keeps directory order) that the
      search's theorems use.
    - The legacy pass over the tree (LegacyWalk): it completes whenever
      the files its searches find are readable (liveness); the only
      exception it throws is the read error of such a file (for instance
      EISDIR on a directory named LICENSE); every text it writes is the
      base64 of a file found at the component's own install path, decodes
      to that file's bytes and carries one of the four content types of
      the SBOM format; and it is idempotent.
    - Termination (Heap): the recursive audit returns exactly when no
      component reachable from the BOM is its own descendant, within
      [size h + 1] nested calls, shared objects included; with a cycle it
      never returns.  Without a cycle it returns every reachable
      incomplete object, each once ([checkGapsHeap_shared]).
    - Sharing (HeapWalk): over objects shared between parents, with
      readable license files, the attaching walk returns exactly when no
      cycle is reachable.  It then returns within [size h + 1] nested
      calls.  Every reachable object, shared or not, ends up exactly as
      one visit leaves it, and every other object is untouched
      ([addLicenseTextsToComponentsHeap_shared]).  Where every visit
      succeeds, the walk never throws ([attachHeap_no_throw]).  Otherwise
      its only exception is the read error of a license file found for an
      object it reaches ([addLicenseTextsToComponentsHeap_err]).  A run over
      such objects reports each reachable object still incomplete after
      the walk exactly once, a shared one included, and no other
      ([licenseRunHeap_gaps]).
    - The run (Pipeline): it succeeds exactly when the attaching pass
      completes and every component of the annotated tree has complete
      evidence, and it fails only with such a read error (nothing printed)
      or with the license-gap error after the gap report.

    Every definition over the tree model is structurally recursive and
    total, so the functional theorems are stated as equations on the
    result, errors included.  The two definitions with fuel are
    [Heap.checkGapsHeap] and [HeapWalk.attachHeap], whose recursion
    follows references and need not end.  Their fuel is the depth of the
    JavaScript call stack, and [None] means that the call does not return.
    [checkGapsHeap_terminates] proves that [size h + 1] is enough for the
    audit whenever any amount is.  [addLicenseTextsToComponentsHeap_shared]
    gives the walk the same [size h + 1] when no cycle is reachable: no
    path then visits an object twice, so it has at most [size h] objects.
    [licenseRunHeap_gaps] runs both passes with that fuel.  Lengths and
    counts are [nat]: JavaScript numbers are exact far beyond any
    directory size.

    ** What is not modelled, and why

    - [src/tests/]: the tests drive the CLI, which is not in the sources.
    - The npm tree builder, the BOM serialisers and the CLI that call these
      passes are not in the sources; a run starts from a given BOM.
    - Console output is modelled as a list of lines (the state of the [st]
      monad) and not as a stream.
    - [minimatch]: brace expansion, character classes, escapes, negation
      and comments are outside the modelled subset (see [Glob]);
      [path.join] does not normalise ["."] and [".."] (see [Node]).
    - Writes to the file system: neither source writes files.
*)

From stdpp Require Export base list strings pretty sets.
From Stdlib Require Export Ascii.

Declare Scope sbom_scope.
Delimit Scope sbom_scope with sbom.
Open Scope sbom_scope.

Create HintDb sbom discriminated.
Create Rewrite HintDb sbom_rw.

(** ** JavaScript exceptions *)

(** The exceptions the modelled code can raise: a Node file-system error
    ([code] such as ENOENT or EISDIR, the failing [syscall], the [path]) or
    an [Error] thrown by the code itself with its message. *)
Inductive js_error : Type :=
| FsError (code : string) (syscall : string) (path : string)
| JsError (message : string).

#[export] Instance js_error_eq_dec : EqDecision js_error.
Proof. solve_decision. Defined.

(** A computation either returns a value or throws. *)
Inductive res (A : Type) : Type :=
| Ok (a : A)
| Err (e : js_error).
Arguments Ok {A} a.
Arguments Err {A} e.

Lemma Ok_inj {A} (a b : A) : Ok a = Ok b -> a = b.
Proof. by intros [= ->]. Qed.

Definition is_ok {A} (r : res A) : bool :=
  match r with Ok _ => true | Err _ => false end.

(** ** A state monad with exceptions that keep the state

    [st S A] runs on an owned state [S] (a component, a license list, the
    console log).  An exception stops the computation but the state it has
    reached is returned with it, as in JavaScript, where an exception does
    not roll back the assignments made before it. *)
Definition st (S A : Type) : Type := S -> res A * S.

Definition st_ret {S A} (a : A) : st S A := fun s => (Ok a, s).

Definition st_bind {S A B} (m : st S A) (k : A -> st S B) : st S B :=
  fun s => match m s with
           | (Ok a, s') => k a s'
           | (Err e, s') => (Err e, s')
           end.

Definition st_throw {S A} (e : js_error) : st S A := fun s => (Err e, s).

Definition st_modify {S} (f : S -> S) : st S unit := fun s => (Ok tt, f s).

Notation "x <- m ;; k" := (st_bind m (fun x => k))
  (at level 100, m at next level, right associativity) : sbom_scope.
Notation "m ;; k" := (st_bind m (fun _ => k))
  (at level 100, right associativity) : sbom_scope.

(** A [for (const x of xs)] loop whose body mutates [x] in place: the list
    is owned by the caller, the body may throw, and the elements already
    visited keep their mutations when it does. *)
Fixpoint for_each {T} (f : T -> res unit * T) (l : list T) : res unit * list T :=
  match l with
  | [] => (Ok tt, [])
  | x :: xs =>
      match f x with
      | (Err e, x') => (Err e, x' :: xs)
      | (Ok _, x') => let (r, xs') := for_each f xs in (r, x' :: xs')
      end
  end.

(** ** JavaScript strings (ASCII subset) *)

(** [String.prototype.toLowerCase] on ASCII letters. *)
Definition ascii_toLower (c : ascii) : ascii :=
  let n := nat_of_ascii c in
  if bool_decide (65 ≤ n ∧ n ≤ 90) then ascii_of_nat (n + 32) else c.

Fixpoint toLowerCase (s : string) : string :=
  match s with
  | EmptyString => EmptyString
  | String c s' => String (ascii_toLower c) (toLowerCase s')
  end.

(** Prefix test on character lists. *)
Fixpoint prefixb (p l : list ascii) : bool :=
  match p, l with
  | [], _ => true
  | c :: p', d :: l' => bool_decide (c = d) && prefixb p' l'
  | _ :: _, [] => false
  end.

(** [s.startsWith(p)]. *)
Definition startsWith (s p : string) : bool :=
  prefixb (String.list_ascii_of_string p) (String.list_ascii_of_string s).

(** [s.endsWith(x)]: [x] is a suffix of [s]. *)
Definition endsWith (s x : string) : bool :=
  prefixb (rev (String.list_ascii_of_string x)) (rev (String.list_ascii_of_string s)).

(** JavaScript truthiness of an optional string ([undefined] and [""] are
    falsy). *)
Definition truthy (o : option string) : bool :=
  match o with Some v => bool_decide (v ≠ "") | None => false end.

(** ** Shared tactics *)

(** Case on a pair-valued match in the goal, naming the equation. *)
Ltac destruct_pair_match :=
  match goal with
  | |- context [match ?m with (_, _) => _ end] =>
      let E := fresh "E" in destruct m eqn:E
  | |- context [let (_, _) := ?m in _] =>
      let E := fresh "E" in destruct m eqn:E
  end.

(** Discharge contradictory result equalities. *)
Ltac res_inv :=
  repeat match goal with
  | H : (Ok _, _) = (Err _, _) |- _ => discriminate H
  | H : (Err _, _) = (Ok _, _) |- _ => discriminate H
  | H : (_, _) = (_, _) |- _ => injection H as; subst
  | H : Ok _ = Ok _ |- _ => injection H as; subst
  | H : Err _ = Err _ |- _ => injection H as; subst
  | H : Ok _ = Err _ |- _ => discriminate H
  | H : Err _ = Ok _ |- _ => discriminate H
  end.

(** ** Shared lemmas *)

Lemma st_bind_ret_l {S A B} (a : A) (k : A -> st S B) s :
  st_bind (st_ret a) k s = k a s.
Proof. reflexivity. Qed.

Lemma st_bind_assoc {S A B C} (m : st S A) (k : A -> st S B) (h : B -> st S C) s :
  st_bind (st_bind m k) h s = st_bind m (fun a => st_bind (k a) h) s.
Proof. unfold st_bind. by destruct (m s) as [[a|e] s']. Qed.

Lemma st_bind_throw {S A B} e (k : A -> st S B) s :
  st_bind (st_throw e) k s = (Err e, s).
Proof. reflexivity. Qed.

Lemma for_each_length {T} (f : T -> res unit * T) l :
  length (for_each f l).2 = length l.
Proof.
  induction l as [|x xs IH]; simpl; [done|].
  destruct (f x) as [[]  x']; [|done].
  destruct (for_each f xs) eqn:E. simpl in *. by rewrite IH.
Qed.

(** When every visit succeeds, the loop succeeds and maps the visits
    elementwise. *)
Lemma for_each_Ok {T} (f : T -> res unit * T) l :
  Forall (fun x => is_ok (f x).1 = true) l ->
  for_each f l = (Ok tt, map (fun x => (f x).2) l).
Proof.
  induction 1 as [|x xs Hx _ IH]; simpl; [done|].
  destruct (f x) as [[[]|e] x']; simpl in *; [|done].
  by rewrite IH.
Qed.

(** Whatever happens, every element of the result is the input element
    or its visit. *)
Lemma for_each_Forall2 {T} (f : T -> res unit * T) l :
  Forall2 (fun x y => y = x ∨ y = (f x).2) l (for_each f l).2.
Proof.
  induction l as [|x xs IH]; simpl; [constructor|].
  destruct (f x) as [[]  x'] eqn:E.
  - destruct (for_each f xs) eqn:E2. simpl in *.
    constructor; [rewrite E; by right | done].
  - simpl. constructor; [rewrite E; by right|].
    clear. induction xs; constructor; auto.
Qed.

(** A property that holds of every element and is kept by a visit holds
    of every element after the loop, whether it throws or not. *)
Lemma for_each_Forall {T} (f : T -> res unit * T) (Q : T -> Prop) l :
  Forall (fun x => Q x ∧ (Q x -> Q (f x).2)) l -> Forall Q (for_each f l).2.
Proof.
  intros Hall. pose proof (for_each_Forall2 f l) as H2.
  induction H2 as [|x y l l' Hxy _ IH]; [constructor|].
  inversion_clear Hall as [|? ? [Hx Hf] Hl]. constructor; [|by apply IH].
  destruct Hxy as [-> | ->]; auto.
Qed.

(** A loop that throws has visited a prefix successfully, thrown in the
    visit of the next element, and left the rest untouched. *)
Lemma for_each_Err {T} (f : T -> res unit * T) l e l' :
  for_each f l = (Err e, l') ->
  exists pre x post, l = pre ++ x :: post ∧
    Forall (fun y => is_ok (f y).1 = true) pre ∧ (f x).1 = Err e ∧
    l' = map (fun y => (f y).2) pre ++ (f x).2 :: post.
Proof.
  revert l'. induction l as [|x xs IH]; intros l' H; simpl in H; [done|].
  destruct (f x) as [[[]|e'] x'] eqn:E.
  - destruct (for_each f xs) as [r xs'] eqn:E2. res_inv.
    destruct (IH _ eq_refl) as (pre & y & post & -> & Hpre & Hy & ->).
    exists (x :: pre), y, post. split_and!; [done| |done|cbn; by rewrite E].
    constructor; [by rewrite E|done].
  - res_inv. exists [], x, xs. rewrite E. by split_and!.
Qed.

(** A loop that returns normally has visited every element normally. *)
Lemma for_each_Ok_inv {T} (f : T -> res unit * T) l l' :
  for_each f l = (Ok tt, l') ->
  Forall (fun x => f x = (Ok tt, (f x).2)) l ∧ l' = map (fun x => (f x).2) l.
Proof.
  revert l'. induction l as [|x xs IH]; intros l' H; simpl in H; [by res_inv|].
  destruct (f x) as [[[]|e'] x'] eqn:E; [|done].
  destruct (for_each f xs) as [r xs'] eqn:E2. res_inv.
  destruct (IH _ eq_refl) as [Hall ->]. split; [constructor; [by rewrite E|done]|cbn; by rewrite E].
Qed.

Lemma toLowerCase_length s : String.length (toLowerCase s) = String.length s.
Proof. induction s; simpl; auto. Qed.

Lemma toLowerCase_app s t : toLowerCase (s +:+ t) = toLowerCase s +:+ toLowerCase t.
Proof. induction s as [|c s IH]; simpl; [done|]. by rewrite IH. Qed.

Lemma ascii_toLower_idem c : ascii_toLower (ascii_toLower c) = ascii_toLower c.
Proof.
  pose proof (nat_ascii_bounded c).
  unfold ascii_toLower at 2. case_bool_decide as H1.
  - unfold ascii_toLower.
    rewrite nat_ascii_embedding by lia.
    rewrite (bool_decide_false (_ ≤ _ + 32 ∧ _)) by lia.
    by rewrite bool_decide_true.
  - unfold ascii_toLower. by rewrite !bool_decide_false.
Qed.

Lemma toLowerCase_idem s : toLowerCase (toLowerCase s) = toLowerCase s.
Proof.
  induction s as [|c s IH]; simpl; [done|]. by rewrite IH, ascii_toLower_idem.
Qed.

Lemma list_ascii_of_string_app s t :
  String.list_ascii_of_string (s +:+ t) =
  String.list_ascii_of_string s ++ String.list_ascii_of_string t.
Proof. induction s as [|c s IH]; simpl; [done|]. by rewrite IH. Qed.

Lemma prefixb_spec p l : prefixb p l = true <-> exists r, l = p ++ r.
Proof.
  revert l; induction p as [|c p IH]; intros [|d l]; simpl.
  - split; eauto.
  - split; eauto.
  - split; [done|]. by intros [r ?].
  - rewrite andb_true_iff, bool_decide_eq_true, IH.
    split; [intros [-> [r ->]]; eauto|].
    intros [r Hr]. injection Hr as -> ->. eauto.
Qed.

Lemma endsWith_spec s x :
  endsWith s x = true <->
  exists pre, String.list_ascii_of_string s = pre ++ String.list_ascii_of_string x.
Proof.
  unfold endsWith. rewrite prefixb_spec. split.
  - intros [r Hr]. exists (rev r).
    rewrite <- (rev_involutive (String.list_ascii_of_string s)), Hr.
    by rewrite rev_app_distr, rev_involutive.
  - intros [pre ->]. exists (rev pre). by rewrite rev_app_distr.
Qed.

(** Lower-casing leaves every character that is not a letter alone, and
    only such a character lowers to one. *)
Lemma ascii_toLower_nonletter c d :
  ¬ (65 ≤ nat_of_ascii d ≤ 90) -> ¬ (97 ≤ nat_of_ascii d ≤ 122) ->
  ascii_toLower c = d <-> c = d.
Proof.
  intros Hu Hl. pose proof (nat_ascii_bounded c). unfold ascii_toLower.
  case_bool_decide as Hc; [|done]. split; [|intros ->; lia].
  intros <-. rewrite nat_ascii_embedding in Hl by lia. lia.
Qed.

Lemma list_ascii_toLowerCase s :
  String.list_ascii_of_string (toLowerCase s) =
  map ascii_toLower (String.list_ascii_of_string s).
Proof. induction s as [|c s IH]; simpl; [done|]. by rewrite IH. Qed.

Lemma list_ascii_of_string_inj s t :
  String.list_ascii_of_string s = String.list_ascii_of_string t <-> s = t.
Proof.
  split; [|by intros ->]. intros H.
  by rewrite <- (String.string_of_list_ascii_of_string s), H,
    String.string_of_list_ascii_of_string.
Qed.

Lemma elem_of_flat_map {A B} (f : A -> list B) (l : list A) (x : B) :
  x ∈ flat_map f l <-> exists y, y ∈ l ∧ x ∈ f y.
Proof.
  induction l as [|y l IH]; simpl.
  - split; [by intros ?%elem_of_nil | by intros (? & ?%elem_of_nil & _)].
  - rewrite elem_of_app, IH. split.
    + intros [Hx | (y' & Hy' & Hx)]; [exists y | exists y']; rewrite elem_of_cons; auto.
    + intros (y' & Hy' & Hx). apply elem_of_cons in Hy' as [->|Hy']; [by left | right; eauto].
Qed.

Lemma flat_map_flat_map {A B C} (f : B -> list C) (g : A -> list B) (l : list A) :
  flat_map f (flat_map g l) = flat_map (fun x => flat_map f (g x)) l.
Proof.
  induction l as [|x l IH]; simpl; [done|]. by rewrite flat_map_app, IH.
Qed.

Lemma flat_map_map {A B C} (f : B -> list C) (g : A -> B) (l : list A) :
  flat_map f (map g l) = flat_map (fun x => f (g x)) l.
Proof. induction l as [|x l IH]; simpl; [done|]. by rewrite IH. Qed.

Lemma length_flat_map_le {A B} (f : A -> list B) (l : list A) k :
  (forall x, x ∈ l -> length (f x) ≤ k) -> length (flat_map f l) ≤ length l * k.
Proof.
  induction l as [|x l IH]; simpl; intros Hk; [lia|].
  rewrite length_app.
  assert (length (f x) ≤ k) by (apply Hk, elem_of_cons; by left).
  assert (length (flat_map f l) ≤ length l * k).
  { apply IH. intros y Hy. apply Hk, elem_of_cons. by right. }
  lia.
Qed.

Lemma elem_of_map_iff {A B} (f : A -> B) (l : list A) (x : B) :
  x ∈ map f l <-> exists y, x = f y ∧ y ∈ l.
Proof.
  induction l as [|y l IH]; simpl.
  - split; [by intros ?%elem_of_nil | by intros (? & _ & ?%elem_of_nil)].
  - rewrite elem_of_cons, IH. split.
    + intros [->|(y' & -> & Hy')]; [exists y | exists y']; rewrite elem_of_cons; auto.
    + intros (y' & -> & Hy'). apply elem_of_cons in Hy' as [->|Hy']; [by left | right; eauto].
Qed.

(** A loop whose visits are idempotent is idempotent. *)
Lemma for_each_idem {T} (f : T -> res unit * T) l l' :
  for_each f l = (Ok tt, l') ->
  Forall (fun x => f x = (Ok tt, (f x).2) -> f (f x).2 = (Ok tt, (f x).2)) l ->
  for_each f l' = (Ok tt, l').
Proof.
  intros [Hok ->]%for_each_Ok_inv Hidem.
  rewrite for_each_Ok, map_map.
  - f_equal. apply map_ext_in. intros x Hx%list_elem_of_In.
    rewrite Forall_forall in Hok, Hidem. by rewrite (Hidem x Hx (Hok x Hx)).
  - apply Forall_forall. intros y (x & -> & Hx)%elem_of_map_iff.
    rewrite Forall_forall in Hok, Hidem. by rewrite (Hidem x Hx (Hok x Hx)).
Qed.

(** [String.append] does not unfold under [simpl]; these are its two
    equations. *)
Lemma string_app_empty t : "" +:+ t = t.
Proof. reflexivity. Qed.

Lemma string_app_cons c s t : String c s +:+ t = String c (s +:+ t).
Proof. reflexivity. Qed.

Lemma string_app_nil_r s : s +:+ "" = s.
Proof. induction s as [|c s IH]; rewrite ?string_app_cons; [done|]. by rewrite IH. Qed.

Lemma string_app_assoc s t u : s +:+ (t +:+ u) = (s +:+ t) +:+ u.
Proof. induction s as [|c s IH]; rewrite ?string_app_cons; [done|]. by rewrite IH. Qed.

Lemma fold_left_ext {A B} (f g : A -> B -> A) (l : list B) (a : A) :
  (forall a x, f a x = g a x) -> fold_left f l a = fold_left g l a.
Proof. intros H. revert a. induction l as [|x l IH]; intros a; simpl; [done|]. by rewrite H, IH. Qed.

Lemma fold_left_flat_map {A B C} (f : A -> C -> A) (g : B -> list C) (l : list B) (a : A) :
  fold_left f (flat_map g l) a = fold_left (fun a x => fold_left f (g x) a) l a.
Proof.
  revert a. induction l as [|x l IH]; intros a; simpl; [done|].
  by rewrite fold_left_app, IH.
Qed.

Lemma fold_left_map_l {A B C} (f : A -> C -> A) (g : B -> C) (l : list B) (a : A) :
  fold_left f (map g l) a = fold_left (fun a x => f a (g x)) l a.
Proof. revert a. induction l as [|x l IH]; intros a; simpl; [done|]. by rewrite IH. Qed.

#[export] Hint Rewrite list_ascii_of_string_app list_ascii_toLowerCase string_app_nil_r
  string_app_empty string_app_cons : sbom_rw.

(** Discharge a decidable hypothesis on concrete data by evaluation. *)
Ltac decide_by_eval :=
  first [ reflexivity | lia | apply (bool_decide_unpack _); vm_compute; exact I ].
#[export] Hint Rewrite toLowerCase_length toLowerCase_app toLowerCase_idem : sbom_rw.
#[export] Hint Rewrite @st_bind_ret_l @st_bind_assoc @st_bind_throw : sbom_rw.

