(* ===== verification/Model.v ===== *)
(** * The CycloneDX object model as the sources use it

    The classes of [@cyclonedx/cyclonedx-library] that [licensetexts.ts]
    and [licenseBuilder.ts] read and mutate: [Models.Attachment],
    [Models.NamedLicense], [Models.SpdxLicense], [Models.LicenseExpression],
    [Models.Property], [Models.Component] (a tree through its
    [components] repository) and [Models.Bom].  The library is not part of
    the sources; only the fields the code touches are kept.

    Object identity matters in one place: a [ComponentRepository] is a set
    of component objects.  Each component carries [cid], a number that
    stands for its object identity, so that the set semantics of
    [ComponentRepository.add] can be written out. *)

From S2P Require Import Prelude.

(** [Enums.AttachmentEncoding]: the code only ever uses [Base64]. *)
Inductive AttachmentEncoding : Type := Base64.

#[export] Instance AttachmentEncoding_eq_dec : EqDecision AttachmentEncoding.
Proof. solve_decision. Defined.

(** [Models.Attachment]: the content and the optional [encoding] and
    [contentType] given to its constructor ([undefined] is [None]). *)
Record Attachment : Type := mkAttachment {
  content : string;
  encoding : option AttachmentEncoding;
  contentType : option string
}.

#[export] Instance Attachment_eq_dec : EqDecision Attachment.
Proof. solve_decision. Defined.

(** [Models.DisjunctiveLicense = NamedLicense | SpdxLicense], each with an
    optional [text]. *)
Inductive DisjunctiveLicense : Type :=
| NamedLicense (name : string) (text : option Attachment)
| SpdxLicense (id : string) (text : option Attachment).

(** [Models.License = DisjunctiveLicense | LicenseExpression]. *)
Inductive License : Type :=
| Disjunctive (l : DisjunctiveLicense)
| LicenseExpression (expression : string).

#[export] Instance DisjunctiveLicense_eq_dec : EqDecision DisjunctiveLicense.
Proof. solve_decision. Defined.
#[export] Instance License_eq_dec : EqDecision License.
Proof. solve_decision. Defined.

(** The [text] field of a disjunctive license and its assignment
    [license.text = t]. *)
Definition dl_text (l : DisjunctiveLicense) : option Attachment :=
  match l with NamedLicense _ t | SpdxLicense _ t => t end.

Definition dl_set_text (t : option Attachment) (l : DisjunctiveLicense)
  : DisjunctiveLicense :=
  match l with
  | NamedLicense n _ => NamedLicense n t
  | SpdxLicense i _ => SpdxLicense i t
  end.

(** [license.text] read on any license: a [LicenseExpression] has no such
    field, so it reads [undefined]. *)
Definition license_text (l : License) : option Attachment :=
  match l with Disjunctive d => dl_text d | LicenseExpression _ => None end.

(** [Models.Property]: a name/value pair. *)
Record Property : Type := mkProperty {
  property_name : string;
  property_value : string
}.

(** [Models.Component] with the fields the code uses.  [licenses] is the
    [LicenseRepository] in iteration (insertion) order; [components] is the
    [ComponentRepository] of sub-components.  Its induction principle is
    [Component_tree_ind] below. *)
Local Unset Elimination Schemes.
Inductive Component : Type := mkComponent {
  cid : nat;
  name : string;
  version : option string;
  properties : list Property;
  licenses : list License;
  components : list Component
}.
Local Set Elimination Schemes.

(** [Models.Bom]: the top-level component repository. *)
Record Bom : Type := mkBom { bom_components : list Component }.

(** The state a generation run works on: the BOM being annotated and the
    lines printed with [console.log] so far. *)
Record World : Type := mkWorld { bom : Bom; stdout : list string }.

Definition set_bom (b : Bom) (w : World) : World := mkWorld b (stdout w).

(** [console.log(line)] on the run's state. *)
Definition log (line : string) : st World unit :=
  st_modify (fun w => mkWorld (bom w) (stdout w ++ [line])).

(** [PropertyNames.PackageInstallPath] of [src/properties.ts], which is not
    part of the sources: the property under which the generator records the
    install directory of a package. *)
Definition PackageInstallPath : string := "cdx:npm:package:path".

(** ** Functional updates of the mutable fields *)

Definition set_licenses (ls : list License) (c : Component) : Component :=
  mkComponent (cid c) (name c) (version c) (properties c) ls (components c).

Definition set_components (cs : list Component) (c : Component) : Component :=
  mkComponent (cid c) (name c) (version c) (properties c) (licenses c) cs.

(** ** Induction over the component tree *)

Section Component_ind.
Variable P : Component -> Prop.
Hypothesis Hmk : forall i n v ps ls cs,
  Forall P cs -> P (mkComponent i n v ps ls cs).

Fixpoint Component_tree_ind (c : Component) : P c :=
  match c with
  | mkComponent i n v ps ls cs =>
      Hmk i n v ps ls cs
        ((fix go (l : list Component) : Forall P l :=
            match l with
            | [] => Forall_nil_2 _
            | x :: xs => Forall_cons_2 _ _ _ (Component_tree_ind x) (go xs)
            end) cs)
  end.
End Component_ind.

(** All components of a tree in depth-first pre-order, the order in which
    the source's recursive walks visit them. *)
Fixpoint preorder (c : Component) : list Component :=
  c :: concat (map preorder (components c)).

Definition preorder_list (cs : list Component) : list Component :=
  concat (map preorder cs).

(** The tree with every license text erased: what a pass that only
    annotates licenses must leave unchanged. *)
Definition erase_text (l : License) : License :=
  match l with
  | Disjunctive d => Disjunctive (dl_set_text None d)
  | LicenseExpression e => LicenseExpression e
  end.

Fixpoint skeleton (c : Component) : Component :=
  mkComponent (cid c) (name c) (version c) (properties c)
    (map erase_text (licenses c)) (map skeleton (components c)).

(** A component's own fields, texts erased, without its sub-components. *)
Definition skeleton_head (c : Component) : Component :=
  mkComponent (cid c) (name c) (version c) (properties c) (map erase_text (licenses c)) [].

(** ** Lemmas *)

Lemma skeleton_eq c1 c2 :
  skeleton_head c1 = skeleton_head c2 ->
  map skeleton (components c1) = map skeleton (components c2) ->
  skeleton c1 = skeleton c2.
Proof.
  destruct c1, c2; simpl. intros [= -> -> -> -> ->] ->. done.
Qed.

Lemma preorder_list_cons c cs :
  preorder_list (c :: cs) = preorder c ++ preorder_list cs.
Proof. reflexivity. Qed.

Lemma preorder_unfold c :
  preorder c = c :: preorder_list (components c).
Proof. by destruct c. Qed.

Lemma dl_text_set t d : dl_text (dl_set_text t d) = t.
Proof. by destruct d. Qed.

Lemma dl_set_text_set t t' d : dl_set_text t (dl_set_text t' d) = dl_set_text t d.
Proof. by destruct d. Qed.

Lemma erase_text_set t d :
  erase_text (Disjunctive (dl_set_text t d)) = erase_text (Disjunctive d).
Proof. by destruct d. Qed.

Lemma components_set_components s c : components (set_components s c) = s.
Proof. done. Qed.

Lemma set_components_set_components s s' c :
  set_components s (set_components s' c) = set_components s c.
Proof. done. Qed.

Lemma Forall_preorder_list (P : Component -> Prop) cs :
  Forall P (preorder_list cs) <-> Forall (fun c => Forall P (preorder c)) cs.
Proof.
  induction cs as [|c cs IH]; [done|].
  rewrite preorder_list_cons, Forall_app, !Forall_cons, IH. done.
Qed.

Lemma elem_of_preorder_list x cs :
  x ∈ preorder_list cs <-> exists c, c ∈ cs ∧ x ∈ preorder c.
Proof.
  induction cs as [|c cs IH]; cbn [preorder_list concat map].
  - split; [by intros ?%elem_of_nil | intros (? & ?%elem_of_nil & _); done].
  - rewrite elem_of_app, IH. split.
    + intros [Hx|(c' & Hc' & Hx)]; [exists c|exists c']; split; auto; by constructor.
    + intros (c' & [->|Hc']%elem_of_cons & Hx); [by left|right; eauto].
Qed.

Lemma elem_of_preorder_self c : c ∈ preorder c.
Proof. rewrite preorder_unfold. apply elem_of_cons. by left. Qed.

Lemma preorder_skeleton c : preorder (skeleton c) = map skeleton (preorder c).
Proof.
  induction c as [i n v ps ls cs IH] using Component_tree_ind.
  cbn [skeleton preorder components map]. f_equal.
  rewrite concat_map, !map_map. f_equal. apply map_ext_in. intros x Hx%list_elem_of_In.
  rewrite Forall_forall in IH. by apply IH.
Qed.

Lemma preorder_list_skeleton l : preorder_list (map skeleton l) = map skeleton (preorder_list l).
Proof.
  induction l as [|c l IH]; [done|]. cbn [map].
  by rewrite !preorder_list_cons, map_app, IH, preorder_skeleton.
Qed.

(** Two trees with the same skeletons have the same component
    identities, in the same pre-order. *)
Lemma preorder_ids_skeleton cs cs' :
  map skeleton cs = map skeleton cs' ->
  cid <$> preorder_list cs = cid <$> preorder_list cs'.
Proof.
  assert (Hid : forall l, cid <$> preorder_list l = cid <$> preorder_list (map skeleton l)).
  { intros l. rewrite preorder_list_skeleton.
    induction (preorder_list l) as [|c r IHr]; [done|]. cbn. by rewrite IHr; destruct c. }
  intros H. by rewrite Hid, H, <- Hid.
Qed.

#[export] Hint Rewrite components_set_components set_components_set_components : sbom_rw.
#[export] Hint Rewrite preorder_list_cons dl_text_set dl_set_text_set erase_text_set : sbom_rw.
