(* ===== verification/Base64.v ===== *)
(** * Base64 encoding of file contents

    [fs.readFileSync(f, { encoding: 'base64' })] returns the bytes of [f]
    encoded by Node's [Buffer.prototype.toString('base64')]: the standard
    alphabet of RFC 4648 with [=] padding.  The encoding is Node's, not
    the repository's; it is modelled because the audit tests
    [license.text.content.length > 0] on its output.

    Each group of three bytes is read as a 24-bit number and cut into four
    6-bit digits; a final group of one or two bytes gives two or three
    digits and is padded with [=].

    [base64_decode] is the inverse the format promises to a reader of the
    SBOM: [base64_decode_encode] shows that no byte of a license file is
    lost or changed by the encoding. *)

From S2P Require Import Prelude.
From Stdlib Require Import Init.Byte NArith ZArith Lia ZifyN.
From Stdlib Require Strings.Byte.

Definition b64_alphabet : string :=
  "ABCDEFGHIJKLMNOPQRSTUVWXYZabcdefghijklmnopqrstuvwxyz0123456789+/".

(** The digit of value [n < 64]. *)
Definition b64_digit (n : N) : ascii :=
  match String.get (N.to_nat n) b64_alphabet with
  | Some c => c
  | None => "A"%char
  end.

Definition b64_pad : ascii := "="%char.

(** The 24-bit number of a group of bytes, the missing bytes being zero. *)
Definition group3 (b0 b1 b2 : byte) : N :=
  (Byte.to_N b0 * 65536 + Byte.to_N b1 * 256 + Byte.to_N b2)%N.

(** Digit [k] (from 0, most significant first) of a 24-bit group. *)
Definition sextet (n : N) (k : nat) : ascii :=
  b64_digit (N.modulo (N.div n (2 ^ N.of_nat (6 * (3 - k)))) 64).

Fixpoint base64_encode (bs : list byte) : string :=
  match bs with
  | b0 :: b1 :: b2 :: rest =>
      let n := group3 b0 b1 b2 in
      String (sextet n 0) (String (sextet n 1) (String (sextet n 2)
        (String (sextet n 3) (base64_encode rest))))
  | [b0; b1] =>
      let n := group3 b0 b1 Byte.x00 in
      String (sextet n 0) (String (sextet n 1) (String (sextet n 2)
        (String b64_pad EmptyString)))
  | [b0] =>
      let n := group3 b0 Byte.x00 Byte.x00 in
      String (sextet n 0) (String (sextet n 1)
        (String b64_pad (String b64_pad EmptyString)))
  | [] => EmptyString
  end.

(** The position of [c] in [s]. *)
Fixpoint str_index (c : ascii) (s : string) : option nat :=
  match s with
  | EmptyString => None
  | String d s' => if bool_decide (c = d) then Some 0 else S <$> str_index c s'
  end.

(** The value of a digit of the alphabet; [=] and other characters have none. *)
Definition b64_value (c : ascii) : option N := N.of_nat <$> str_index c b64_alphabet.

(** Byte [k] (from 0, least significant first) of a number. *)
Definition byte_at (n : N) (k : N) : byte :=
  match Byte.of_N (N.modulo (N.div n (2 ^ (8 * k))) 256) with
  | Some b => b
  | None => Byte.x00
  end.

(** The 24-bit number of four digits. *)
Definition quad (d0 d1 d2 d3 : N) : N := (d0 * 262144 + d1 * 4096 + d2 * 64 + d3)%N.

(** [Buffer.from(s, 'base64')] on a well-formed string: groups of four
    digits, the last group possibly ending in one or two [=].  Anything
    else is rejected ([None]); Node's decoder is more lenient, which does
    not matter for strings the encoder produced. *)
Fixpoint base64_decode (s : string) : option (list byte) :=
  match s with
  | EmptyString => Some []
  | String c0 (String c1 (String c2 (String c3 rest))) =>
      d0 ← b64_value c0; d1 ← b64_value c1;
      if bool_decide (c2 = b64_pad) then
        if bool_decide (c3 = b64_pad) && bool_decide (rest = "") then
          Some [byte_at (quad d0 d1 0 0) 2]
        else None
      else
        d2 ← b64_value c2;
        if bool_decide (c3 = b64_pad) then
          if bool_decide (rest = "") then
            Some [byte_at (quad d0 d1 d2 0) 2; byte_at (quad d0 d1 d2 0) 1]
          else None
        else
          d3 ← b64_value c3; rest' ← base64_decode rest;
          let n := quad d0 d1 d2 d3 in
          Some (byte_at n 2 :: byte_at n 1 :: byte_at n 0 :: rest')
  | _ => None
  end.

(** The value of digit [k] of a 24-bit group: what [sextet] writes. *)
Definition digit (n : N) (k : nat) : N := N.modulo (N.div n (2 ^ N.of_nat (6 * (3 - k)))) 64.

(** ** Properties of the encoding *)

(** Strong induction on a byte list, three bytes at a time. *)
Lemma bytes_ind3 (P : list byte -> Prop) :
  P [] -> (forall b0, P [b0]) -> (forall b0 b1, P [b0; b1]) ->
  (forall b0 b1 b2 rest, P rest -> P (b0 :: b1 :: b2 :: rest)) ->
  forall bs, P bs.
Proof.
  intros H0 H1 H2 H3 bs. remember (length bs) as n eqn:E. revert bs E.
  induction n as [n IH] using lt_wf_ind.
  intros [|b0 [|b1 [|b2 rest]]] E; auto. simpl in E.
  apply H3, (IH (length rest)); [lia|done].
Qed.

(** The encoded length is four characters per started group of three. *)
Lemma base64_encode_length bs :
  String.length (base64_encode bs) = 4 * ((length bs + 2) / 3).
Proof.
  induction bs using bytes_ind3; try reflexivity.
  cbn [base64_encode String.length length]. rewrite IHbs.
  replace (S (S (S (length bs))) + 2) with (1 * 3 + (length bs + 2)) by lia.
  rewrite Nat.div_add_l by lia. lia.
Qed.

(** Only the empty file encodes to the empty string. *)
Lemma base64_encode_empty_iff bs : base64_encode bs = "" <-> bs = [].
Proof.
  split; [|by intros ->].
  destruct bs as [|b0 [|b1 [|b2 rest]]]; simpl; done.
Qed.

(** ** Decoding *)

Lemma b64_value_digit_table :
  Forall (fun d => b64_value (b64_digit (N.of_nat d)) = Some (N.of_nat d)) (seq 0 64).
Proof. vm_compute. repeat constructor. Qed.

Lemma b64_value_digit d : (d < 64)%N -> b64_value (b64_digit d) = Some d.
Proof.
  intros Hd. pose proof b64_value_digit_table as H. rewrite Forall_forall in H.
  specialize (H (N.to_nat d)). rewrite N2Nat.id in H. apply H.
  apply elem_of_seq. lia.
Qed.

Lemma b64_value_pad : b64_value b64_pad = None.
Proof. reflexivity. Qed.

Lemma b64_digit_not_pad d : (d < 64)%N -> b64_digit d ≠ b64_pad.
Proof. intros Hd E. pose proof (b64_value_digit d Hd) as H. rewrite E in H. done. Qed.

Local Ltac nlia := zify; Z.div_mod_to_equations; lia.

Lemma byte_at_eq n k b :
  N.modulo (N.div n (2 ^ (8 * k))) 256 = Byte.to_N b -> byte_at n k = b.
Proof. intros H. unfold byte_at. by rewrite H, Strings.Byte.of_to_N. Qed.

Lemma group3_bytes b0 b1 b2 :
  byte_at (group3 b0 b1 b2) 2 = b0 ∧ byte_at (group3 b0 b1 b2) 1 = b1 ∧
  byte_at (group3 b0 b1 b2) 0 = b2.
Proof.
  pose proof (Strings.Byte.to_N_bounded b0). pose proof (Strings.Byte.to_N_bounded b1).
  pose proof (Strings.Byte.to_N_bounded b2). unfold group3.
  split_and!; apply byte_at_eq; cbn -[N.mul N.add N.div N.modulo]; nlia.
Qed.

Lemma digit_lt n k : (digit n k < 64)%N.
Proof. unfold digit. nlia. Qed.

Lemma quad_digits b0 b1 b2 :
  let n := group3 b0 b1 b2 in quad (digit n 0) (digit n 1) (digit n 2) (digit n 3) = n.
Proof.
  pose proof (Strings.Byte.to_N_bounded b0). pose proof (Strings.Byte.to_N_bounded b1).
  pose proof (Strings.Byte.to_N_bounded b2). unfold group3, quad, digit.
  cbn -[N.mul N.add N.div N.modulo]. nlia.
Qed.

Lemma quad_digits2 b0 b1 :
  let n := group3 b0 b1 Byte.x00 in quad (digit n 0) (digit n 1) (digit n 2) 0 = n.
Proof.
  pose proof (Strings.Byte.to_N_bounded b0). pose proof (Strings.Byte.to_N_bounded b1).
  unfold group3, quad, digit. cbn -[N.mul N.add N.div N.modulo]. nlia.
Qed.

Lemma quad_digits1 b0 :
  let n := group3 b0 Byte.x00 Byte.x00 in quad (digit n 0) (digit n 1) 0 0 = n.
Proof.
  pose proof (Strings.Byte.to_N_bounded b0).
  unfold group3, quad, digit. cbn -[N.mul N.add N.div N.modulo]. nlia.
Qed.

Lemma sextet_eq n k : sextet n k = b64_digit (digit n k).
Proof. reflexivity. Qed.

Lemma b64_value_sextet n k : b64_value (sextet n k) = Some (digit n k).
Proof. rewrite sextet_eq. apply b64_value_digit, digit_lt. Qed.

Lemma sextet_not_pad n k : bool_decide (sextet n k = b64_pad) = false.
Proof. apply bool_decide_false. rewrite sextet_eq. apply b64_digit_not_pad, digit_lt. Qed.

(** The encoding is lossless: decoding what
    [readFileSync(f, { encoding: 'base64' })] returned gives back exactly
    the bytes of the file. *)
Theorem base64_decode_encode bs : base64_decode (base64_encode bs) = Some bs.
Proof.
  induction bs as [|b0|b0 b1|b0 b1 b2 rest IH] using bytes_ind3;
    cbn [base64_encode base64_decode]; rewrite ?b64_value_sextet, ?sextet_not_pad; cbn [mbind option_bind].
  - done.
  - rewrite quad_digits1. by rewrite (proj1 (group3_bytes _ _ _)).
  - rewrite quad_digits2. by destruct (group3_bytes b0 b1 Byte.x00) as (-> & -> & _).
  - rewrite IH. cbn. rewrite quad_digits. by destruct (group3_bytes b0 b1 b2) as (-> & -> & ->).
Qed.

#[export] Hint Rewrite base64_encode_length : sbom_rw.
