(* ===== verification/Node.v ===== *)
(** * Node's [fs] and [path] as the sources call them

    The file system is read only: a record of the three calls the code
    makes, each returning what Node returns or the error it throws.
    [path.join] and [path.extname] are Node's POSIX versions, written out
    character by character.  These are library functions that are not
    part of the sources; the model follows Node's documented behaviour.

    Not modelled: [path.join] normalises ["."], [".."] and repeated
    slashes; here it only inserts the separator, which is what the code
    needs, since it always joins an install path with a plain file name. *)

From S2P Require Import Prelude Base64.
From Stdlib Require Import Init.Byte.

(** A read-only file system:
    - [readdirSync p]: the entry names of directory [p] in the order Node
      returns them, or the error it throws (ENOENT, ENOTDIR, ...);
    - [readFileSync p]: the bytes of file [p], or the error it throws
      (EISDIR for a directory, ...);
    - [realpathSync p]: [fs.realpathSync.native(p)], the canonical path of
      an existing [p] (symbolic links resolved; on a case-insensitive file
      system in the stored case), and [None] when [p] does not exist.
      [fs.existsSync(p)] is [true] exactly when this is defined. *)
Record FileSystem : Type := mkFileSystem {
  readdirSync : string -> res (list string);
  readFileSync : string -> res (list byte);
  realpathSync : string -> option string
}.

(** [fs.existsSync(p)]. *)
Definition existsSync (fs : FileSystem) (p : string) : bool :=
  bool_decide (is_Some (realpathSync fs p)).

(** [fs.readFileSync(p, { encoding: 'base64' })]. *)
Definition readFileSyncBase64 (fs : FileSystem) (p : string) : res string :=
  match readFileSync fs p with
  | Ok bs => Ok (base64_encode bs)
  | Err e => Err e
  end.

(** [path.join(dir, file)] for a plain file name. *)
Definition path_join (dir file : string) : string :=
  if endsWith dir "/" then dir +:+ file else dir +:+ "/" +:+ file.

(** ** [path.extname] (POSIX)

    Node scans the last path segment (trailing slashes ignored) from the
    right.  The extension is the part from the last dot, except that it is
    empty when the segment has no dot, when the dot is the segment's first
    character (["".bashrc"" style names]) and when the segment is [".."]. *)

(** The last segment of a path, reversed, trailing slashes dropped. *)
Fixpoint drop_slashes (r : list ascii) : list ascii :=
  match r with
  | c :: r' => if bool_decide (c = "/"%char) then drop_slashes r' else r
  | [] => []
  end.

Fixpoint take_segment (r : list ascii) : list ascii :=
  match r with
  | c :: r' => if bool_decide (c = "/"%char) then [] else c :: take_segment r'
  | [] => []
  end.

Definition last_segment_rev (p : string) : list ascii :=
  take_segment (drop_slashes (rev (String.list_ascii_of_string p))).

(** Split a reversed segment at its first dot (the last dot of the
    segment): the reversed characters after the dot and those before it. *)
Fixpoint split_last_dot (r : list ascii) : option (list ascii * list ascii) :=
  match r with
  | [] => None
  | c :: r' =>
      if bool_decide (c = "."%char) then Some ([], r')
      else match split_last_dot r' with
           | Some (after, before) => Some (c :: after, before)
           | None => None
           end
  end.

Definition extname (p : string) : string :=
  let seg := last_segment_rev p in
  match split_last_dot seg with
  | None => ""
  | Some (after, before) =>
      if bool_decide (before = []) then ""
      else if bool_decide (seg = ["."%char; "."%char]) then ""
      else String.string_of_list_ascii ("."%char :: rev after)
  end.

(** ** Lemmas *)

(** A file name: non-empty and without a slash. *)
Definition plain_name (f : string) : Prop :=
  f ≠ "" ∧ Forall (fun c => c ≠ "/"%char) (String.list_ascii_of_string f).

#[export] Instance plain_name_dec f : Decision (plain_name f).
Proof. unfold plain_name. apply _. Defined.

Lemma take_segment_app_slash r r' :
  Forall (fun c => c ≠ "/"%char) r ->
  take_segment (r ++ "/"%char :: r') = r.
Proof.
  induction 1 as [|c r Hc _ IH]; simpl.
  - simpl. by repeat case_bool_decide.
  - rewrite bool_decide_false by done. by rewrite IH.
Qed.

Lemma take_segment_no_slash r :
  Forall (fun c => c ≠ "/"%char) r -> take_segment r = r.
Proof.
  induction 1 as [|c r Hc _ IH]; simpl; [done|].
  rewrite bool_decide_false by done. by rewrite IH.
Qed.

Lemma drop_slashes_head c r :
  c ≠ "/"%char -> drop_slashes (c :: r) = c :: r.
Proof. intros. simpl. by rewrite bool_decide_false. Qed.

(** The reversed characters of a joined path: those of the file name, a
    slash, then the rest of the directory. *)
Lemma path_join_rev dir f :
  exists r, rev (String.list_ascii_of_string (path_join dir f)) =
            rev (String.list_ascii_of_string f) ++ "/"%char :: r.
Proof.
  unfold path_join. destruct (endsWith dir "/") eqn:Hend.
  - apply endsWith_spec in Hend as [pre Hpre].
    rewrite list_ascii_of_string_app, rev_app_distr, Hpre, rev_app_distr.
    simpl. eauto.
  - rewrite !list_ascii_of_string_app, !rev_app_distr. simpl.
    rewrite <- app_assoc. simpl. eauto.
Qed.

Lemma last_segment_rev_plain f :
  plain_name f -> last_segment_rev f = rev (String.list_ascii_of_string f).
Proof.
  intros [Hne Hf]. unfold last_segment_rev.
  apply Forall_rev in Hf.
  destruct (rev (String.list_ascii_of_string f)) as [|c r] eqn:E.
  - destruct f; [done|]. simpl in E. by destruct (rev _); simpl in E.
  - inversion Hf; subst. rewrite drop_slashes_head by done.
    by apply take_segment_no_slash.
Qed.

(** Joining a directory in front of a file name keeps its last segment. *)
Lemma last_segment_rev_join dir f :
  plain_name f -> last_segment_rev (path_join dir f) = last_segment_rev f.
Proof.
  intros Hp. rewrite (last_segment_rev_plain f Hp).
  destruct Hp as [Hne Hf]. apply Forall_rev in Hf.
  destruct (path_join_rev dir f) as [r Hr].
  unfold last_segment_rev. rewrite Hr.
  destruct (rev (String.list_ascii_of_string f)) as [|c r'] eqn:E.
  - destruct f; [done|]. simpl in E. by destruct (rev _); simpl in E.
  - inversion Hf; subst. simpl app. rewrite drop_slashes_head by done.
    rewrite app_comm_cons. by apply take_segment_app_slash.
Qed.

Lemma extname_join dir f :
  plain_name f -> extname (path_join dir f) = extname f.
Proof. intros Hp. unfold extname. by rewrite last_segment_rev_join. Qed.
