(* ===== verification/Glob.v ===== *)
(** * [minimatch] as [LicenseBuilder.searchLicenseSources] calls it

    [minimatch.match(names, pattern, { nocase: true, noglobstar: true,
    noext: true })] keeps, in their order, the names the pattern matches.
    The package is not part of the sources; the model covers the part of
    its language the candidate patterns can exercise:
    - [*] matches any run of characters other than [/] ([noglobstar] makes
      [**] the same as [*]);
    - [?] matches one character other than [/];
    - every other character matches itself up to ASCII case ([nocase]);
    - a name that starts with a dot is matched only by a pattern that
      starts with a dot (the [dot: false] default).
    Not modelled: brace expansion ([{a,b}]), character classes ([[...]]),
    backslash escapes, negation ([!]) and comments ([#]) at the start of a
    pattern.  [literal_pattern] excludes all of them, so the theorems
    stated for literal patterns hold of the real package as well. *)

From S2P Require Import Prelude.

(** [*] against [s]: some prefix without [/] is skipped and the rest
    matches the continuation [k]. *)
Fixpoint star_match (k : list ascii -> bool) (s : list ascii) : bool :=
  k s || match s with
         | d :: s' => bool_decide (d ≠ "/"%char) && star_match k s'
         | [] => false
         end.

Fixpoint glob (p s : list ascii) : bool :=
  match p with
  | [] => match s with [] => true | _ :: _ => false end
  | c :: p' =>
      if bool_decide (c = "*"%char) then star_match (glob p') s
      else if bool_decide (c = "?"%char) then
        match s with
        | d :: s' => bool_decide (d ≠ "/"%char) && glob p' s'
        | [] => false
        end
      else
        match s with
        | d :: s' => bool_decide (ascii_toLower c = ascii_toLower d) && glob p' s'
        | [] => false
        end
  end.

(** [minimatch(name, pattern, options)]. *)
Definition minimatch (name pattern : string) : bool :=
  if startsWith name "." && negb (startsWith pattern ".") then false
  else glob (String.list_ascii_of_string pattern) (String.list_ascii_of_string name).

(** [minimatch.match(names, pattern, options)]. *)
Definition minimatch_match (names : list string) (pattern : string) : list string :=
  filter (fun n => minimatch n pattern = true) names.

(** The characters that have a meaning in a minimatch pattern. *)
Definition glob_special (c : ascii) : Prop :=
  c ∈ ["*"; "?"; "["; "]"; "{"; "}"; "!"; "#"; ascii_of_nat 92]%char.

#[export] Instance glob_special_dec c : Decision (glob_special c).
Proof. unfold glob_special. apply _. Defined.

Definition literal_pattern (p : string) : Prop :=
  Forall (fun c => ¬ glob_special c) (String.list_ascii_of_string p).

#[export] Instance literal_pattern_dec p : Decision (literal_pattern p).
Proof. unfold literal_pattern. apply _. Defined.

(** ** Lemmas *)

Lemma star_match_spec k s :
  star_match k s = true <->
  exists pre suf, s = pre ++ suf ∧ Forall (fun d => d ≠ "/"%char) pre ∧ k suf = true.
Proof.
  induction s as [|d s IH]; simpl; rewrite orb_true_iff.
  - split.
    + intros [Hk|Hk]; [|done]. exists [], []. auto.
    + intros (pre & suf & Hs & _ & Hk). symmetry in Hs.
      apply app_eq_nil in Hs as [-> ->]. auto.
  - rewrite andb_true_iff, bool_decide_eq_true, IH. split.
    + intros [Hk|[Hd (pre & suf & -> & Hpre & Hk)]].
      * exists [], (d :: s). auto.
      * exists (d :: pre), suf. auto.
    + intros ([|d' pre] & suf & Hs & Hpre & Hk); simpl in Hs.
      * subst. auto.
      * injection Hs as -> ->. inversion Hpre; subst. right. split; [done|eauto].
Qed.

Lemma ascii_toLower_special c : glob_special c -> ascii_toLower c = c.
Proof.
  unfold glob_special. rewrite !elem_of_cons, elem_of_nil.
  intros H. repeat destruct H as [->|H]; try done.
Qed.

(** A character that is not special is neither [*] nor [?]. *)
Local Ltac not_wildcard Hc := intros ->; apply Hc; unfold glob_special; set_solver.

(** A literal pattern matches exactly the names equal to it up to case. *)
Lemma glob_literal p s :
  Forall (fun c => ¬ glob_special c) p ->
  glob p s = bool_decide (map ascii_toLower p = map ascii_toLower s).
Proof.
  intros Hp. revert s. induction Hp as [|c p Hc _ IH]; intros [|d s]; cbn [glob map].
  - done.
  - by rewrite bool_decide_false.
  - rewrite !(bool_decide_false (c = _)) by not_wildcard Hc.
    by rewrite bool_decide_false.
  - rewrite !(bool_decide_false (c = _)) by not_wildcard Hc.
    rewrite IH. repeat case_bool_decide; simpl; congruence.
Qed.

(** The characters [*], [?], [/] and [.] are not letters: case folding
    neither produces nor changes them. *)
Lemma bool_decide_lower_eq c d :
  ¬ (65 ≤ nat_of_ascii d ≤ 90) -> ¬ (97 ≤ nat_of_ascii d ≤ 122) ->
  bool_decide (ascii_toLower c = d) = bool_decide (c = d).
Proof. intros Hu Hl. apply bool_decide_ext. by apply ascii_toLower_nonletter. Qed.

Local Ltac nonletter :=
  rewrite ?bool_decide_not;
  rewrite ?bool_decide_lower_eq by (cbv; lia).

Lemma star_match_ext k k' s :
  (forall s, k s = k' s) -> star_match k s = star_match k' s.
Proof. intros Hk. induction s as [|d s IH]; simpl; by rewrite Hk, ?IH. Qed.

Lemma glob_lower_name p s : glob p (map ascii_toLower s) = glob p s.
Proof.
  revert s. induction p as [|c p IH]; intros s; cbn [glob].
  - by destruct s.
  - case_bool_decide.
    + induction s as [|d s IHs]; cbn [star_match map]; [done|].
      rewrite IHs, <- (IH (d :: s)). by nonletter.
    + case_bool_decide; destruct s as [|d s]; cbn [map]; try done;
        rewrite IH; [by nonletter | by rewrite ascii_toLower_idem].
Qed.

Lemma glob_lower_pattern p s : glob (map ascii_toLower p) s = glob p s.
Proof.
  revert s. induction p as [|c p IH]; intros s; cbn [glob map]; [done|].
  nonletter. case_bool_decide.
  - by apply star_match_ext.
  - case_bool_decide; destruct s as [|d s]; try done;
      rewrite IH; [done | by rewrite ascii_toLower_idem].
Qed.

Lemma startsWith_dot_lower s : startsWith (toLowerCase s) "." = startsWith s ".".
Proof.
  destruct s as [|c s]; [done|]. unfold startsWith. cbn [prefixb String.list_ascii_of_string toLowerCase].
  rewrite !(bool_decide_ext ("."%char = _) (_ = "."%char)) by done. by nonletter.
Qed.

Lemma minimatch_lower_name name pattern :
  minimatch (toLowerCase name) pattern = minimatch name pattern.
Proof.
  unfold minimatch. rewrite startsWith_dot_lower, list_ascii_toLowerCase.
  by rewrite glob_lower_name.
Qed.

Lemma minimatch_lower_pattern name pattern :
  minimatch name (toLowerCase pattern) = minimatch name pattern.
Proof.
  unfold minimatch. rewrite startsWith_dot_lower, list_ascii_toLowerCase.
  by rewrite glob_lower_pattern.
Qed.

(** A name starting with a dot, against a pattern that does not. *)
Lemma minimatch_hidden name pattern :
  startsWith name "." = true -> startsWith pattern "." = false ->
  minimatch name pattern = false.
Proof. intros H1 H2. unfold minimatch. by rewrite H1, H2. Qed.

Lemma startsWith_lower_eq s t :
  toLowerCase s = toLowerCase t -> startsWith s "." = startsWith t ".".
Proof. intros H. by rewrite <- startsWith_dot_lower, H, startsWith_dot_lower. Qed.

(** ** Properties of the matcher *)

Lemma minimatch_literal name pattern :
  literal_pattern pattern ->
  minimatch name pattern = bool_decide (toLowerCase pattern = toLowerCase name).
Proof.
  intros Hp. unfold minimatch.
  destruct (startsWith name ".") eqn:Hn, (startsWith pattern ".") eqn:Hpat; simpl.
  2: { rewrite bool_decide_false; [done|].
       intros H%startsWith_lower_eq. congruence. }
  all: rewrite glob_literal by done; apply bool_decide_ext;
       by rewrite <- list_ascii_of_string_inj, !list_ascii_toLowerCase.
Qed.

(** For a pattern without glob syntax, [minimatch.match] with
    [nocase] keeps, in directory order, exactly the names equal to the
    pattern up to case: the candidate is a literal, and hidden files are
    matched only by a pattern that starts with a dot itself. *)
Lemma minimatch_match_literal names pattern :
  literal_pattern pattern ->
  minimatch_match names pattern =
  filter (fun n => toLowerCase pattern = toLowerCase n) names.
Proof.
  intros Hp. unfold minimatch_match. apply list_filter_iff. intros n.
  rewrite minimatch_literal by done. apply bool_decide_eq_true.
Qed.

(** Matching ignores case on both sides, whatever the pattern: an
    entry is kept exactly when its lower-cased name matches the
    lower-cased pattern. *)
Lemma minimatch_match_case_insensitive names pattern :
  minimatch_match names pattern =
  filter (fun n => minimatch (toLowerCase n) (toLowerCase pattern) = true) names.
Proof.
  unfold minimatch_match. apply list_filter_iff. intros n.
  by rewrite minimatch_lower_name, minimatch_lower_pattern.
Qed.
