(* ===== verification/Fixtures.v ===== *)
(** * Concrete file systems for the witnesses

    [dir_fs dir files] is a file system holding one directory [dir] with
    the given files (name and bytes), on a case-sensitive volume: a path
    exists exactly as written and [realpathSync] returns it unchanged.
    [fs_on] takes the volume's comparison of paths.  Reading
    the directory itself as a file throws EISDIR, so [dir_fs "pkg/LICENSE" []]
    is a package holding a directory named [LICENSE].  [npm_pkg] is a
    package component with one named license and its install path. *)

From S2P Require Import Prelude Model Node.
From Stdlib Require Import Init.Byte.

Definition find_file (same : string -> string -> bool) (dir p : string)
  (files : list (string * list byte)) : option (string * list byte) :=
  List.find (fun nf => same (path_join dir nf.1) p) files.

Definition fs_on (same : string -> string -> bool) (dir : string)
  (files : list (string * list byte)) : FileSystem := {|
  readdirSync := fun p =>
    if same dir p then Ok (map fst files) else Err (FsError "ENOENT" "scandir" p);
  readFileSync := fun p =>
    if same dir p then Err (FsError "EISDIR" "read" p) else
    match find_file same dir p files with
    | Some (_, bs) => Ok bs
    | None => Err (FsError "ENOENT" "open" p)
    end;
  realpathSync := fun p =>
    if same dir p then Some dir else
    match find_file same dir p files with
    | Some (n, _) => Some (path_join dir n)
    | None => None
    end
|}.

Definition dir_fs : string -> list (string * list byte) -> FileSystem :=
  fs_on (fun a b => bool_decide (a = b)).

(** The bytes of an ASCII text. *)
Definition text_bytes (s : string) : list byte := String.list_byte_of_string s.

(** A package component named [pkg], with one named license without text,
    installed at [path]. *)
Definition npm_pkg (i : nat) (path : string) : Component :=
  mkComponent i "pkg" (Some "1.0.0") [mkProperty PackageInstallPath path]
    [Disjunctive (NamedLicense "MIT" None)] [].
