(* ===== verification/LicenseBuilder.v ===== *)
(** * [class LicenseBuilder] (src/src/licenseBuilder.ts)

    The locator and the attacher of the newer implementation.
    - [typicalFilenames], [licenseContentTypes], [fileExtensions],
      [contentTypes], [guessContentType]: the static tables.
    - [shortLicName]: [licenseName.replace(/-.*/, '')].
    - [searchLicenseSources]: one [fs.readdirSync] of the install path, then
      [minimatch.match] of every candidate pattern in the order
      base name, name variant, extension.
    - [addText]: reads the first candidate as base64 and sets [license.text].
    - [addTexts]: for every license of a repository, calls the locator
      through [this] (the [LicenseLocator] class, so that the attacher's
      theorems hold for any locator meeting [LicenseLocatorLaws]) and
      [addText], and counts the licenses that end with a text. *)

From S2P Require Import Prelude Model Base64 Node Glob Fixtures.
From Stdlib Require Import Init.Byte.

Module LicenseBuilder.

(** ** The static tables *)

Definition typicalFilenames : list string :=
  ["license"; "licence"; "notice"; "unlicense"; "unlicence"].

(** [{ '': 'text/plain', '.txt': 'text/txt', '.md': 'text/markdown',
    '.xml': 'text/xml' }], in property order. *)
Definition licenseContentTypes : list (string * string) :=
  [("", "text/plain"); (".txt", "text/txt"); (".md", "text/markdown");
   (".xml", "text/xml")].

Definition fileExtensions : list string := map fst licenseContentTypes.

Definition contentTypes : list string := map snd licenseContentTypes.

(** [licenseContentTypes()[ext]]: a property read, [undefined] ([None])
    for a key that is not in the object.  The keys read are results of
    [path.extname], empty or starting with a dot, so no inherited property
    of [Object.prototype] can be hit. *)
Fixpoint lookup_key (k : string) (tbl : list (string * string)) : option string :=
  match tbl with
  | [] => None
  | (k', v) :: tbl' => if bool_decide (k = k') then Some v else lookup_key k tbl'
  end.

Definition guessContentType (ext : string) : option string :=
  lookup_key ext licenseContentTypes.

(** ** [licenseName.replace(/-.*/, '')]

    The first hyphen and the longest run after it of characters that [.]
    matches are removed.  In a JavaScript regular expression [.] does not
    match the line terminators; on ASCII these are LF and CR. *)
Definition is_line_terminator (c : ascii) : bool :=
  bool_decide (c = "010"%char) || bool_decide (c = "013"%char).

Fixpoint drop_to_line_end (s : string) : string :=
  match s with
  | EmptyString => EmptyString
  | String c s' => if is_line_terminator c then s else drop_to_line_end s'
  end.

Fixpoint shortLicName (licenseName : string) : string :=
  match licenseName with
  | EmptyString => EmptyString
  | String c s' =>
      if bool_decide (c = "-"%char) then drop_to_line_end s'
      else String c (shortLicName s')
  end.

(** The four name variants of one base name. *)
Definition filenameVariants (typicalFilename shortLic : string) : list string :=
  [typicalFilename; typicalFilename +:+ "." +:+ shortLic;
   shortLic +:+ "." +:+ typicalFilename; typicalFilename +:+ "-" +:+ shortLic].

(** All candidate patterns in the order of the three nested loops. *)
Definition candidatePatterns (licenseName : string) : list string :=
  let shortLic := shortLicName licenseName in
  flat_map (fun typicalFilename =>
    flat_map (fun filenameVariant =>
      map (fun fileExtension => filenameVariant +:+ fileExtension) fileExtensions)
      (filenameVariants typicalFilename shortLic))
    typicalFilenames.

Section WithFs.
Variable fs : FileSystem.

(** [searchLicenseSources(pkgPath, licenseName)]: an empty path gives no
    candidates; otherwise [fs.readdirSync(pkgPath)] (which throws for a
    missing directory) and, for every base name, variant and extension in
    that order, the matching entries joined to the path. *)
Definition searchLicenseSources (pkgPath licenseName : string) : res (list string) :=
  if bool_decide (String.length pkgPath < 1) then Ok [] else
  let shortLic := shortLicName licenseName in
  match readdirSync fs pkgPath with
  | Err e => Err e
  | Ok availableFilenames =>
      Ok (flat_map (fun typicalFilename =>
            flat_map (fun filenameVariant =>
              flat_map (fun fileExtension =>
                map (path_join pkgPath)
                  (minimatch_match availableFilenames (filenameVariant +:+ fileExtension)))
                fileExtensions)
              (filenameVariants typicalFilename shortLic))
            typicalFilenames)
  end.

(** [addText(license, filenames)]: with at least one candidate, read the
    first as base64 and set [license.text] to an attachment whose content
    type is guessed from its extension. *)
Definition addText (filenames : list string) : st DisjunctiveLicense unit :=
  fun license =>
    match filenames with
    | [] => (Ok tt, license)
    | filename :: _ =>
        match readFileSyncBase64 fs filename with
        | Err e => (Err e, license)
        | Ok licContent =>
            (Ok tt, dl_set_text
                      (Some (mkAttachment licContent (Some Base64)
                               (guessContentType (extname filename))))
                      license)
        end
    end.

End WithFs.

(** ** The locator as [addTexts] sees it

    [addTexts] calls [this.searchLicenseSources]: any method of that
    signature, the class's own or an override.  [LicenseLocatorLaws] is
    what the attacher relies on: no search without a path, and every
    candidate is an entry of the install directory. *)
Class LicenseLocator := { locate : string -> string -> res (list string) }.

Class LicenseLocatorLaws (L : LicenseLocator) (fs : FileSystem) := {
  locate_no_path : forall licenseName, locate "" licenseName = Ok [];
  locate_in_dir : forall pkgPath licenseName found f,
    locate pkgPath licenseName = Ok found -> f ∈ found ->
    exists names n, readdirSync fs pkgPath = Ok names ∧ n ∈ names ∧
                    f = path_join pkgPath n
}.

#[export] Instance builder_locator (fs : FileSystem) : LicenseLocator :=
  {| locate := searchLicenseSources fs |}.

(** The name a disjunctive license is searched by: [license.name] for a
    [NamedLicense], [license.id] for an [SpdxLicense]. *)
Definition dl_key (d : DisjunctiveLicense) : string :=
  match d with NamedLicense n _ => n | SpdxLicense i _ => i end.

(** [!(license instanceof LicenseExpression) && license.text != undefined] *)
Definition has_text (l : License) : bool :=
  match l with
  | Disjunctive d => bool_decide (is_Some (dl_text d))
  | LicenseExpression _ => false
  end.

(** What may become of a license [l] in a pass over the install path:
    it stays as it is, or it carries the base64 content of a file that is
    an entry of that directory, typed by the file's extension. *)
Definition from_install_dir (fs : FileSystem) (pkgPath : string) (l l' : License) : Prop :=
  l' = l ∨ exists names n bs, readdirSync fs pkgPath = Ok names ∧ n ∈ names ∧
    readFileSync fs (path_join pkgPath n) = Ok bs ∧
    license_text l' = Some (mkAttachment (base64_encode bs) (Some Base64)
                             (guessContentType (extname (path_join pkgPath n)))).

Section AddTexts.
Context `{L : LicenseLocator} (fs : FileSystem).

(** The body of the loop of [addTexts] for one license: search (which may
    throw) and [addText] for a disjunctive license, nothing for an
    expression. *)
Definition addTextTo (pkgPath : string) : st License unit :=
  fun license =>
    match license with
    | Disjunctive d =>
        match locate pkgPath (dl_key d) with
        | Err e => (Err e, license)
        | Ok filenames =>
            let (r, d') := addText fs filenames d in (r, Disjunctive d')
        end
    | LicenseExpression _ => (Ok tt, license)
    end.

(** The loop with its counter [licAdded]. *)
Fixpoint addTexts_loop (pkgPath : string) (licAdded : nat) (licenses : list License)
  : res nat * list License :=
  match licenses with
  | [] => (Ok licAdded, [])
  | license :: rest =>
      match addTextTo pkgPath license with
      | (Err e, license') => (Err e, license' :: rest)
      | (Ok _, license') =>
          let (r, rest') :=
            addTexts_loop pkgPath (if has_text license' then S licAdded else licAdded) rest in
          (r, license' :: rest')
      end
  end.

(** [addTexts(licenses, pkgPath)]: the licenses are mutated in place; the
    count is returned unless an exception escapes. *)
Definition addTexts (licenses : list License) (pkgPath : string) : res nat * list License :=
  addTexts_loop pkgPath 0 licenses.

End AddTexts.

(** ** The short license name *)

Lemma drop_to_line_end_single_line s :
  Forall (fun c => is_line_terminator c = false) (String.list_ascii_of_string s) ->
  drop_to_line_end s = "".
Proof.
  induction s as [|c s IH]; simpl; intros H; [done|].
  inversion_clear H as [|? ? Hc Hs]. rewrite Hc. by apply IH.
Qed.

Lemma shortLicName_app_hyphen pre suf :
  Forall (fun c => c ≠ "-"%char) (String.list_ascii_of_string pre) ->
  shortLicName (pre +:+ String "-" suf) = pre +:+ drop_to_line_end suf.
Proof.
  induction pre as [|c pre IH]; intros H; rewrite ?string_app_empty, ?string_app_cons.
  - cbn [shortLicName]. by rewrite bool_decide_true.
  - inversion_clear H as [|? ? Hc Hs]. cbn [shortLicName].
    rewrite bool_decide_false by done. by rewrite IH.
Qed.

Lemma shortLicName_no_hyphen s :
  Forall (fun c => c ≠ "-"%char) (String.list_ascii_of_string s) -> shortLicName s = s.
Proof.
  induction s as [|c s IH]; intros H; [done|].
  inversion_clear H as [|? ? Hc Hs]. cbn [shortLicName].
  rewrite bool_decide_false by done. by rewrite IH.
Qed.

(** Every character of the short name is a character of the name. *)
Lemma Forall_drop_to_line_end (P : ascii -> Prop) s :
  Forall P (String.list_ascii_of_string s) ->
  Forall P (String.list_ascii_of_string (drop_to_line_end s)).
Proof.
  induction s as [|c s IH]; simpl; intros H; [done|].
  destruct (is_line_terminator c); [done|]. inversion H; auto.
Qed.

Lemma Forall_shortLicName (P : ascii -> Prop) s :
  Forall P (String.list_ascii_of_string s) ->
  Forall P (String.list_ascii_of_string (shortLicName s)).
Proof.
  induction s as [|c s IH]; simpl; intros H; [done|].
  inversion_clear H as [|? ? Hc Hs]. case_bool_decide; simpl.
  - by apply Forall_drop_to_line_end.
  - constructor; auto.
Qed.

Lemma literal_pattern_app s t :
  literal_pattern (s +:+ t) <-> literal_pattern s ∧ literal_pattern t.
Proof. unfold literal_pattern. by rewrite list_ascii_of_string_app, Forall_app. Qed.

Lemma elem_of_candidatePatterns licenseName pat :
  pat ∈ candidatePatterns licenseName <->
  exists typ v ext, typ ∈ typicalFilenames ∧
    v ∈ filenameVariants typ (shortLicName licenseName) ∧
    ext ∈ fileExtensions ∧ pat = v +:+ ext.
Proof.
  unfold candidatePatterns. rewrite elem_of_flat_map. split.
  - intros (typ & Htyp & Hp). apply elem_of_flat_map in Hp as (v & Hv & Hp).
    apply elem_of_map_iff in Hp as (ext & -> & Hext). eauto 10.
  - intros (typ & v & ext & Htyp & Hv & Hext & ->). exists typ. split; [done|].
    apply elem_of_flat_map. exists v. split; [done|]. apply elem_of_map_iff. eauto.
Qed.

(** A license name without glob syntax gives literal candidate patterns. *)
Lemma candidatePatterns_literal licenseName :
  literal_pattern licenseName -> Forall literal_pattern (candidatePatterns licenseName).
Proof.
  intros Hn. apply Forall_forall. intros pat
    (typ & v & ext & Htyp & Hv & Hext & ->)%elem_of_candidatePatterns.
  apply Forall_shortLicName in Hn.
  assert (Ht : Forall literal_pattern typicalFilenames) by decide_by_eval.
  assert (He : Forall literal_pattern fileExtensions) by decide_by_eval.
  assert (Hdot : literal_pattern ".") by decide_by_eval.
  assert (Hdash : literal_pattern "-") by decide_by_eval.
  rewrite Forall_forall in Ht, He.
  apply literal_pattern_app. split; [|by apply He].
  unfold filenameVariants in Hv. rewrite !elem_of_cons, elem_of_nil in Hv.
  specialize (Ht typ Htyp).
  destruct Hv as [->|[->|[->|[->|[]]]]]; rewrite ?literal_pattern_app; tauto.
Qed.

Lemma length_candidatePatterns licenseName :
  length (candidatePatterns licenseName) = 80.
Proof. reflexivity. Qed.

(** ** The search *)

Lemma string_length_pos s : s ≠ "" -> ¬ String.length s < 1.
Proof. destruct s; simpl; [done|lia]. Qed.

Lemma searchLicenseSources_empty fs licenseName :
  searchLicenseSources fs "" licenseName = Ok [].
Proof. reflexivity. Qed.

Lemma searchLicenseSources_readdir_error fs pkgPath licenseName e :
  pkgPath ≠ "" -> readdirSync fs pkgPath = Err e ->
  searchLicenseSources fs pkgPath licenseName = Err e.
Proof.
  intros Hp Hd. unfold searchLicenseSources.
  rewrite bool_decide_false by (by apply string_length_pos). by rewrite Hd.
Qed.

(** The three nested loops of the search are one loop over the
    candidate patterns in order (base name, then variant, then extension);
    for each pattern the matching directory entries come in directory
    order, joined to the install path. *)
Lemma searchLicenseSources_flat fs pkgPath licenseName names :
  pkgPath ≠ "" -> readdirSync fs pkgPath = Ok names ->
  searchLicenseSources fs pkgPath licenseName =
  Ok (flat_map (fun pat => map (path_join pkgPath) (minimatch_match names pat))
               (candidatePatterns licenseName)).
Proof.
  intros Hp Hd. unfold searchLicenseSources, candidatePatterns.
  rewrite bool_decide_false by (by apply string_length_pos). rewrite Hd. f_equal.
  rewrite flat_map_flat_map. apply flat_map_ext. intros typ.
  rewrite flat_map_flat_map. apply flat_map_ext. intros v.
  by rewrite flat_map_map.
Qed.

Lemma elem_of_search_flat pkgPath names cands f :
  f ∈ flat_map (fun pat => map (path_join pkgPath) (minimatch_match names pat)) cands <->
  exists pat n, pat ∈ cands ∧ n ∈ names ∧ minimatch n pat = true ∧ f = path_join pkgPath n.
Proof.
  rewrite elem_of_flat_map. unfold minimatch_match. split.
  - intros (pat & Hpat & (n & -> & Hn)%elem_of_map_iff).
    apply list_elem_of_filter in Hn as [Hm Hn]. eauto 10.
  - intros (pat & n & Hpat & Hn & Hm & ->). exists pat. split; [done|].
    apply elem_of_map_iff. exists n. split; [done|]. by apply list_elem_of_filter.
Qed.

(** The class's own locator meets the laws the attacher relies on. *)
Lemma builder_locator_laws fs : LicenseLocatorLaws (builder_locator fs) fs.
Proof.
  split; [done|].
  intros pkgPath licenseName found f Hs Hf. cbn [locate builder_locator] in Hs.
  destruct (decide (pkgPath = "")) as [->|Hp].
  { injection Hs as <-. by apply elem_of_nil in Hf. }
  destruct (readdirSync fs pkgPath) as [names|e] eqn:Hd.
  - rewrite (searchLicenseSources_flat _ _ _ _ Hp Hd) in Hs. apply Ok_inj in Hs. subst found.
    apply elem_of_search_flat in Hf as (pat & n & _ & Hn & _ & ->). eauto.
  - by rewrite (searchLicenseSources_readdir_error _ _ _ _ Hp Hd) in Hs.
Qed.
#[export] Existing Instance builder_locator_laws.

(** C10: for a license name without glob syntax the search finds exactly
    the entries of the install directory (no subdirectory is entered)
    whose name equals some candidate pattern up to case; it does not
    throw once the directory has been listed. *)
Theorem searchLicenseSources_literal fs pkgPath licenseName names :
  pkgPath ≠ "" -> readdirSync fs pkgPath = Ok names -> literal_pattern licenseName ->
  match searchLicenseSources fs pkgPath licenseName with
  | Ok found => forall f, f ∈ found <->
      exists n, n ∈ names ∧ f = path_join pkgPath n ∧
        exists pat, pat ∈ candidatePatterns licenseName ∧ toLowerCase pat = toLowerCase n
  | Err _ => False
  end.
Proof.
  intros Hp Hd Hlit. rewrite (searchLicenseSources_flat _ _ _ _ Hp Hd). intros f.
  pose proof (candidatePatterns_literal _ Hlit) as Hc. rewrite Forall_forall in Hc.
  rewrite elem_of_search_flat. split.
  - intros (pat & n & Hpat & Hn & Hm & ->). rewrite minimatch_literal in Hm by auto.
    apply bool_decide_eq_true in Hm. eauto 10.
  - intros (n & Hn & -> & pat & Hpat & Heq). exists pat, n. rewrite minimatch_literal by auto.
    repeat split; auto. by apply bool_decide_eq_true.
Qed.

Lemma searchLicenseSources_literal_witness :
  "pkg" ≠ "" ∧
  readdirSync (dir_fs "pkg" [("COPYING", []); ("Licence.md", [])]) "pkg" =
    Ok ["COPYING"; "Licence.md"] ∧
  literal_pattern "Apache-2.0" ∧
  match searchLicenseSources (dir_fs "pkg" [("COPYING", []); ("Licence.md", [])]) "pkg" "Apache-2.0" with
  | Ok found => forall f, f ∈ found <->
      exists n, n ∈ ["COPYING"; "Licence.md"] ∧ f = path_join "pkg" n ∧
        exists pat, pat ∈ candidatePatterns "Apache-2.0" ∧ toLowerCase pat = toLowerCase n
  | Err _ => False
  end.
Proof.
  split; [decide_by_eval|]. split; [reflexivity|]. split; [decide_by_eval|].
  apply searchLicenseSources_literal; decide_by_eval.
Defined.

(** C19: [LICENSE] and [license.MIT.md] are both found for [MIT], whatever
    their case, in the order of the loops: the bare base name before the
    [license.MIT] variant. *)
Theorem searchLicenseSources_case_variants fs pkgPath :
  pkgPath ≠ "" -> readdirSync fs pkgPath = Ok ["license.MIT.md"; "LICENSE"] ->
  searchLicenseSources fs pkgPath "MIT" =
    Ok [path_join pkgPath "LICENSE"; path_join pkgPath "license.MIT.md"].
Proof.
  intros Hp Hd. rewrite (searchLicenseSources_flat _ _ _ _ Hp Hd). by vm_compute.
Qed.

Lemma searchLicenseSources_case_variants_witness :
  let fs := dir_fs "pkg" [("license.MIT.md", []); ("LICENSE", [])] in
  "pkg" ≠ "" ∧ readdirSync fs "pkg" = Ok ["license.MIT.md"; "LICENSE"] ∧
  searchLicenseSources fs "pkg" "MIT" = Ok ["pkg/LICENSE"; "pkg/license.MIT.md"].
Proof.
  intros fs. split; [decide_by_eval|]. split; [reflexivity|].
  apply searchLicenseSources_case_variants; decide_by_eval.
Defined.

(** C13: the license name is pasted into minimatch patterns unescaped: a
    name [*] makes [license.*] a wildcard, so an arbitrary [license.html]
    is taken as license evidence, and its content type is [undefined]
    because [.html] is not a key of [licenseContentTypes]. *)
Theorem searchLicenseSources_glob_name fs pkgPath :
  pkgPath ≠ "" -> readdirSync fs pkgPath = Ok ["license.html"] ->
  searchLicenseSources fs pkgPath "*" = Ok [path_join pkgPath "license.html"] ∧
  guessContentType (extname (path_join pkgPath "license.html")) = None.
Proof.
  intros Hp Hd. rewrite (searchLicenseSources_flat _ _ _ _ Hp Hd).
  split; [by vm_compute|]. by rewrite extname_join by decide_by_eval.
Qed.

Lemma searchLicenseSources_glob_name_witness :
  let fs := dir_fs "pkg" [("license.html", text_bytes "<html></html>")] in
  "pkg" ≠ "" ∧ readdirSync fs "pkg" = Ok ["license.html"] ∧
  searchLicenseSources fs "pkg" "*" = Ok ["pkg/license.html"] ∧
  guessContentType (extname "pkg/license.html") = None.
Proof.
  intros fs. split; [decide_by_eval|]. split; [reflexivity|].
  apply (searchLicenseSources_glob_name fs "pkg"); decide_by_eval.
Defined.

(** ** The attacher *)

(** An extension that is not exactly a key of the table gives an
    [undefined] content type. *)
Lemma guessContentType_None ext :
  ext ∉ fileExtensions -> guessContentType ext = None.
Proof.
  intros Hext. unfold guessContentType, licenseContentTypes. cbn [lookup_key].
  rewrite !bool_decide_false; [done| |..];
    intros ->; apply Hext; unfold fileExtensions; simpl; set_solver.
Qed.

Section AddTextsFacts.
Context `{L : LicenseLocator} (fs : FileSystem).

Lemma dl_key_set t d : dl_key (dl_set_text t d) = dl_key d.
Proof. by destruct d. Qed.

(** [addText] either leaves the license alone or sets its text. *)
Lemma addText_cases fns d r d' :
  addText fs fns d = (r, d') ->
  d' = d ∨ exists f rest bs, fns = f :: rest ∧ readFileSync fs f = Ok bs ∧
    d' = dl_set_text (Some (mkAttachment (base64_encode bs) (Some Base64)
                              (guessContentType (extname f)))) d.
Proof.
  unfold addText, readFileSyncBase64. destruct fns as [|f rest]; intros H; [res_inv; by left|].
  destruct (readFileSync fs f) as [bs|e] eqn:Hr; res_inv; [right; eauto 10 | by left].
Qed.

Lemma addTextTo_erase pkgPath l r l' :
  addTextTo fs pkgPath l = (r, l') -> erase_text l' = erase_text l.
Proof.
  destruct l as [d|e]; simpl; intros H; [|by res_inv].
  destruct (locate pkgPath (dl_key d)) as [fns|e]; [|by res_inv].
  destruct (addText fs fns d) as [r' d'] eqn:Ha. res_inv.
  by destruct (addText_cases _ _ _ _ Ha) as [->|(? & ? & ? & _ & _ & ->)];
    autorewrite with sbom_rw.
Qed.

(** A successful visit is a fixed point of the visit. *)
Lemma addTextTo_idem pkgPath l l' :
  addTextTo fs pkgPath l = (Ok tt, l') -> addTextTo fs pkgPath l' = (Ok tt, l').
Proof.
  destruct l as [d|e]; simpl; intros H; [|by res_inv].
  destruct (locate pkgPath (dl_key d)) as [fns|e] eqn:Hl; [|by res_inv].
  destruct (addText fs fns d) as [r' d'] eqn:Ha. res_inv.
  destruct (addText_cases _ _ _ _ Ha) as [->|(f & rest & bs & -> & Hr & ->)].
  - simpl. by rewrite Hl, Ha.
  - simpl. rewrite dl_key_set, Hl. unfold addText, readFileSyncBase64 in *. rewrite Hr in *.
    res_inv. by rewrite dl_set_text_set.
Qed.

Lemma addTexts_loop_count pkgPath k ls n ls' :
  addTexts_loop fs pkgPath k ls = (Ok n, ls') ->
  n = k + length (filter (fun l => has_text l = true) ls').
Proof.
  revert k ls'. induction ls as [|l ls IH]; intros k ls' H; simpl in H; [res_inv; simpl; lia|].
  destruct (addTextTo fs pkgPath l) as [[[]|e] l'] eqn:Hv; [|by res_inv].
  destruct (addTexts_loop fs _ _ ls) as [r rest'] eqn:Hrest. res_inv.
  apply IH in Hrest. rewrite filter_cons. destruct (has_text l'); simpl; lia.
Qed.

Lemma addTexts_loop_idem pkgPath k ls n ls' :
  addTexts_loop fs pkgPath k ls = (Ok n, ls') -> addTexts_loop fs pkgPath k ls' = (Ok n, ls').
Proof.
  revert k ls'. induction ls as [|l ls IH]; intros k ls' H; simpl in H; [by res_inv|].
  destruct (addTextTo fs pkgPath l) as [[[]|e] l'] eqn:Hv; [|by res_inv].
  destruct (addTexts_loop fs _ _ ls) as [r rest'] eqn:Hrest. res_inv.
  simpl. rewrite (addTextTo_idem _ _ _ Hv). by rewrite (IH _ _ Hrest).
Qed.

Lemma addTexts_loop_erase pkgPath k ls :
  map erase_text (addTexts_loop fs pkgPath k ls).2 = map erase_text ls.
Proof.
  revert k. induction ls as [|l ls IH]; intros k; simpl; [done|].
  destruct (addTextTo fs pkgPath l) as [[[]|e] l'] eqn:Hv.
  - destruct (addTexts_loop fs _ _ ls) eqn:Hrest. simpl.
    by rewrite (addTextTo_erase _ _ _ _ Hv), <- (IH (if has_text l' then S k else k)), Hrest.
  - simpl. by rewrite (addTextTo_erase _ _ _ _ Hv).
Qed.

Lemma addTexts_single pkgPath name t f rest bs :
  locate pkgPath name = Ok (f :: rest) -> readFileSync fs f = Ok bs ->
  addTexts fs [Disjunctive (NamedLicense name t)] pkgPath =
  (Ok 1, [Disjunctive (NamedLicense name
           (Some (mkAttachment (base64_encode bs) (Some Base64)
                    (guessContentType (extname f)))))]).
Proof.
  intros Hl Hr. unfold addTexts. simpl. rewrite Hl. simpl.
  unfold readFileSyncBase64. by rewrite Hr.
Qed.

(** C15: [addTexts] returns the number of licenses of the repository that
    are not expressions and carry a text when it returns. *)
Theorem addTexts_count licenses pkgPath n licenses' :
  addTexts fs licenses pkgPath = (Ok n, licenses') ->
  n = length (filter (fun l => has_text l = true) licenses').
Proof. intros H. apply addTexts_loop_count in H. lia. Qed.

(** C14: attaching twice is attaching once: a second [addTexts] on the
    result changes no license and returns the same count. *)
Theorem addTexts_idempotent licenses pkgPath n licenses' :
  addTexts fs licenses pkgPath = (Ok n, licenses') ->
  addTexts fs licenses' pkgPath = (Ok n, licenses').
Proof. apply addTexts_loop_idem. Qed.

(** C22: [addTexts] changes nothing but license texts: names, ids,
    expressions and the order of the repository are kept, also when it
    throws half way. *)
Theorem addTexts_only_texts licenses pkgPath :
  map erase_text (addTexts fs licenses pkgPath).2 = map erase_text licenses.
Proof. apply addTexts_loop_erase. Qed.

(** C16: for a single named license whose first candidate can be read,
    [addTexts] attaches the base64 content of that first candidate, with
    the content type of its extension, and counts one license. *)
Theorem addTexts_first_candidate pkgPath name t f rest bs :
  locate pkgPath name = Ok (f :: rest) -> readFileSync fs f = Ok bs ->
  addTexts fs [Disjunctive (NamedLicense name t)] pkgPath =
  (Ok 1, [Disjunctive (NamedLicense name
           (Some (mkAttachment (base64_encode bs) (Some Base64)
                    (guessContentType (extname f)))))]).
Proof. apply addTexts_single. Qed.

(** C17: when the first candidate's extension is not exactly one of
    [""], [.txt], [.md], [.xml] (for instance [LICENSE.MIT], or
    [LICENSE.TXT], which the case-insensitive search does find), the
    attachment gets no content type at all. *)
Theorem addTexts_untyped_extension pkgPath name t f rest bs :
  locate pkgPath name = Ok (f :: rest) -> readFileSync fs f = Ok bs ->
  extname f ∉ fileExtensions ->
  addTexts fs [Disjunctive (NamedLicense name t)] pkgPath =
  (Ok 1, [Disjunctive (NamedLicense name
           (Some (mkAttachment (base64_encode bs) (Some Base64) None)))]).
Proof.
  intros Hl Hr Hext. rewrite (addTexts_single _ _ _ _ _ _ Hl Hr).
  by rewrite guessContentType_None.
Qed.

End AddTextsFacts.

Section Evidence.
Context `{L : LicenseLocator} (fs : FileSystem) `{!LicenseLocatorLaws L fs}.

Lemma addTextTo_evidence pkgPath l r l' :
  addTextTo fs pkgPath l = (r, l') -> from_install_dir fs pkgPath l l'.
Proof.
  destruct l as [d|x]; simpl; intros H; [|res_inv; by left].
  destruct (locate pkgPath (dl_key d)) as [fns|e] eqn:Hl; [|res_inv; by left].
  destruct (addText fs fns d) as [r' d'] eqn:Ha. res_inv.
  destruct (addText_cases _ _ _ _ _ Ha) as [->|(f & rest & bs & -> & Hr & ->)]; [by left|].
  destruct (locate_in_dir _ _ _ f Hl) as (names & n & Hd & Hn & ->); [set_solver|].
  right. exists names, n, bs. simpl. by rewrite dl_text_set.
Qed.

Lemma Forall2_from_install_dir_refl pkgPath ls :
  Forall2 (from_install_dir fs pkgPath) ls ls.
Proof. induction ls; constructor; [by left | done]. Qed.

(** C11: whatever locator [this] provides, as long as it meets the
    locator laws, every license [addTexts] changes now carries the content
    of a file listed in the install directory: no evidence is taken from
    outside the package, even when the pass throws half way. *)
Theorem addTexts_evidence_in_dir licenses pkgPath :
  Forall2 (from_install_dir fs pkgPath) licenses (addTexts fs licenses pkgPath).2.
Proof.
  unfold addTexts. generalize 0. induction licenses as [|l ls IH]; intros k; simpl; [constructor|].
  destruct (addTextTo fs pkgPath l) as [[[]|e] l'] eqn:Hv.
  - destruct (addTexts_loop _ _ _ ls) eqn:Hrest. simpl. constructor.
    + by eapply addTextTo_evidence.
    + specialize (IH (if has_text l' then S k else k)). by rewrite Hrest in IH.
  - simpl. constructor; [by eapply addTextTo_evidence | apply Forall2_from_install_dir_refl].
Qed.

End Evidence.

Lemma addTexts_evidence_in_dir_witness :
  let fs := dir_fs "pkg" [("LICENCE", text_bytes "BSD")] in
  Forall2 (from_install_dir fs "pkg") [Disjunctive (SpdxLicense "BSD-3-Clause" None)]
    (addTexts (L := builder_locator fs) fs [Disjunctive (SpdxLicense "BSD-3-Clause" None)] "pkg").2.
Proof. intros fs. apply (addTexts_evidence_in_dir (L := builder_locator fs)). apply builder_locator_laws. Defined.

Lemma addTexts_loop_missing_dir fs pkgPath e pre d rest k :
  pkgPath ≠ "" -> readdirSync fs pkgPath = Err e ->
  Forall (fun l => exists x, l = LicenseExpression x) pre ->
  addTexts_loop (L := builder_locator fs) fs pkgPath k (pre ++ Disjunctive d :: rest) =
  (Err e, pre ++ Disjunctive d :: rest).
Proof.
  intros Hp Hd Hpre. revert k. induction Hpre as [|l pre [x ->] _ IH]; intros k; simpl.
  - by rewrite (searchLicenseSources_readdir_error _ _ _ _ Hp Hd).
  - by rewrite IH.
Qed.

(** C12: a missing or unreadable install directory is not treated as
    "no evidence": the first named or SPDX license makes [addTexts] throw
    the error of [fs.readdirSync], and no license gets a text. *)
Theorem addTexts_missing_dir fs pkgPath e pre d rest :
  pkgPath ≠ "" -> readdirSync fs pkgPath = Err e ->
  Forall (fun l => exists x, l = LicenseExpression x) pre ->
  addTexts (L := builder_locator fs) fs (pre ++ Disjunctive d :: rest) pkgPath =
  (Err e, pre ++ Disjunctive d :: rest).
Proof. apply addTexts_loop_missing_dir. Qed.

Lemma addTexts_missing_dir_witness :
  let fs := dir_fs "pkg" [] in
  "gone" ≠ "" ∧ readdirSync fs "gone" = Err (FsError "ENOENT" "scandir" "gone") ∧
  Forall (fun l => exists x, l = LicenseExpression x) [LicenseExpression "MIT OR ISC"] ∧
  addTexts (L := builder_locator fs) fs
    ([LicenseExpression "MIT OR ISC"] ++ Disjunctive (NamedLicense "MIT" None) :: []) "gone" =
  (Err (FsError "ENOENT" "scandir" "gone"),
   [LicenseExpression "MIT OR ISC"] ++ Disjunctive (NamedLicense "MIT" None) :: []).
Proof.
  intros fs. split; [decide_by_eval|]. split; [reflexivity|].
  split; [repeat constructor; eauto|].
  apply addTexts_missing_dir; [decide_by_eval|reflexivity|repeat constructor; eauto].
Defined.

(** C23: for a one-line license name, the short name is the part before
    the first hyphen ([Apache-2.0] gives [Apache], [GPL-3.0-only] gives
    [GPL]). *)
Theorem shortLicName_first_hyphen pre suf :
  Forall (fun c => c ≠ "-"%char) (String.list_ascii_of_string pre) ->
  Forall (fun c => is_line_terminator c = false) (String.list_ascii_of_string suf) ->
  shortLicName (pre +:+ String "-" suf) = pre.
Proof.
  intros Hpre Hsuf. rewrite shortLicName_app_hyphen by done.
  by rewrite drop_to_line_end_single_line, string_app_nil_r.
Qed.

Lemma shortLicName_first_hyphen_witness :
  Forall (fun c => c ≠ "-"%char) (String.list_ascii_of_string "GPL") ∧
  Forall (fun c => is_line_terminator c = false) (String.list_ascii_of_string "3.0-only") ∧
  shortLicName ("GPL" +:+ String "-" "3.0-only") = "GPL".
Proof.
  split; [decide_by_eval|]. split; [repeat constructor|].
  apply shortLicName_first_hyphen; [decide_by_eval|repeat constructor].
Defined.

(** C24: [.] in [/-.*/] stops at a line terminator, so a license name
    with a line break keeps what follows the break: the short name of
    ["GPL-3.0" LF "only"] is ["GPL" LF "only"], not ["GPL"]. *)
Theorem shortLicName_line_break pre mid post :
  Forall (fun c => c ≠ "-"%char) (String.list_ascii_of_string pre) ->
  Forall (fun c => is_line_terminator c = false) (String.list_ascii_of_string mid) ->
  shortLicName (pre +:+ String "-" (mid +:+ String "010" post)) = pre +:+ String "010" post.
Proof.
  intros Hpre Hmid. rewrite shortLicName_app_hyphen by done. f_equal.
  induction mid as [|c mid IH]; rewrite ?string_app_empty, ?string_app_cons; simpl.
  - done.
  - inversion_clear Hmid as [|? ? Hc Hs]. rewrite Hc. by apply IH.
Qed.

Lemma shortLicName_line_break_witness :
  Forall (fun c => c ≠ "-"%char) (String.list_ascii_of_string "GPL") ∧
  Forall (fun c => is_line_terminator c = false) (String.list_ascii_of_string "3.0") ∧
  shortLicName ("GPL" +:+ String "-" ("3.0" +:+ String "010" "only")) =
    "GPL" +:+ String "010" "only".
Proof.
  split; [decide_by_eval|]. split; [repeat constructor|].
  apply shortLicName_line_break; [decide_by_eval|repeat constructor].
Defined.

Lemma addTexts_count_witness :
  let fs := dir_fs "pkg" [("LICENSE", text_bytes "MIT License")] in
  addTexts (L := builder_locator fs) fs
    [Disjunctive (NamedLicense "MIT" None); LicenseExpression "MIT OR ISC"] "pkg" =
    (Ok 1, [Disjunctive (NamedLicense "MIT" (Some (mkAttachment "TUlUIExpY2Vuc2U="
              (Some Base64) (Some "text/plain")))); LicenseExpression "MIT OR ISC"]) ∧
  1 = length (filter (fun l => has_text l = true)
        [Disjunctive (NamedLicense "MIT" (Some (mkAttachment "TUlUIExpY2Vuc2U="
              (Some Base64) (Some "text/plain")))); LicenseExpression "MIT OR ISC"]).
Proof.
  intros fs. split; [reflexivity|].
  apply (addTexts_count (L := builder_locator fs) fs
           [Disjunctive (NamedLicense "MIT" None); LicenseExpression "MIT OR ISC"] "pkg").
  reflexivity.
Defined.

Lemma addTexts_idempotent_witness :
  let fs := dir_fs "pkg" [("LICENSE", text_bytes "MIT License")] in
  let once := [Disjunctive (NamedLicense "MIT" (Some (mkAttachment "TUlUIExpY2Vuc2U="
                 (Some Base64) (Some "text/plain"))))] in
  addTexts (L := builder_locator fs) fs [Disjunctive (NamedLicense "MIT" None)] "pkg" =
    (Ok 1, once) ∧
  addTexts (L := builder_locator fs) fs once "pkg" = (Ok 1, once).
Proof.
  intros fs once. split; [reflexivity|].
  apply (addTexts_idempotent (L := builder_locator fs) fs
           [Disjunctive (NamedLicense "MIT" None)]).
  reflexivity.
Defined.

Lemma addTexts_first_candidate_witness :
  let fs := dir_fs "pkg" [("COPYING.md", []); ("License.md", text_bytes "ISC"); ("NOTICE", [])] in
  locate (LicenseLocator := builder_locator fs) "pkg" "ISC" =
    Ok ["pkg/License.md"; "pkg/NOTICE"] ∧
  readFileSync fs "pkg/License.md" = Ok (text_bytes "ISC") ∧
  addTexts (L := builder_locator fs) fs [Disjunctive (NamedLicense "ISC" None)] "pkg" =
  (Ok 1, [Disjunctive (NamedLicense "ISC"
           (Some (mkAttachment (base64_encode (text_bytes "ISC")) (Some Base64)
                    (guessContentType (extname "pkg/License.md")))))]).
Proof.
  intros fs. split; [reflexivity|]. split; [reflexivity|].
  eapply addTexts_first_candidate; reflexivity.
Defined.

Lemma addTexts_untyped_extension_witness :
  let fs := dir_fs "pkg" [("LICENSE.TXT", text_bytes "MIT")] in
  locate (LicenseLocator := builder_locator fs) "pkg" "MIT" = Ok ["pkg/LICENSE.TXT"] ∧
  readFileSync fs "pkg/LICENSE.TXT" = Ok (text_bytes "MIT") ∧
  (extname "pkg/LICENSE.TXT" ∉ fileExtensions) ∧
  addTexts (L := builder_locator fs) fs [Disjunctive (NamedLicense "MIT" None)] "pkg" =
  (Ok 1, [Disjunctive (NamedLicense "MIT"
           (Some (mkAttachment (base64_encode (text_bytes "MIT")) (Some Base64) None)))]).
Proof.
  intros fs. split; [reflexivity|]. split; [reflexivity|]. split; [decide_by_eval|].
  eapply addTexts_untyped_extension; [reflexivity|reflexivity|decide_by_eval].
Defined.

End LicenseBuilder.
