(* ===== verification/LicenseTexts.v ===== *)
(** * The license-text pass of [src/src/licensetexts.ts]

    The implementation the generator runs ([addLicenseTextsToBom]).
    - [getComponentInstallPath]: the value of the first property named
      [cdx:npm:package:path], or [""].
    - [searchLicenseSources]: no directory listing; every candidate path
      (nine spellings, three variants with the license name, four
      extensions) is probed with [fs.existsSync] and kept only if
      [fs.realpathSync.native] of it ends with the path itself, so that a
      case-insensitive volume does not report a spelling that is not the
      stored one.  The result is a JavaScript [Map] from path to content
      type: insertion ordered, and [set] on a present key replaces the
      value in place.
    - [addLicTextBasedOnLicenseFiles]: searches with an empty license name
      and assigns [license.text] once per entry of the map, so the last
      entry wins.
    - [addLicenseTextToComponent]: only for a component with exactly one
      license, which must be named or SPDX.
    - [addLicenseTextsToComponents], [addLicenseTextsToBom]: the walk over
      the tree, pre-order, and the final [console.log(packageFile)].

    The tree is owned by the pass: each call takes the component it
    mutates and returns it, together with the exception, if any, that
    stopped the walk. *)

From S2P Require Import Prelude Model Base64 Node Fixtures.
From Stdlib Require Import Init.Byte.

Module LicenseTexts.

(** [getComponentInstallPath(component)] *)
Fixpoint find_install_path (props : list Property) : string :=
  match props with
  | [] => ""
  | property :: rest =>
      if bool_decide (property_name property = PackageInstallPath)
      then property_value property else find_install_path rest
  end.

Definition getComponentInstallPath (component : Component) : string :=
  find_install_path (properties component).

Definition typicalFilenames : list string :=
  ["LICENSE"; "License"; "license"; "LICENCE"; "Licence"; "licence";
   "NOTICE"; "Notice"; "notice"].

(** [{ 'text/plain': '', 'text/txt': '.txt', 'text/markdown': '.md',
    'text/xml': '.xml' }]: content type to extension, in property order. *)
Definition licenseContentTypes : list (string * string) :=
  [("text/plain", ""); ("text/txt", ".txt"); ("text/markdown", ".md");
   ("text/xml", ".xml")].

Definition filenameVariants (typicalFilename licenseName : string) : list string :=
  [typicalFilename; typicalFilename +:+ "." +:+ licenseName;
   typicalFilename +:+ "-" +:+ licenseName].

(** [Map.prototype.set]: replace the value of a present key where it
    stands, or append a new entry. *)
Fixpoint map_set (k v : string) (m : list (string * string)) : list (string * string) :=
  match m with
  | [] => [(k, v)]
  | (k', v') :: m' =>
      if bool_decide (k = k') then (k, v) :: m' else (k', v') :: map_set k v m'
  end.

(** [fs.existsSync(filename) && fs.realpathSync.native(filename).endsWith(filename)] *)
Definition isExactFile (fs : FileSystem) (filename : string) : bool :=
  existsSync fs filename &&
  match realpathSync fs filename with
  | Some real => endsWith real filename
  | None => false
  end.

(** Every probed path with its content type, in the order of the three
    nested loops. *)
Definition legacyCandidates (pkgPath licenseName : string) : list (string * string) :=
  flat_map (fun typicalFilename =>
    flat_map (fun filenameVariant =>
      map (fun '(licenseContentType, fileExtension) =>
             (path_join pkgPath (filenameVariant +:+ fileExtension), licenseContentType))
        licenseContentTypes)
      (filenameVariants typicalFilename licenseName))
    typicalFilenames.

Section WithFs.
Variable fs : FileSystem.

(** The body of the innermost loop: probe one path, record its type. *)
Definition probe (pkgPath filenameVariant : string) (m : list (string * string))
  (entry : string * string) : list (string * string) :=
  let (licenseContentType, fileExtension) := entry in
  let filename := path_join pkgPath (filenameVariant +:+ fileExtension) in
  if isExactFile fs filename then map_set filename licenseContentType m else m.

(** The same probe on an entry of [legacyCandidates]. *)
Definition probe_flat (m : list (string * string)) (cand : string * string)
  : list (string * string) :=
  if isExactFile fs cand.1 then map_set cand.1 cand.2 m else m.

(** [searchLicenseSources(pkgPath, licenseName)] *)
Definition searchLicenseSources (pkgPath licenseName : string) : list (string * string) :=
  if bool_decide (String.length pkgPath < 1) then [] else
  fold_left (fun m typicalFilename =>
    fold_left (fun m filenameVariant =>
      fold_left (probe pkgPath filenameVariant) licenseContentTypes m)
      (filenameVariants typicalFilename licenseName) m)
    typicalFilenames [].

(** The loop of [addLicTextBasedOnLicenseFiles]: read every entry (a read
    may throw) and assign the text each time. *)
Fixpoint assignTexts (entries : list (string * string)) : st DisjunctiveLicense unit :=
  fun license =>
    match entries with
    | [] => (Ok tt, license)
    | (licenseFilename, licenseContentType) :: rest =>
        match readFileSyncBase64 fs licenseFilename with
        | Err e => (Err e, license)
        | Ok licContent =>
            assignTexts rest
              (dl_set_text (Some (mkAttachment licContent (Some Base64)
                                    (Some licenseContentType))) license)
        end
    end.

(** [addLicTextBasedOnLicenseFiles(license, installPath)] *)
Definition addLicTextBasedOnLicenseFiles (installPath : string) : st DisjunctiveLicense unit :=
  assignTexts (searchLicenseSources installPath "").

(** [addLicenseTextToComponent(component)] *)
Definition addLicenseTextToComponent : st Component unit :=
  fun component =>
    if bool_decide (length (licenses component) = 1) then
      match licenses component with
      | Disjunctive license :: _ =>
          let (r, license') :=
            addLicTextBasedOnLicenseFiles (getComponentInstallPath component) license in
          (r, set_licenses [Disjunctive license'] component)
      | _ => (Ok tt, component)
      end
    else (Ok tt, component).

(** One iteration of the loop of [addLicenseTextsToComponents]: the
    component itself, then its sub-components.  The sub-components are
    read from the component before the first call, which leaves them
    unchanged ([addLicenseTextToComponent_components]). *)
Fixpoint addLicenseTextsToComponent (component : Component) : res unit * Component :=
  match addLicenseTextToComponent component with
  | (Err e, component') => (Err e, component')
  | (Ok _, component') =>
      let (r, subs) := for_each addLicenseTextsToComponent (components component) in
      (r, set_components subs component')
  end.

(** [addLicenseTextsToComponents(components)] *)
Definition addLicenseTextsToComponents : st (list Component) unit :=
  for_each addLicenseTextsToComponent.

(** [addLicenseTextsToBom(bom, packageFile)] *)
Definition addLicenseTextsToBom (packageFile : string) : st World unit :=
  fun w =>
    match addLicenseTextsToComponents (bom_components (bom w)) with
    | (Err e, cs) => (Err e, set_bom (mkBom cs) w)
    | (Ok _, cs) => log packageFile (set_bom (mkBom cs) w)
    end.

End WithFs.

(** ** The map of found files *)

Lemma map_set_keys k v m :
  map fst (map_set k v m) = if bool_decide (k ∈ map fst m) then map fst m else map fst m ++ [k].
Proof.
  induction m as [|[k' v'] m IH]; simpl; [done|].
  destruct (decide (k = k')) as [<-|Hne].
  - rewrite (bool_decide_true (k = k)) by done.
    rewrite (bool_decide_true (k ∈ k :: _)) by (apply elem_of_cons; by left). done.
  - rewrite (bool_decide_false (k = k')) by done. simpl. rewrite IH.
    destruct (decide (k ∈ map fst m)) as [Hin|Hin].
    + rewrite (bool_decide_true (k ∈ map fst m)) by done.
      rewrite (bool_decide_true (k ∈ k' :: _)) by (apply elem_of_cons; by right). done.
    + rewrite (bool_decide_false (k ∈ map fst m)) by done.
      rewrite (bool_decide_false (k ∈ k' :: _)) by (by intros [->|?]%elem_of_cons). done.
Qed.

Lemma elem_of_map_set_keys k v m x :
  x ∈ map fst (map_set k v m) <-> x = k ∨ x ∈ map fst m.
Proof.
  rewrite map_set_keys. case_bool_decide as Hk.
  - split; [by right|]. by intros [->|?].
  - rewrite elem_of_app, list_elem_of_singleton. tauto.
Qed.

Lemma map_set_NoDup k v m :
  NoDup (map fst m) -> NoDup (map fst (map_set k v m)).
Proof.
  intros H. rewrite map_set_keys. case_bool_decide; [done|].
  apply NoDup_app. split; [done|]. split; [|by apply NoDup_singleton].
  by intros x Hx ->%list_elem_of_singleton.
Qed.

Section Facts.
Variable fs : FileSystem.

Lemma legacy_search_flat pkgPath licenseName :
  pkgPath ≠ "" ->
  searchLicenseSources fs pkgPath licenseName =
  fold_left (probe_flat fs) (legacyCandidates pkgPath licenseName) [].
Proof.
  intros Hp. unfold searchLicenseSources, legacyCandidates.
  rewrite bool_decide_false by (destruct pkgPath; simpl; [done|lia]).
  rewrite fold_left_flat_map. apply fold_left_ext. intros m typ.
  rewrite fold_left_flat_map. apply fold_left_ext. intros m' v.
  rewrite fold_left_map_l. apply fold_left_ext. by intros m'' [ct ext].
Qed.

Lemma fold_probe_keys cands m x :
  x ∈ map fst (fold_left (probe_flat fs) cands m) <->
  x ∈ map fst m ∨ exists ct, (x, ct) ∈ cands ∧ isExactFile fs x = true.
Proof.
  revert m. induction cands as [|[f ct] cands IH]; intros m; simpl.
  - split; [by left|]. intros [H|(ct & H & _)]; [done | by apply elem_of_nil in H].
  - rewrite IH. unfold probe_flat. simpl. setoid_rewrite elem_of_cons.
    destruct (isExactFile fs f) eqn:He.
    + rewrite elem_of_map_set_keys. split.
      * intros [[->|Hx]|(ct' & Hin & Hx)]; [right; eauto | by left | right; eauto].
      * intros [Hx|(ct' & [Heq|Hin] & Hx)]; [left; by right | | right; eauto].
        injection Heq as -> ->. left; by left.
    + split.
      * intros [Hx|(ct' & Hin & Hx)]; [by left | right; eauto].
      * intros [Hx|(ct' & [Heq|Hin] & Hx)]; [by left | | right; eauto].
        injection Heq as -> ->. congruence.
Qed.

Lemma fold_probe_NoDup cands m :
  NoDup (map fst m) -> NoDup (map fst (fold_left (probe_flat fs) cands m)).
Proof.
  revert m. induction cands as [|c cands IH]; intros m H; simpl; [done|].
  apply IH. unfold probe_flat. destruct (isExactFile fs _); [by apply map_set_NoDup | done].
Qed.

Lemma isExactFile_spec f :
  isExactFile fs f = true <->
  existsSync fs f = true ∧ exists real, realpathSync fs f = Some real ∧ endsWith real f = true.
Proof.
  unfold isExactFile. rewrite andb_true_iff.
  destruct (realpathSync fs f) as [real|]; [|split; [by intros [_ ?]|by intros (_ & ? & ? & _)]].
  split; [intros [? ?]; eauto|]. intros (? & ? & [= <-] & ?). by split.
Qed.

(** The probed paths, as the three loops build them. *)
Lemma elem_of_legacyCandidates p n f ct :
  (f, ct) ∈ legacyCandidates p n <->
  exists t v ext, t ∈ typicalFilenames ∧ v ∈ filenameVariants t n ∧
    (ct, ext) ∈ licenseContentTypes ∧ f = path_join p (v +:+ ext).
Proof.
  unfold legacyCandidates. rewrite elem_of_flat_map. setoid_rewrite elem_of_flat_map.
  setoid_rewrite elem_of_map_iff. split.
  - intros (t & Ht & v & Hv & [ct' ext] & [= -> ->] & Hc). eauto 10.
  - intros (t & v & ext & Ht & Hv & Hc & ->). exists t. split; [done|]. exists v.
    split; [done|]. by exists (ct, ext).
Qed.

Lemma map_set_Forall (P : string * string -> Prop) k v m :
  Forall P m -> P (k, v) -> Forall P (map_set k v m).
Proof.
  intros Hm Hkv. induction Hm as [|[k' v'] m Hk' Hm IH]; cbn [map_set]; [by constructor|].
  case_bool_decide; by constructor.
Qed.

Lemma fold_probe_Forall (P : string * string -> Prop) cands m :
  Forall P cands -> Forall P m -> Forall P (fold_left (probe_flat fs) cands m).
Proof.
  intros Hc. revert m. induction Hc as [|c cs Hc _ IH]; intros m Hm; [done|].
  cbn [fold_left]. apply IH. unfold probe_flat. destruct (isExactFile fs c.1); [|done].
  apply map_set_Forall; [done|by destruct c].
Qed.

(** C7: the old search reports each probed path at most once.  It
    reports exactly the paths [pkgPath/<base><variant><extension>] of its
    nine base names, three variants and four extensions for which
    [fs.existsSync] holds and [fs.realpathSync.native] returns a path
    ending in the probed spelling, and nothing when the install path is
    empty.  Each path comes with the content type of the extension that
    built it. *)
Theorem searchLicenseSources_exact pkgPath licenseName :
  NoDup (map fst (searchLicenseSources fs pkgPath licenseName)) ∧
  (forall f, f ∈ map fst (searchLicenseSources fs pkgPath licenseName) <->
    pkgPath ≠ "" ∧ existsSync fs f = true ∧
    (exists real, realpathSync fs f = Some real ∧ endsWith real f = true) ∧
    exists t v ct ext, t ∈ typicalFilenames ∧ v ∈ filenameVariants t licenseName ∧
      (ct, ext) ∈ licenseContentTypes ∧ f = path_join pkgPath (v +:+ ext)) ∧
  (forall f ct, (f, ct) ∈ searchLicenseSources fs pkgPath licenseName ->
    exists t v ext, t ∈ typicalFilenames ∧ v ∈ filenameVariants t licenseName ∧
      (ct, ext) ∈ licenseContentTypes ∧ f = path_join pkgPath (v +:+ ext)).
Proof.
  destruct (decide (pkgPath = "")) as [->|Hp].
  { split_and!; [constructor| |]; cbn; [intros f; split; [by intros ?%elem_of_nil|tauto]|].
    by intros f ct ?%elem_of_nil. }
  rewrite legacy_search_flat by done. split_and!.
  - apply fold_probe_NoDup. constructor.
  - intros f. rewrite fold_probe_keys. setoid_rewrite isExactFile_spec.
    setoid_rewrite elem_of_legacyCandidates.
    cbn. split.
    + intros [H|(ct & (t & v & ext & H) & [Hx1 Hx2])]; [by apply elem_of_nil in H|].
      split_and!; [done..|]. by exists t, v, ct, ext.
    + intros (_ & Hx1 & Hx2 & t & v & ct & ext & H). right. exists ct.
      split; [by exists t, v, ext|by split].
  - intros f ct Hin.
    assert (Hall : Forall (fun e => exists t v ext, t ∈ typicalFilenames ∧
              v ∈ filenameVariants t licenseName ∧ (e.2, ext) ∈ licenseContentTypes ∧
              e.1 = path_join pkgPath (v +:+ ext)) (fold_left (probe_flat fs)
              (legacyCandidates pkgPath licenseName) [])).
    { apply fold_probe_Forall; [|constructor]. apply Forall_forall. intros [f' ct'].
      by rewrite elem_of_legacyCandidates. }
    rewrite Forall_forall in Hall. exact (Hall _ Hin).
Qed.

Lemma assignTexts_last entries f ct bs d :
  Forall (fun e => exists bs', readFileSync fs e.1 = Ok bs') entries ->
  readFileSync fs f = Ok bs ->
  assignTexts fs (entries ++ [(f, ct)]) d =
  (Ok tt, dl_set_text (Some (mkAttachment (base64_encode bs) (Some Base64) (Some ct))) d).
Proof.
  intros Hall Hf. revert d. induction Hall as [|[f' ct'] entries [bs' Hr] _ IH]; intros d; simpl.
  - unfold readFileSyncBase64. by rewrite Hf.
  - unfold readFileSyncBase64 at 1. simpl in Hr. rewrite Hr. rewrite IH.
    by rewrite dl_set_text_set.
Qed.

Lemma assignTexts_single f ct bs d :
  readFileSync fs f = Ok bs ->
  assignTexts fs [(f, ct)] d =
  (Ok tt, dl_set_text (Some (mkAttachment (base64_encode bs) (Some Base64) (Some ct))) d).
Proof. intros Hf. cbn [assignTexts]. unfold readFileSyncBase64. by rewrite Hf. Qed.

(** C6: the text attached is that of the LAST file the search found,
    with that file's content type: every earlier file is read and its
    text overwritten. *)
Theorem addLicTextBasedOnLicenseFiles_last installPath entries f ct bs d :
  searchLicenseSources fs installPath "" = entries ++ [(f, ct)] ->
  Forall (fun e => exists bs', readFileSync fs e.1 = Ok bs') entries ->
  readFileSync fs f = Ok bs ->
  addLicTextBasedOnLicenseFiles fs installPath d =
  (Ok tt, dl_set_text (Some (mkAttachment (base64_encode bs) (Some Base64) (Some ct))) d).
Proof.
  intros Hs Hall Hf. unfold addLicTextBasedOnLicenseFiles. rewrite Hs.
  by apply assignTexts_last.
Qed.

Lemma assignTexts_erase entries d :
  erase_text (Disjunctive (assignTexts fs entries d).2) = erase_text (Disjunctive d).
Proof.
  revert d. induction entries as [|[f ct] entries IH]; intros d; cbn [assignTexts]; [done|].
  case_match; [|done]. cbn [snd]. rewrite ?IH. by autorewrite with sbom_rw.
Qed.

Lemma addLicenseTextToComponent_head c :
  skeleton_head (addLicenseTextToComponent fs c).2 = skeleton_head c ∧
  components (addLicenseTextToComponent fs c).2 = components c.
Proof.
  unfold addLicenseTextToComponent. case_bool_decide as Hl; [|done].
  destruct (licenses c) as [|[d|x] rest] eqn:E; try done.
  destruct rest; [|simpl in Hl; lia].
  unfold addLicTextBasedOnLicenseFiles.
  destruct (assignTexts fs _ d) as [r d'] eqn:Ha. simpl. split; [|done].
  pose proof (assignTexts_erase (searchLicenseSources fs (getComponentInstallPath c) "") d) as He.
  rewrite Ha in He. cbn [snd] in He.
  unfold skeleton_head, set_licenses. cbn [cid name version properties licenses].
  rewrite E. cbn [map]. by rewrite He.
Qed.

Lemma for_each_skeleton (f : Component -> res unit * Component) l :
  Forall (fun x => skeleton (f x).2 = skeleton x) l ->
  map skeleton (for_each f l).2 = map skeleton l.
Proof.
  intros Hall. pose proof (for_each_Forall2 f l) as H2.
  induction H2 as [|x y l l' Hxy _ IH]; simpl; [done|].
  inversion_clear Hall as [|? ? Hx Hl]. rewrite IH by done. f_equal.
  destruct Hxy as [->| ->]; congruence.
Qed.

Lemma addLicenseTextsToComponent_skeleton c :
  skeleton (addLicenseTextsToComponent fs c).2 = skeleton c.
Proof.
  induction c as [i n v ps ls cs IH] using Component_tree_ind.
  cbn [addLicenseTextsToComponent components].
  destruct (addLicenseTextToComponent_head (mkComponent i n v ps ls cs)) as [Hh Hc].
  destruct (addLicenseTextToComponent fs _) as [[[]|e] c'] eqn:Ha; cbn [fst snd] in *.
  - destruct (for_each _ cs) as [r subs] eqn:Hf. cbn [snd].
    apply skeleton_eq.
    + rewrite <- Hh. by destruct c'.
    + cbn [components set_components].
      rewrite <- (for_each_skeleton (addLicenseTextsToComponent fs) cs IH), Hf. done.
  - apply skeleton_eq; [done|]. by rewrite Hc.
Qed.

(** C8: the pass never adds, drops, reorders or renames components and
    never changes what they declare: only license texts change, also when
    a read throws half way through the tree. *)
Theorem addLicenseTextsToComponents_skeleton components :
  map skeleton (addLicenseTextsToComponents fs components).2 = map skeleton components.
Proof.
  apply for_each_skeleton, Forall_forall. intros c _. apply addLicenseTextsToComponent_skeleton.
Qed.

(** C9: a component gets a text only when it has exactly one license and
    that license is named or SPDX: with two named licenses, or one
    expression, it is left as it is. *)
Theorem addLicenseTextToComponent_single_only c :
  (forall d, licenses c ≠ [Disjunctive d]) -> addLicenseTextToComponent fs c = (Ok tt, c).
Proof.
  intros Hsingle. unfold addLicenseTextToComponent. case_bool_decide as Hl; [|done].
  destruct (licenses c) as [|[d|x] rest] eqn:E; try done.
  destruct rest; [by destruct (Hsingle d) | simpl in Hl; lia].
Qed.

Lemma addLicenseTextToComponent_one c d :
  licenses c = [Disjunctive d] ->
  addLicenseTextToComponent fs c =
  let (r, d') := addLicTextBasedOnLicenseFiles fs (getComponentInstallPath c) d in
  (r, set_licenses [Disjunctive d'] c).
Proof. intros E. unfold addLicenseTextToComponent. by rewrite E. Qed.

Lemma addLicenseTextToComponent_none c :
  licenses c = [] -> addLicenseTextToComponent fs c = (Ok tt, c).
Proof. intros E. unfold addLicenseTextToComponent. by rewrite E. Qed.

Lemma addLicenseTextsToComponent_leaf c :
  components c = [] ->
  addLicenseTextsToComponent fs c =
  match addLicenseTextToComponent fs c with
  | (Err e, c') => (Err e, c')
  | (Ok _, c') => (Ok tt, set_components [] c')
  end.
Proof. intros E. destruct c; simpl in E; subst. reflexivity. Qed.

End Facts.

Lemma addLicenseTextToComponent_single_only_witness :
  let c := mkComponent 7 "dual" None [mkProperty PackageInstallPath "pkg"]
             [Disjunctive (SpdxLicense "MIT" None); Disjunctive (SpdxLicense "Apache-2.0" None)] [] in
  (forall d, licenses c ≠ [Disjunctive d]) ∧
  addLicenseTextToComponent (dir_fs "pkg" [("LICENSE", text_bytes "MIT")]) c = (Ok tt, c).
Proof.
  intros c. split; [intros d; discriminate|].
  apply addLicenseTextToComponent_single_only. intros d; discriminate.
Defined.

Lemma addLicTextBasedOnLicenseFiles_last_witness :
  let fs := dir_fs "pkg" [("LICENSE", text_bytes "MIT"); ("license.md", text_bytes "# MIT")] in
  searchLicenseSources fs "pkg" "" =
    [("pkg/LICENSE", "text/plain")] ++ [("pkg/license.md", "text/markdown")] ∧
  Forall (fun e => exists bs', readFileSync fs e.1 = Ok bs') [("pkg/LICENSE", "text/plain")] ∧
  readFileSync fs "pkg/license.md" = Ok (text_bytes "# MIT") ∧
  addLicTextBasedOnLicenseFiles fs "pkg" (NamedLicense "MIT" None) =
  (Ok tt, dl_set_text (Some (mkAttachment (base64_encode (text_bytes "# MIT")) (Some Base64)
                               (Some "text/markdown"))) (NamedLicense "MIT" None)).
Proof.
  intros fs. split; [reflexivity|]. split; [repeat constructor; eexists; reflexivity|].
  split; [reflexivity|].
  apply (addLicTextBasedOnLicenseFiles_last fs "pkg" [("pkg/LICENSE", "text/plain")]
           "pkg/license.md" "text/markdown");
    [reflexivity|repeat constructor; eexists; reflexivity|reflexivity].
Defined.

End LicenseTexts.
