(* ===== verification/LicenseGaps.v ===== *)
(** * The license-gap audit of [src/src/licensetexts.ts]

    - [hasLicenseInformation]: a named or SPDX license is complete when it
      has a text with non-empty content and a non-empty name or id; a
      license expression is never complete.  (The source's fourth branch,
      which throws for an unknown license class, cannot be reached in the
      closed sum [License].)
    - [hasComponentLicenseIncluded]: at least one license, all complete.
    - [checkLicenseGapsInComponents]: collects the incomplete components
      of the whole tree, pre-order, into a [ComponentRepository], a set of
      component objects ([repo_add] adds a component whose identity [cid]
      is not there yet).
    - [checkLicenseGaps]: prints the gaps and throws.

    [gapsSpec] is the abstract audit, the incomplete components of the
    tree in pre-order; [checkLicenseGapsInComponents_refines] shows the
    implementation computes it when component identities are distinct. *)

From S2P Require Import Prelude Model Base64 Node Fixtures LicenseTexts.
From Stdlib Require Import Init.Byte.

Module LicenseGaps.

(** [hasLicenseInformation(license)] *)
Definition hasLicenseInformation (license : License) : bool :=
  match license with
  | Disjunctive (NamedLicense name text) =>
      match text with
      | Some t => bool_decide (0 < String.length (content t)) &&
                  bool_decide (0 < String.length name)
      | None => false
      end
  | Disjunctive (SpdxLicense id text) =>
      match text with
      | Some t => bool_decide (0 < String.length (content t)) &&
                  bool_decide (0 < String.length id)
      | None => false
      end
  | LicenseExpression _ => false
  end.

(** [hasComponentLicenseIncluded(component)] *)
Definition hasComponentLicenseIncluded (component : Component) : bool :=
  if bool_decide (length (licenses component) < 1) then false
  else forallb hasLicenseInformation (licenses component).

(** [ComponentRepository.prototype.add]: a set of component objects in
    insertion order. *)
Definition repo_add (component : Component) (repo : list Component) : list Component :=
  if bool_decide (cid component ∈ cid <$> repo) then repo else repo ++ [component].

(** One iteration of the loop of [checkLicenseGapsInComponents]: add the
    component if it is incomplete, then add every gap of its
    sub-components (the recursive call, which starts a fresh repository). *)
Fixpoint checkLicenseGapsStep (component : Component) (withoutLicense : list Component)
  : list Component :=
  let withoutLicense :=
    if negb (hasComponentLicenseIncluded component)
    then repo_add component withoutLicense else withoutLicense in
  fold_left (fun repo componentWOLic => repo_add componentWOLic repo)
    (fold_left (fun acc c => checkLicenseGapsStep c acc) (components component) [])
    withoutLicense.

(** [checkLicenseGapsInComponents(components)] *)
Definition checkLicenseGapsInComponents (components : list Component) : list Component :=
  fold_left (fun acc c => checkLicenseGapsStep c acc) components [].

(** [' - ' + name + (version ? '@' + version : '')] *)
Definition gapLine (component : Component) : string :=
  " - " +:+ name component +:+
  match version component with
  | Some v => if truthy (Some v) then "@" +:+ v else ""
  | None => ""
  end.

Definition gapHeader (n : nat) : string :=
  "Components without license informations (" +:+ pretty n +:+ ")".

Definition gapError : js_error := JsError "Found components without license information".

(** [for (const c of componentsWOLics) console.log(...)] *)
Fixpoint logGaps (componentsWOLics : list Component) : st World unit :=
  match componentsWOLics with
  | [] => st_ret tt
  | c :: rest => log (gapLine c) ;; logGaps rest
  end.

(** [checkLicenseGaps(bom)] *)
Definition checkLicenseGaps : st World unit :=
  fun w =>
    let componentsWOLics := checkLicenseGapsInComponents (bom_components (bom w)) in
    if bool_decide (0 < length componentsWOLics) then
      (log (gapHeader (length componentsWOLics)) ;;
       logGaps componentsWOLics ;;
       st_throw gapError) w
    else (Ok tt, w).

(** The abstract audit: every incomplete component of the tree, in
    pre-order. *)
Definition gapsSpec (components : list Component) : list Component :=
  filter (fun c => hasComponentLicenseIncluded c = false) (preorder_list components).

(** A whole generation run as far as licenses go: attach the texts, then
    audit. *)
Definition licenseRun (fs : FileSystem) (packageFile : string) : st World unit :=
  LicenseTexts.addLicenseTextsToBom fs packageFile ;; checkLicenseGaps.

(** ** The repository *)

Lemma repo_add_fresh c repo :
  cid c ∉ cid <$> repo -> repo_add c repo = repo ++ [c].
Proof. intros H. unfold repo_add. by rewrite bool_decide_false. Qed.

Lemma repo_add_NoDup c repo :
  NoDup (cid <$> repo) -> NoDup (cid <$> repo_add c repo).
Proof.
  intros H. unfold repo_add. case_bool_decide; [done|].
  rewrite fmap_app, NoDup_app. simpl. split; [done|]. split; [|by apply NoDup_singleton].
  intros x Hx ->%list_elem_of_singleton. done.
Qed.

Lemma fold_repo_add_NoDup l repo :
  NoDup (cid <$> repo) -> NoDup (cid <$> fold_left (fun r c => repo_add c r) l repo).
Proof.
  revert repo. induction l as [|c l IH]; intros repo H; simpl; [done|].
  apply IH. by apply repo_add_NoDup.
Qed.

(** Adding components with fresh, distinct identities appends them. *)
Lemma fold_repo_add_fresh l repo :
  NoDup (cid <$> repo ++ l) -> fold_left (fun r c => repo_add c r) l repo = repo ++ l.
Proof.
  revert repo. induction l as [|c l IH]; intros repo H; simpl; [by rewrite app_nil_r|].
  rewrite repo_add_fresh.
  - rewrite IH; [by rewrite <- app_assoc|]. by rewrite <- app_assoc.
  - rewrite fmap_app, NoDup_app in H. destruct H as (_ & Hdisj & _).
    intros Hc. apply (Hdisj _ Hc). simpl. apply elem_of_cons. by left.
Qed.

(** ** Refinement of the abstract audit *)

Lemma step_sublist (P : Component -> Prop) `{!forall x, Decision (P x)} acc c l (b : bool) :
  (if b then acc ++ [c] else acc) ++ filter P l `sublist_of` acc ++ c :: l.
Proof.
  destruct b.
  - rewrite <- app_assoc. apply sublist_app; [done|]. simpl.
    apply sublist_skip, sublist_filter.
  - apply sublist_app; [done|]. apply sublist_cons, sublist_filter.
Qed.

Lemma NoDup_ids_sublist l k :
  l `sublist_of` k -> NoDup (cid <$> k) -> NoDup (cid <$> l).
Proof. intros Hs Hk. eapply sublist_NoDup; [exact Hk|]. by apply fmap_sublist. Qed.

Lemma preorder_mk i n v ps ls cs :
  preorder (mkComponent i n v ps ls cs) = mkComponent i n v ps ls cs :: preorder_list cs.
Proof. reflexivity. Qed.

Lemma gapsSpec_cons c cs :
  gapsSpec (c :: cs) = filter (fun c => hasComponentLicenseIncluded c = false) (preorder c) ++ gapsSpec cs.
Proof. unfold gapsSpec. by rewrite preorder_list_cons, filter_app. Qed.

Lemma steps_spec cs :
  Forall (fun c => forall acc, NoDup (cid <$> acc ++ preorder c) ->
            checkLicenseGapsStep c acc =
            acc ++ filter (fun c => hasComponentLicenseIncluded c = false) (preorder c)) cs ->
  forall acc, NoDup (cid <$> acc ++ preorder_list cs) ->
  fold_left (fun acc c => checkLicenseGapsStep c acc) cs acc = acc ++ gapsSpec cs.
Proof.
  induction 1 as [|c cs Hc _ IH]; intros acc Hnd; simpl; [by rewrite app_nil_r|].
  rewrite preorder_list_cons in Hnd.
  rewrite Hc; cycle 1.
  { eapply NoDup_ids_sublist; [|exact Hnd]. rewrite app_assoc. by apply sublist_inserts_r. }
  rewrite IH, gapsSpec_cons, app_assoc; [done|].
  eapply NoDup_ids_sublist; [|exact Hnd]. rewrite <- app_assoc.
  apply sublist_app; [done|]. apply sublist_app; [apply sublist_filter|done].
Qed.

Lemma step_spec c :
  forall acc, NoDup (cid <$> acc ++ preorder c) ->
  checkLicenseGapsStep c acc =
  acc ++ filter (fun c => hasComponentLicenseIncluded c = false) (preorder c).
Proof.
  induction c as [i n v ps ls cs IH] using Component_tree_ind. intros acc Hnd.
  rewrite preorder_mk in *. cbn [checkLicenseGapsStep components].
  rewrite (steps_spec cs IH []); cycle 1.
  { eapply NoDup_ids_sublist; [|exact Hnd]. simpl.
    apply sublist_inserts_l, sublist_cons. done. }
  simpl app. rewrite filter_cons.
  destruct (hasComponentLicenseIncluded (mkComponent i n v ps ls cs)) eqn:Hinc; simpl.
  - rewrite fold_repo_add_fresh; [done|].
    eapply NoDup_ids_sublist; [|exact Hnd]. apply (step_sublist _ acc _ _ false).
  - rewrite repo_add_fresh, fold_repo_add_fresh.
    + by rewrite <- app_assoc.
    + eapply NoDup_ids_sublist; [|exact Hnd]. apply (step_sublist _ acc _ _ true).
    + rewrite fmap_app, NoDup_app in Hnd. destruct Hnd as (_ & Hdisj & _).
      intros Hc. apply (Hdisj _ Hc). simpl. apply elem_of_cons. by left.
Qed.

(** C1: when the components of the tree are distinct objects (as the
    tree builder makes them), the audit returns exactly the components
    that lack complete license evidence, at any depth, in pre-order: it
    refines the abstract audit [gapsSpec]. *)
Theorem checkLicenseGapsInComponents_refines components :
  NoDup (cid <$> preorder_list components) ->
  checkLicenseGapsInComponents components = gapsSpec components.
Proof.
  intros Hnd. unfold checkLicenseGapsInComponents.
  apply (steps_spec components); [|done].
  apply Forall_forall. intros c _. apply step_spec.
Qed.

(** The refinement, for use by the properties below. *)
Lemma audit_spec components :
  NoDup (cid <$> preorder_list components) ->
  checkLicenseGapsInComponents components = gapsSpec components.
Proof.
  intros Hnd. apply (steps_spec components); [|done].
  apply Forall_forall. intros c _. apply step_spec.
Qed.

Lemma step_unfold c acc :
  checkLicenseGapsStep c acc =
  fold_left (fun repo componentWOLic => repo_add componentWOLic repo)
    (fold_left (fun acc c => checkLicenseGapsStep c acc) (components c) [])
    (if negb (hasComponentLicenseIncluded c) then repo_add c acc else acc).
Proof. by destruct c. Qed.

Lemma step_NoDup c acc :
  NoDup (cid <$> acc) -> NoDup (cid <$> checkLicenseGapsStep c acc).
Proof.
  intros H. destruct c. cbn [checkLicenseGapsStep]. apply fold_repo_add_NoDup.
  destruct (negb _); [by apply repo_add_NoDup | done].
Qed.

Lemma elem_of_gapsSpec c components :
  c ∈ gapsSpec components <->
  c ∈ preorder_list components ∧ hasComponentLicenseIncluded c = false.
Proof. unfold gapsSpec. rewrite list_elem_of_filter. tauto. Qed.

(** C20: a component that declares no license is reported by the audit,
    wherever it sits in the tree. *)
Theorem audit_reports_unlicensed components c :
  NoDup (cid <$> preorder_list components) -> c ∈ preorder_list components ->
  licenses c = [] -> c ∈ checkLicenseGapsInComponents components.
Proof.
  intros Hnd Hc Hl. rewrite audit_spec by done. apply elem_of_gapsSpec.
  split; [done|]. unfold hasComponentLicenseIncluded. by rewrite Hl.
Qed.

(** C4: a component with a license expression is always reported as a
    gap, whatever texts its other licenses carry: [hasLicenseInformation]
    returns [false] for an expression. *)
Theorem audit_reports_expression components c expr :
  NoDup (cid <$> preorder_list components) -> c ∈ preorder_list components ->
  LicenseExpression expr ∈ licenses c -> c ∈ checkLicenseGapsInComponents components.
Proof.
  intros Hnd Hc Hl. rewrite audit_spec by done. apply elem_of_gapsSpec.
  split; [done|]. unfold hasComponentLicenseIncluded.
  case_bool_decide as Hlen; [done|]. apply not_true_iff_false. rewrite forallb_forall.
  intros Hall. specialize (Hall _ (proj1 (list_elem_of_In _ _) Hl)). done.
Qed.

Lemma logGaps_spec cs w :
  logGaps cs w = (Ok tt, mkWorld (bom w) (stdout w ++ map gapLine cs)).
Proof.
  revert w. induction cs as [|c cs IH]; intros [b out]; simpl.
  - by rewrite app_nil_r.
  - unfold st_bind, log, st_modify. rewrite IH. simpl. by rewrite <- app_assoc.
Qed.

Lemma checkLicenseGaps_eq w :
  checkLicenseGaps w =
  match checkLicenseGapsInComponents (bom_components (bom w)) with
  | [] => (Ok tt, w)
  | gaps => (Err gapError,
             mkWorld (bom w) (stdout w ++ gapHeader (length gaps) :: map gapLine gaps))
  end.
Proof.
  unfold checkLicenseGaps.
  destruct (checkLicenseGapsInComponents _) as [|c cs]; [done|].
  rewrite bool_decide_true by (simpl; lia).
  unfold st_bind, log, st_modify, st_throw. rewrite logGaps_spec. simpl.
  by rewrite <- app_assoc.
Qed.

(** C5: [checkLicenseGaps] succeeds without output when the audit finds
    nothing; otherwise it prints the number of gaps and one line per gap
    component, in audit order, and throws the license-gap error. *)
Theorem checkLicenseGaps_spec w :
  checkLicenseGaps w =
  match checkLicenseGapsInComponents (bom_components (bom w)) with
  | [] => (Ok tt, w)
  | gaps => (Err gapError,
             mkWorld (bom w) (stdout w ++ gapHeader (length gaps) :: map gapLine gaps))
  end.
Proof. apply checkLicenseGaps_eq. Qed.

Lemma leaf_gaps c :
  components c = [] ->
  checkLicenseGapsInComponents [c] = if hasComponentLicenseIncluded c then [] else [c].
Proof.
  intros E. unfold checkLicenseGapsInComponents. simpl. rewrite step_unfold, E. simpl.
  by destruct (hasComponentLicenseIncluded c).
Qed.

Lemma base64_nonempty bs : bs ≠ [] -> 0 < String.length (base64_encode bs).
Proof.
  intros H. destruct (base64_encode bs) eqn:E; simpl; [|lia].
  by apply base64_encode_empty_iff in E.
Qed.

(** C2: the end-to-end run on one package with a named license and a
    readable, non-empty license file found at its install path: the
    license gets the file's base64 content and content type, the package
    file name is printed, and the audit passes. *)
Theorem licenseRun_licensed fs packageFile c licName t f ct bs out :
  licenses c = [Disjunctive (NamedLicense licName t)] -> components c = [] ->
  licName ≠ "" ->
  LicenseTexts.searchLicenseSources fs (LicenseTexts.getComponentInstallPath c) "" = [(f, ct)] ->
  readFileSync fs f = Ok bs -> bs ≠ [] ->
  licenseRun fs packageFile (mkWorld (mkBom [c]) out) =
  (Ok tt, mkWorld (mkBom [set_licenses [Disjunctive (NamedLicense licName
            (Some (mkAttachment (base64_encode bs) (Some Base64) (Some ct))))] c])
          (out ++ [packageFile])).
Proof.
  intros Hl Hc Hn Hs Hr Hbs.
  unfold licenseRun, st_bind, LicenseTexts.addLicenseTextsToBom,
    LicenseTexts.addLicenseTextsToComponents. cbn [bom bom_components for_each].
  rewrite LicenseTexts.addLicenseTextsToComponent_leaf by done.
  rewrite (LicenseTexts.addLicenseTextToComponent_one _ _ _ Hl).
  unfold LicenseTexts.addLicTextBasedOnLicenseFiles. rewrite Hs.
  rewrite (LicenseTexts.assignTexts_single _ f ct bs) by done.
  cbn [fst snd]. unfold log, st_modify. rewrite checkLicenseGaps_eq.
  cbn [bom bom_components stdout set_bom].
  replace (set_components [] _) with
    (set_licenses [Disjunctive (NamedLicense licName
       (Some (mkAttachment (base64_encode bs) (Some Base64) (Some ct))))] c)
    by (destruct c; simpl in *; by subst).
  rewrite leaf_gaps by (destruct c; done).
  unfold hasComponentLicenseIncluded. cbn [licenses set_licenses length forallb].
  rewrite bool_decide_false by lia. cbn [hasLicenseInformation content].
  rewrite !bool_decide_true; [done| |apply base64_nonempty; done].
  destruct licName; [done|simpl; lia].
Qed.

(** C3: the end-to-end run on one package that declares no license: the
    pass prints the package file name, then the number of gaps and the
    package's name, and throws the license-gap error. *)
Theorem licenseRun_unlicensed fs packageFile i nm ps out :
  licenseRun fs packageFile (mkWorld (mkBom [mkComponent i nm None ps [] []]) out) =
  (Err gapError,
   mkWorld (mkBom [mkComponent i nm None ps [] []])
     (out ++ [packageFile; "Components without license informations (1)"; " - " +:+ nm])).
Proof.
  unfold licenseRun, st_bind, LicenseTexts.addLicenseTextsToBom,
    LicenseTexts.addLicenseTextsToComponents. cbn [bom bom_components for_each].
  rewrite LicenseTexts.addLicenseTextsToComponent_leaf by done.
  rewrite LicenseTexts.addLicenseTextToComponent_none by done. cbn [fst snd].
  unfold log, st_modify. rewrite checkLicenseGaps_eq.
  cbn [bom bom_components stdout set_bom set_components].
  rewrite leaf_gaps by done. unfold hasComponentLicenseIncluded.
  cbn [licenses length set_components cid name version properties components].
  rewrite bool_decide_true by lia. cbn [length map].
  unfold gapLine. cbn [name version]. rewrite string_app_nil_r, <- app_assoc. done.
Qed.

(** ** Witnesses *)

Lemma checkLicenseGapsInComponents_refines_witness :
  let g := mkComponent 3 "grandchild" (Some "0.1.0") [] [] [] in
  let ch := mkComponent 2 "child" None []
              [Disjunctive (SpdxLicense "MIT" (Some (mkAttachment "TUlU" (Some Base64) None)))] [g] in
  let r := mkComponent 1 "root" (Some "1.0.0") []
              [LicenseExpression "MIT OR ISC"] [ch] in
  NoDup (cid <$> preorder_list [r]) ∧
  checkLicenseGapsInComponents [r] = gapsSpec [r].
Proof.
  intros g ch r. split; [decide_by_eval|].
  apply checkLicenseGapsInComponents_refines. decide_by_eval.
Defined.

Lemma audit_reports_unlicensed_witness :
  let g := mkComponent 3 "grandchild" (Some "0.1.0") [] [] [] in
  let r := mkComponent 1 "root" (Some "1.0.0") []
              [Disjunctive (NamedLicense "ISC" (Some (mkAttachment "SVND" (Some Base64) None)))] [g] in
  NoDup (cid <$> preorder_list [r]) ∧ g ∈ preorder_list [r] ∧ licenses g = [] ∧
  g ∈ checkLicenseGapsInComponents [r].
Proof.
  intros g r. split; [decide_by_eval|]. split; [apply list_elem_of_In; simpl; tauto|].
  split; [reflexivity|].
  apply audit_reports_unlicensed; [decide_by_eval | apply list_elem_of_In; simpl; tauto | reflexivity].
Defined.

Lemma audit_reports_expression_witness :
  let r := mkComponent 1 "dual" (Some "2.0.0") []
              [LicenseExpression "(MIT OR Apache-2.0)"] [] in
  NoDup (cid <$> preorder_list [r]) ∧ r ∈ preorder_list [r] ∧
  LicenseExpression "(MIT OR Apache-2.0)" ∈ licenses r ∧
  r ∈ checkLicenseGapsInComponents [r].
Proof.
  intros r. split; [decide_by_eval|]. split; [apply list_elem_of_In; simpl; tauto|].
  split; [decide_by_eval|].
  apply (audit_reports_expression _ _ "(MIT OR Apache-2.0)");
    [decide_by_eval | apply list_elem_of_In; simpl; tauto | decide_by_eval].
Defined.

Lemma licenseRun_licensed_witness :
  let fs := dir_fs "/app/node_modules/pkg-a" [("LICENSE", text_bytes "MIT License")] in
  let c := mkComponent 1 "pkg-a" (Some "1.0.0")
             [mkProperty PackageInstallPath "/app/node_modules/pkg-a"]
             [Disjunctive (NamedLicense "MIT" None)] [] in
  LicenseTexts.searchLicenseSources fs (LicenseTexts.getComponentInstallPath c) "" =
    [("/app/node_modules/pkg-a/LICENSE", "text/plain")] ∧
  licenseRun fs "/app/package.json" (mkWorld (mkBom [c]) []) =
  (Ok tt, mkWorld (mkBom [set_licenses [Disjunctive (NamedLicense "MIT"
            (Some (mkAttachment (base64_encode (text_bytes "MIT License")) (Some Base64)
                     (Some "text/plain"))))] c])
          ([] ++ ["/app/package.json"])).
Proof.
  intros fs c. split; [reflexivity|].
  apply (licenseRun_licensed fs "/app/package.json" c "MIT" None "/app/node_modules/pkg-a/LICENSE"); [reflexivity|reflexivity|decide_by_eval|reflexivity|reflexivity|done].
Defined.

End LicenseGaps.
