(* ===== verification/LegacyWalk.v ===== *)
(** * The legacy pass over a whole tree (src/src/licensetexts.ts)

    Theorems about [LicenseTexts.addLicenseTextsToComponents] as a whole:
    when it runs to completion, where the exceptions it throws come from,
    which attachments it leaves in the tree (their origin, their format,
    and that they decode to the file's bytes), what running it a second
    time does, and how many paths one search can report.  The per-component facts are proved first, about
    [assignTexts] and [addLicenseTextToComponent]; the tree-level theorems
    lift them with [Component_tree_ind] and the loop lemmas of [Prelude]. *)

From S2P Require Import Prelude Model Base64 Node Fixtures LicenseTexts.
From Stdlib Require Import Init.Byte.

Module LegacyWalk.
Import LicenseTexts.

Section WithFs.
Variable fs : FileSystem.

(** Every file the search finds at the component's install path can be
    read. *)
Definition reads_ok (c : Component) : Prop :=
  Forall (fun e => is_ok (readFileSync fs e.1) = true)
    (searchLicenseSources fs (getComponentInstallPath c) "").

#[global] Instance reads_ok_dec c : Decision (reads_ok c).
Proof. unfold reads_ok. apply _. Defined.

(** The text [a] was made by the pass from a file the search finds at
    [p]: the base64 of the file's bytes, with the file's content type. *)
Definition text_from (p : string) (a : Attachment) : Prop :=
  Exists (fun '(f, ct) =>
    match readFileSync fs f with
    | Ok bs => a = mkAttachment (base64_encode bs) (Some Base64) (Some ct)
    | Err _ => False
    end) (searchLicenseSources fs p "").

#[global] Instance text_from_dec p a : Decision (text_from p a).
Proof.
  unfold text_from. apply Exists_dec. intros [f ct].
  destruct (readFileSync fs f); apply _.
Defined.

(** Every text of the component's own licenses comes from its package. *)
Definition evidence_in_package (c : Component) : Prop :=
  Forall (fun l => match l with
                   | Disjunctive d =>
                       from_option (text_from (getComponentInstallPath c)) True (dl_text d)
                   | LicenseExpression _ => True
                   end) (licenses c).

#[global] Instance evidence_in_package_dec c : Decision (evidence_in_package c).
Proof.
  unfold evidence_in_package. apply Forall_dec. intros [d|x]; [|apply _].
  destruct (dl_text d); cbn [from_option]; apply _.
Defined.

End WithFs.

(** The content types an attached license text may carry in the
    persisted SBOM (spec, section 6). *)
Definition attachment_content_types : list string :=
  ["text/plain"; "text/txt"; "text/markdown"; "text/xml"].

(** An attachment as the SBOM format expects it: base64 content that
    decodes, and one of the four content types. *)
Definition text_wf (a : Attachment) : Prop :=
  encoding a = Some Base64 ∧ is_Some (base64_decode (content a)) ∧
  from_option (fun ct => ct ∈ attachment_content_types) False (contentType a).

Definition license_wf (l : License) : Prop :=
  match l with
  | Disjunctive d => from_option text_wf True (dl_text d)
  | LicenseExpression _ => True
  end.

Definition component_wf (c : Component) : Prop := Forall license_wf (licenses c).

#[global] Instance text_wf_dec a : Decision (text_wf a).
Proof. unfold text_wf. destruct (contentType a); cbn [from_option]; apply _. Defined.

#[global] Instance license_wf_dec l : Decision (license_wf l).
Proof. destruct l as [d|]; [|apply _]. unfold license_wf. destruct (dl_text d); cbn [from_option]; apply _. Defined.

#[global] Instance component_wf_dec c : Decision (component_wf c).
Proof. unfold component_wf. apply _. Defined.

(** ** One component *)

Section Visit.
Variable fs : FileSystem.

Lemma readFileSyncBase64_Err f e :
  readFileSyncBase64 fs f = Err e <-> readFileSync fs f = Err e.
Proof.
  unfold readFileSyncBase64. destruct (readFileSync fs f); split; intros H; by res_inv.
Qed.

Lemma assignTexts_ok entries d :
  Forall (fun e => is_ok (readFileSync fs e.1) = true) entries ->
  (assignTexts fs entries d).1 = Ok tt.
Proof.
  intros Hall. revert d. induction Hall as [|[f ct] entries Hf _ IH]; intros d; [done|].
  cbn [assignTexts]. unfold readFileSyncBase64. simpl in Hf.
  destruct (readFileSync fs f); [apply IH|done].
Qed.

Lemma assignTexts_err entries d e :
  (assignTexts fs entries d).1 = Err e ->
  exists f ct, (f, ct) ∈ entries ∧ readFileSync fs f = Err e.
Proof.
  revert d. induction entries as [|[f ct] entries IH]; intros d H; cbn [assignTexts] in H; [done|].
  destruct (readFileSyncBase64 fs f) eqn:Hr.
  - destruct (IH _ H) as (f' & ct' & Hin & Hf'). exists f', ct'. split; [by right|done].
  - exists f, ct. apply readFileSyncBase64_Err in Hr. simpl in H. res_inv.
    split; [by left|done].
Qed.

(** The visit either handles a single named or SPDX license or returns
    the component untouched. *)
Lemma visit_cases c :
  (exists d, licenses c = [Disjunctive d]) ∨ addLicenseTextToComponent fs c = (Ok tt, c).
Proof.
  unfold addLicenseTextToComponent. case_bool_decide as Hl; [|by right].
  destruct (licenses c) as [|[d|x] [|? ?]] eqn:E; simpl in Hl; try lia; eauto.
Qed.

Lemma visit_ok c : reads_ok fs c -> (addLicenseTextToComponent fs c).1 = Ok tt.
Proof.
  intros Hr. destruct (visit_cases c) as [[d E]| ->]; [|done].
  rewrite (addLicenseTextToComponent_one _ _ _ E).
  unfold addLicTextBasedOnLicenseFiles.
  pose proof (assignTexts_ok _ d Hr) as H. destruct (assignTexts _ _ _). done.
Qed.

Lemma visit_err c e :
  (addLicenseTextToComponent fs c).1 = Err e ->
  exists f ct, (f, ct) ∈ searchLicenseSources fs (getComponentInstallPath c) "" ∧
    readFileSync fs f = Err e.
Proof.
  destruct (visit_cases c) as [[d E]| ->]; [|done].
  rewrite (addLicenseTextToComponent_one _ _ _ E). unfold addLicTextBasedOnLicenseFiles.
  intros H. apply (assignTexts_err _ d). destruct (assignTexts _ _ _). done.
Qed.

Lemma assignTexts_text entries d :
  dl_text (assignTexts fs entries d).2 = dl_text d ∨
  exists f ct bs, (f, ct) ∈ entries ∧ readFileSync fs f = Ok bs ∧
    dl_text (assignTexts fs entries d).2 =
      Some (mkAttachment (base64_encode bs) (Some Base64) (Some ct)).
Proof.
  revert d. induction entries as [|[f ct] entries IH]; intros d; cbn [assignTexts]; [by left|].
  unfold readFileSyncBase64. destruct (readFileSync fs f) as [bs|e] eqn:Hr; [|by left].
  cbv beta iota. destruct (IH (dl_set_text (Some (mkAttachment (base64_encode bs) (Some Base64) (Some ct))) d))
    as [He|(f' & ct' & bs' & Hin & Hr' & He)]; right.
  - exists f, ct, bs. split_and!; [by left|done|]. by rewrite He, dl_text_set.
  - exists f', ct', bs'. split_and!; [by right|done|done].
Qed.

Lemma assignTexts_Ok_inv entries d d' :
  assignTexts fs entries d = (Ok tt, d') ->
  Forall (fun e => exists bs, readFileSync fs e.1 = Ok bs) entries.
Proof.
  revert d. induction entries as [|[f ct] entries IH]; intros d H; cbn [assignTexts] in H;
    [constructor|].
  unfold readFileSyncBase64 in H. destruct (readFileSync fs f) as [bs|e] eqn:Hr; [|res_inv].
  constructor; [by exists bs | by eapply IH].
Qed.

(** Assigning the texts of the same files again changes nothing: the last
    file wins both times. *)
Lemma assignTexts_idem entries d d' :
  assignTexts fs entries d = (Ok tt, d') -> assignTexts fs entries d' = (Ok tt, d').
Proof.
  intros H. pose proof (assignTexts_Ok_inv _ _ _ H) as Hall.
  destruct (decide (entries = [])) as [->|Hne]; [by cbn in H; res_inv|].
  destruct (exists_last Hne) as [pre [[f ct] ->]].
  apply Forall_app in Hall as [Hpre Hf]. inversion_clear Hf as [|? ? [bs Hbs] _].
  rewrite (assignTexts_last _ _ _ _ bs) in H by done. res_inv.
  rewrite (assignTexts_last _ _ _ _ bs) by done. by rewrite dl_set_text_set.
Qed.

Lemma visit_install c :
  getComponentInstallPath (addLicenseTextToComponent fs c).2 = getComponentInstallPath c.
Proof.
  destruct (visit_cases c) as [[d E]| ->]; [|done].
  rewrite (addLicenseTextToComponent_one _ _ _ E). by destruct (addLicTextBasedOnLicenseFiles _ _ _).
Qed.

(** What a visit does to the licenses: nothing, or it gives the single
    license the text of a file its search found (or keeps its text). *)
Lemma visit_licenses c :
  licenses (addLicenseTextToComponent fs c).2 = licenses c ∨
  exists d d', licenses c = [Disjunctive d] ∧
    licenses (addLicenseTextToComponent fs c).2 = [Disjunctive d'] ∧
    (dl_text d' = dl_text d ∨
     exists f ct bs, (f, ct) ∈ searchLicenseSources fs (getComponentInstallPath c) "" ∧
       readFileSync fs f = Ok bs ∧
       dl_text d' = Some (mkAttachment (base64_encode bs) (Some Base64) (Some ct))).
Proof.
  destruct (visit_cases c) as [[d E]| ->]; [|by left]. right.
  rewrite (addLicenseTextToComponent_one _ _ _ E). unfold addLicTextBasedOnLicenseFiles.
  pose proof (assignTexts_text (searchLicenseSources fs (getComponentInstallPath c) "") d) as Ht.
  destruct (assignTexts _ _ _) as [r d']. exists d, d'. by split_and!.
Qed.

(** A visit that returns normally, repeated, changes nothing. *)
Lemma visit_idem c c' :
  addLicenseTextToComponent fs c = (Ok tt, c') -> addLicenseTextToComponent fs c' = (Ok tt, c').
Proof.
  destruct (visit_cases c) as [[d E]|Hc]; [|rewrite Hc; intros; res_inv; by rewrite Hc].
  rewrite (addLicenseTextToComponent_one _ _ _ E). unfold addLicTextBasedOnLicenseFiles.
  destruct (assignTexts fs _ d) as [r d'] eqn:Ha. intros H. res_inv.
  assert (Hl : licenses (set_licenses [Disjunctive d'] c) = [Disjunctive d']) by done.
  rewrite (addLicenseTextToComponent_one _ _ _ Hl). unfold addLicTextBasedOnLicenseFiles.
  replace (getComponentInstallPath (set_licenses _ c)) with (getComponentInstallPath c) by done.
  rewrite (assignTexts_idem _ _ _ Ha). by destruct c.
Qed.

Lemma visit_set_components c s :
  addLicenseTextToComponent fs (set_components s c) =
  ((addLicenseTextToComponent fs c).1, set_components s (addLicenseTextToComponent fs c).2).
Proof.
  destruct c as [i n v ps ls cs]. unfold addLicenseTextToComponent. cbn [licenses set_components].
  case_bool_decide; [|done]. destruct ls as [|[d|x] rest]; try done.
  unfold getComponentInstallPath. cbn [properties]. by destruct (addLicTextBasedOnLicenseFiles _ _ _).
Qed.

Lemma visit_evidence c :
  evidence_in_package fs c -> evidence_in_package fs (addLicenseTextToComponent fs c).2.
Proof.
  unfold evidence_in_package. rewrite visit_install.
  destruct (visit_licenses c) as [-> | (d & d' & E & -> & Ht)]; [done|].
  rewrite E. intros Hd%Forall_inv. constructor; [|constructor]. cbn iota beta in *.
  destruct Ht as [Ht | (f & ct & bs & Hin & Hr & Ht)]; rewrite Ht; [done|].
  cbn [from_option]. apply Exists_exists. exists (f, ct). split; [done|]. cbn. by rewrite Hr.
Qed.

End Visit.


(** ** The walk *)

Section Walk.
Variable fs : FileSystem.

Lemma walk_unfold c :
  addLicenseTextsToComponent fs c =
  match addLicenseTextToComponent fs c with
  | (Err e, c') => (Err e, c')
  | (Ok _, c') =>
      let (r, subs) := for_each (addLicenseTextsToComponent fs) (components c) in
      (r, set_components subs c')
  end.
Proof. by destruct c. Qed.

Lemma walk_ok c :
  Forall (reads_ok fs) (preorder c) -> (addLicenseTextsToComponent fs c).1 = Ok tt.
Proof.
  induction c as [i n v ps ls cs IH] using Component_tree_ind.
  rewrite preorder_unfold, Forall_cons, Forall_preorder_list. intros [Hc Hcs].
  cbn [addLicenseTextsToComponent components].
  pose proof (visit_ok fs _ Hc) as Hv.
  destruct (addLicenseTextToComponent fs _) as [r c'] eqn:E. cbn [fst] in Hv. subst r.
  rewrite for_each_Ok; [done|].
  apply Forall_forall. intros x Hx. rewrite Forall_forall in IH, Hcs.
  by rewrite (IH x Hx (Hcs x Hx)).
Qed.

Lemma walk_list_ok cs :
  Forall (reads_ok fs) (preorder_list cs) ->
  (addLicenseTextsToComponents fs cs).1 = Ok tt.
Proof.
  rewrite Forall_preorder_list. intros Hall. unfold addLicenseTextsToComponents.
  rewrite for_each_Ok; [done|].
  eapply Forall_impl; [done|]. intros c Hc. by rewrite walk_ok.
Qed.

Lemma walk_err c e c' :
  addLicenseTextsToComponent fs c = (Err e, c') ->
  exists c0, c0 ∈ preorder c ∧ (addLicenseTextToComponent fs c0).1 = Err e.
Proof.
  revert c'. induction c as [i n v ps ls cs IH] using Component_tree_ind. intros c' H.
  cbn [addLicenseTextsToComponent components] in H.
  destruct (addLicenseTextToComponent fs _) as [[[]|e'] c1] eqn:E.
  - destruct (for_each _ cs) as [r subs] eqn:Hf. res_inv.
    destruct (for_each_Err _ _ _ _ Hf) as (pre & x & post & -> & _ & Hx & _).
    rewrite Forall_forall in IH.
    destruct (addLicenseTextsToComponent fs x) as [rx x'] eqn:Ex. cbn [fst] in Hx. subst rx.
    destruct (IH x ltac:(set_solver) _ Ex) as (c0 & Hin & Hc0).
    exists c0. split; [|done].
    rewrite preorder_unfold, elem_of_cons, elem_of_preorder_list. right. exists x. set_solver.
  - res_inv. eexists. split; [apply elem_of_preorder_self|]. by rewrite E.
Qed.

(** A property of a component's own fields that every visit keeps holds
    of every component after the walk, also when the walk throws. *)
Lemma walk_preserves (P : Component -> Prop) :
  (forall c s, P (set_components s c) <-> P c) ->
  (forall c, P c -> P (addLicenseTextToComponent fs c).2) ->
  forall c, Forall P (preorder c) -> Forall P (preorder (addLicenseTextsToComponent fs c).2).
Proof.
  intros Hset Hvisit c. induction c as [i n v ps ls cs IH] using Component_tree_ind.
  rewrite preorder_unfold, Forall_cons, Forall_preorder_list. intros [Hc Hcs].
  cbn [addLicenseTextsToComponent components].
  destruct (addLicenseTextToComponent_head fs (mkComponent i n v ps ls cs)) as [_ Hcomp].
  pose proof (Hvisit _ Hc) as Hc'.
  destruct (addLicenseTextToComponent fs _) as [[[]|e] c1] eqn:E; cbn [snd] in *.
  - destruct (for_each _ cs) as [r subs] eqn:Hf. cbn [snd].
    rewrite preorder_unfold, Forall_cons, Forall_preorder_list. split; [by apply Hset|].
    cbn [components set_components].
    replace subs with (for_each (addLicenseTextsToComponent fs) cs).2 by by rewrite Hf.
    apply for_each_Forall. rewrite Forall_forall in IH, Hcs |- *. intros x Hx.
    split; [by apply Hcs|by apply IH].
  - rewrite preorder_unfold, Forall_cons, Forall_preorder_list, Hcomp. done.
Qed.

(** The walk over a whole list keeps a property of the components' own
    fields that every visit keeps. *)
Lemma walk_list_preserves (P : Component -> Prop) cs :
  (forall c s, P (set_components s c) <-> P c) ->
  (forall c, P c -> P (addLicenseTextToComponent fs c).2) ->
  Forall P (preorder_list cs) ->
  Forall P (preorder_list (addLicenseTextsToComponents fs cs).2).
Proof.
  intros Hset Hvisit. rewrite !Forall_preorder_list. intros Hall.
  apply for_each_Forall. eapply Forall_impl; [exact Hall|]. intros c Hc.
  split; [done|]. intros _. by apply walk_preserves.
Qed.

Lemma walk_idem c c' :
  addLicenseTextsToComponent fs c = (Ok tt, c') -> addLicenseTextsToComponent fs c' = (Ok tt, c').
Proof.
  revert c'. induction c as [i n v ps ls cs IH] using Component_tree_ind. intros c' H.
  cbn [addLicenseTextsToComponent components] in H.
  destruct (addLicenseTextToComponent_head fs (mkComponent i n v ps ls cs)) as [_ Hcomp].
  destruct (addLicenseTextToComponent fs _) as [[[]|e] c1] eqn:E; [|res_inv].
  destruct (for_each _ cs) as [r subs] eqn:Hf. res_inv.
  rewrite walk_unfold, visit_set_components, (visit_idem fs _ _ E). cbn [fst snd].
  rewrite components_set_components, (for_each_idem _ _ _ Hf), set_components_set_components; [done|].
  eapply Forall_impl; [exact IH|]. intros x Hx. apply Hx.
Qed.

Lemma walk_list_err cs e cs' :
  addLicenseTextsToComponents fs cs = (Err e, cs') ->
  exists c f ct, c ∈ preorder_list cs ∧
    (f, ct) ∈ searchLicenseSources fs (getComponentInstallPath c) "" ∧
    readFileSync fs f = Err e.
Proof.
  intros H. destruct (for_each_Err _ _ _ _ H) as (pre & x & post & -> & _ & Hx & _).
  destruct (addLicenseTextsToComponent fs x) as [rx x'] eqn:Ex. cbn [fst] in Hx. subst rx.
  destruct (walk_err _ _ _ Ex) as (c0 & Hin & Hc0).
  destruct (visit_err fs _ _ Hc0) as (f & ct & Hf & Hr).
  exists c0, f, ct. split_and!; [|done|done].
  apply elem_of_preorder_list. exists x. set_solver.
Qed.

End Walk.

(** ** The content types of the search *)

Section Search.
Variable fs : FileSystem.

Lemma legacyCandidates_types p n :
  Forall (fun e => e.2 ∈ map fst licenseContentTypes) (legacyCandidates p n).
Proof.
  apply Forall_forall. intros [f ct] Hin. unfold legacyCandidates in Hin.
  apply elem_of_flat_map in Hin as (typ & _ & Hin).
  apply elem_of_flat_map in Hin as (var & _ & Hin).
  apply elem_of_map_iff in Hin as ([ct' ext] & Heq & Hct). injection Heq as -> ->.
  apply elem_of_map_iff. by exists (ct', ext).
Qed.

(** Every content type the search reports is a key of its registry. *)
Lemma search_content_type p n f ct :
  (f, ct) ∈ searchLicenseSources fs p n -> ct ∈ map fst licenseContentTypes.
Proof.
  destruct (decide (p = "")) as [->|Hp]; [simpl; by intros ?%elem_of_nil|].
  rewrite legacy_search_flat by done. intros Hin.
  pose proof (fold_probe_Forall fs _ _ [] (legacyCandidates_types p n) (Forall_nil_2 _)) as Hall.
  rewrite Forall_forall in Hall. exact (Hall _ Hin).
Qed.

End Search.

Section VisitWf.
Variable fs : FileSystem.

Lemma visit_wf c : component_wf c -> component_wf (addLicenseTextToComponent fs c).2.
Proof.
  unfold component_wf.
  destruct (visit_licenses fs c) as [-> | (d & d' & E & -> & Ht)]; [done|].
  rewrite E. intros Hd%Forall_inv. constructor; [|constructor]. unfold license_wf in *.
  destruct Ht as [Ht | (f & ct & bs & Hin & Hr & Ht)]; rewrite Ht; [done|].
  cbn [from_option]. unfold text_wf. cbn [content encoding contentType]. split_and!; [done| |].
  - rewrite base64_decode_encode. by eexists.
  - replace attachment_content_types with (map fst licenseContentTypes) by reflexivity.
    by eapply search_content_type.
Qed.

End VisitWf.

(** ** Properties of the pass *)

(** C25: the only exception the pass can throw is the error of reading a
    file its search found for some component of the tree: [existsSync]
    holds for that path, but [readFileSync] fails, for instance with
    EISDIR on a directory named like a license file. *)
Theorem addLicenseTextsToComponents_error fs cs e cs' :
  addLicenseTextsToComponents fs cs = (Err e, cs') ->
  exists c f ct, c ∈ preorder_list cs ∧
    (f, ct) ∈ searchLicenseSources fs (getComponentInstallPath c) "" ∧
    readFileSync fs f = Err e.
Proof. apply walk_list_err. Qed.

(** C26: the pass takes license evidence only from the package itself:
    when no license of the tree carries a text from elsewhere, afterwards
    every text of every component is the base64 of a file that the
    search found at that component's own install path, with that file's
    content type, also when the pass throws half way. *)
Theorem addLicenseTextsToComponents_evidence fs cs :
  Forall (evidence_in_package fs) (preorder_list cs) ->
  Forall (evidence_in_package fs) (preorder_list (addLicenseTextsToComponents fs cs).2).
Proof. apply walk_list_preserves; [by intros [] ?|apply visit_evidence]. Qed.

(** C27: the pass only writes attachments the SBOM schema accepts: base64
    content that decodes, and one of the four content types of the
    registry; a tree whose attachments are well formed stays so. *)
Theorem addLicenseTextsToComponents_wf fs cs :
  Forall component_wf (preorder_list cs) ->
  Forall component_wf (preorder_list (addLicenseTextsToComponents fs cs).2).
Proof. apply walk_list_preserves; [by intros [] ?|apply visit_wf]. Qed.

(** C28: the pass is idempotent: on the tree a completed pass returns,
    a second pass completes as well and changes nothing (every
    component's text is again the text of the last file found). *)
Theorem addLicenseTextsToComponents_idempotent fs cs cs' :
  addLicenseTextsToComponents fs cs = (Ok tt, cs') ->
  addLicenseTextsToComponents fs cs' = (Ok tt, cs').
Proof.
  intros H. apply (for_each_idem _ _ _ H).
  apply Forall_forall. intros x _. apply walk_idem.
Qed.

(** ** Witnesses *)

(** A directory [pkg/LICENSE]: it exists, its real path is itself, and
    reading it throws EISDIR. *)
Lemma addLicenseTextsToComponents_error_witness :
  let fs := dir_fs "pkg/LICENSE" [] in
  addLicenseTextsToComponents fs [npm_pkg 1 "pkg"] =
    (Err (FsError "EISDIR" "read" "pkg/LICENSE"),
     (addLicenseTextsToComponents fs [npm_pkg 1 "pkg"]).2) ∧
  exists c f ct, c ∈ preorder_list [npm_pkg 1 "pkg"] ∧
    (f, ct) ∈ searchLicenseSources fs (getComponentInstallPath c) "" ∧
    readFileSync fs f = Err (FsError "EISDIR" "read" "pkg/LICENSE").
Proof.
  cbv zeta. split; [vm_compute; reflexivity|].
  apply (addLicenseTextsToComponents_error _ _ _
           (addLicenseTextsToComponents (dir_fs "pkg/LICENSE" []) [npm_pkg 1 "pkg"]).2).
  vm_compute. reflexivity.
Defined.

Lemma addLicenseTextsToComponents_evidence_witness :
  let fs := dir_fs "pkg" [("LICENSE", text_bytes "MIT License")] in
  Forall (evidence_in_package fs) (preorder_list [npm_pkg 1 "pkg"]) ∧
  Forall (evidence_in_package fs)
    (preorder_list (addLicenseTextsToComponents fs [npm_pkg 1 "pkg"]).2).
Proof.
  cbv zeta. split; [decide_by_eval|].
  apply addLicenseTextsToComponents_evidence. decide_by_eval.
Defined.

Lemma addLicenseTextsToComponents_wf_witness :
  let fs := dir_fs "pkg" [("LICENSE.md", text_bytes "# MIT")] in
  Forall component_wf (preorder_list [npm_pkg 1 "pkg"]) ∧
  Forall component_wf (preorder_list (addLicenseTextsToComponents fs [npm_pkg 1 "pkg"]).2).
Proof.
  cbv zeta. split; [decide_by_eval|].
  apply addLicenseTextsToComponents_wf. decide_by_eval.
Defined.

Lemma addLicenseTextsToComponents_idempotent_witness :
  let fs := dir_fs "pkg" [("LICENSE", text_bytes "MIT"); ("LICENSE.txt", text_bytes "ISC")] in
  let cs' := (addLicenseTextsToComponents fs [npm_pkg 1 "pkg"]).2 in
  addLicenseTextsToComponents fs [npm_pkg 1 "pkg"] = (Ok tt, cs') ∧
  addLicenseTextsToComponents fs cs' = (Ok tt, cs').
Proof.
  cbv zeta. split; [vm_compute; reflexivity|].
  apply (addLicenseTextsToComponents_idempotent _ [npm_pkg 1 "pkg"]). vm_compute. reflexivity.
Defined.

End LegacyWalk.
