(* ===== verification/Pipeline.v ===== *)
(** * The two passes of a generation run, composed

    The generator calls [addLicenseTextsToBom(bom, packageFile)] and then
    [checkLicenseGaps(bom)] on the same BOM ([LicenseGaps.licenseRun]).
    This file characterises the outcome of that run from the theorems of
    the two passes: it succeeds exactly when the attaching pass completes
    and leaves no incomplete component anywhere in the tree, and it fails
    either with the read error of a license file found by the search,
    having printed nothing, or with the license-gap error after printing
    the gaps. *)

From S2P Require Import Prelude Model Base64 Node Fixtures LicenseTexts LicenseGaps LegacyWalk.
From Stdlib Require Import Init.Byte.

Module Pipeline.
Import LicenseTexts LicenseGaps LegacyWalk.

(** ** Lemmas *)

Lemma gapsSpec_nil_iff cs :
  gapsSpec cs = [] <-> Forall (fun c => hasComponentLicenseIncluded c = true) (preorder_list cs).
Proof.
  unfold gapsSpec. induction (preorder_list cs) as [|c l IH]; [done|].
  rewrite filter_cons, Forall_cons, <- IH. case_decide as Hd.
  - rewrite Hd. split; [done|by intros []].
  - apply not_false_iff_true in Hd. rewrite Hd. tauto.
Qed.

Section Run.
Variable fs : FileSystem.
Variable packageFile : string.

Lemma pass_ids cs :
  cid <$> preorder_list (addLicenseTextsToComponents fs cs).2 = cid <$> preorder_list cs.
Proof.
  apply preorder_ids_skeleton, for_each_skeleton, Forall_forall.
  intros c _. apply addLicenseTextsToComponent_skeleton.
Qed.

(** The run, once the attaching pass is known. *)
Lemma licenseRun_eq w :
  NoDup (cid <$> preorder_list (bom_components (bom w))) ->
  licenseRun fs packageFile w =
  match addLicenseTextsToComponents fs (bom_components (bom w)) with
  | (Err e, cs') => (Err e, set_bom (mkBom cs') w)
  | (Ok _, cs') =>
      match gapsSpec cs' with
      | [] => (Ok tt, mkWorld (mkBom cs') (stdout w ++ [packageFile]))
      | gaps => (Err gapError, mkWorld (mkBom cs')
                   (stdout w ++ packageFile :: gapHeader (length gaps) :: map gapLine gaps))
      end
  end.
Proof.
  intros Hnd. pose proof (pass_ids (bom_components (bom w))) as Hids.
  unfold licenseRun, st_bind, addLicenseTextsToBom.
  destruct (addLicenseTextsToComponents fs _) as [[[]|e] cs'] eqn:E; [|done].
  cbn [fst snd] in *. unfold log, st_modify. rewrite checkLicenseGaps_eq.
  cbn [bom bom_components stdout set_bom]. rewrite audit_spec by (by rewrite Hids).
  destruct (gapsSpec cs'); [done|]. by rewrite <- app_assoc.
Qed.

End Run.

(** ** Properties of the run *)

(** C29: a generation run (distinct component objects) succeeds exactly
    when the attaching pass completes and, in the tree it leaves, every
    component at every depth has complete license evidence; the run then
    prints only the package file name and hands on the annotated tree. *)
Theorem licenseRun_ok_iff fs packageFile w w' :
  NoDup (cid <$> preorder_list (bom_components (bom w))) ->
  licenseRun fs packageFile w = (Ok tt, w') <->
  exists cs', addLicenseTextsToComponents fs (bom_components (bom w)) = (Ok tt, cs') ∧
    Forall (fun c => hasComponentLicenseIncluded c = true) (preorder_list cs') ∧
    w' = mkWorld (mkBom cs') (stdout w ++ [packageFile]).
Proof.
  intros Hnd. rewrite licenseRun_eq by done.
  destruct (addLicenseTextsToComponents fs _) as [[[]|e] cs'] eqn:E.
  - setoid_rewrite <- gapsSpec_nil_iff. destruct (gapsSpec cs') eqn:G.
    + split; [intros; res_inv; by exists cs'|]. intros (? & ? & _ & ->). by res_inv.
    + split; [by intros H|]. intros (? & ? & ? & _). res_inv. congruence.
  - split; [intros; res_inv|]. intros (? & ? & _). res_inv.
Qed.

(** C30: a run fails in one of two ways only: with the error of reading
    a license file that the search found for some component, having
    printed nothing and run no audit; or, after the attaching pass
    completed, with the license-gap error, having printed the package file
    name, the number of gaps and one line per incomplete component of the
    annotated tree. *)
Theorem licenseRun_failure fs packageFile w e w' :
  NoDup (cid <$> preorder_list (bom_components (bom w))) ->
  licenseRun fs packageFile w = (Err e, w') ->
  (stdout w' = stdout w ∧
   exists c f ct, c ∈ preorder_list (bom_components (bom w)) ∧
     (f, ct) ∈ searchLicenseSources fs (getComponentInstallPath c) "" ∧
     readFileSync fs f = Err e) ∨
  (e = gapError ∧
   let gaps := gapsSpec (bom_components (bom w')) in
   gaps ≠ [] ∧
   stdout w' = stdout w ++ packageFile :: gapHeader (length gaps) :: map gapLine gaps).
Proof.
  intros Hnd. rewrite licenseRun_eq by done.
  destruct (addLicenseTextsToComponents fs _) as [[[]|e'] cs'] eqn:E.
  - destruct (gapsSpec cs') as [|g gs] eqn:G; intros H; cbv beta iota zeta in H; res_inv.
    right. cbn [bom bom_components stdout]. rewrite G. done.
  - intros H. res_inv. left. split; [done|]. by apply (walk_list_err fs _ _ cs').
Qed.

(** ** Witnesses *)

(** A package whose [LICENSE] file is attached: the run succeeds. *)
Lemma licenseRun_ok_iff_witness :
  let fs := dir_fs "pkg" [("LICENSE", text_bytes "MIT License")] in
  let w := mkWorld (mkBom [npm_pkg 1 "pkg"]) [] in
  NoDup (cid <$> preorder_list (bom_components (bom w))) ∧
  (licenseRun fs "package.json" w = (Ok tt, (licenseRun fs "package.json" w).2) <->
   exists cs', addLicenseTextsToComponents fs (bom_components (bom w)) = (Ok tt, cs') ∧
     Forall (fun c => hasComponentLicenseIncluded c = true) (preorder_list cs') ∧
     (licenseRun fs "package.json" w).2 = mkWorld (mkBom cs') (stdout w ++ ["package.json"])).
Proof.
  cbv zeta. split; [decide_by_eval|]. apply licenseRun_ok_iff. decide_by_eval.
Defined.

(** A package with a directory named [LICENSE]: the run fails with EISDIR
    before the audit. *)
Lemma licenseRun_failure_witness :
  let fs := dir_fs "pkg/LICENSE" [] in
  let w := mkWorld (mkBom [npm_pkg 1 "pkg"]) [] in
  let r := licenseRun fs "package.json" w in
  NoDup (cid <$> preorder_list (bom_components (bom w))) ∧
  r = (Err (FsError "EISDIR" "read" "pkg/LICENSE"), r.2) ∧
  ((stdout r.2 = stdout w ∧
    exists c f ct, c ∈ preorder_list (bom_components (bom w)) ∧
      (f, ct) ∈ searchLicenseSources fs (getComponentInstallPath c) "" ∧
      readFileSync fs f = Err (FsError "EISDIR" "read" "pkg/LICENSE")) ∨
   (FsError "EISDIR" "read" "pkg/LICENSE" = gapError ∧
    let gaps := gapsSpec (bom_components (bom r.2)) in
    gaps ≠ [] ∧
    stdout r.2 = stdout w ++ "package.json" :: gapHeader (length gaps) :: map gapLine gaps)).
Proof.
  cbv zeta. split_and!; [decide_by_eval|vm_compute; reflexivity|].
  apply (licenseRun_failure _ "package.json" (mkWorld (mkBom [npm_pkg 1 "pkg"]) [])).
  - decide_by_eval.
  - vm_compute. reflexivity.
Defined.

End Pipeline.
