(* ===== verification/Heap.v ===== *)
(** * Component objects in a heap: sharing, cycles and termination

    In the sources a component is a JavaScript object and
    [component.components] a [ComponentRepository], a set of references to
    other component objects.  The tree builder is expected to hand over a
    finite acyclic tree (spec, section 3), but nothing in the code checks
    it: one object may be referenced from two parents (npm deduplication)
    or, through a faulty builder, from its own descendants.  This file
    models the objects as a heap from addresses to [Node]s, and the audit
    [checkLicenseGapsInComponents] (src/src/licensetexts.ts, lines
    148-159) over it, with a [fuel] that stands for the depth of the
    JavaScript call stack: [None] means that the recursion does not return
    (it overflows the stack) or follows a reference to nothing.

    The main theorem ([checkGapsHeap_terminates]) says when the recursion
    returns: exactly when no cycle is reachable from the BOM's components,
    and then within [size h + 1] nested calls. *)

From stdpp Require Import gmap.
From S2P Require Import Prelude Model LicenseGaps.
From Stdlib Require Import ListDec.

Module Heap.
Import LicenseGaps.

(** A component object: its fields, and the addresses of its
    [components]. *)
Record Node : Type := mkNode {
  node_name : string;
  node_version : option string;
  node_properties : list Property;
  node_licenses : list License;
  node_components : list nat
}.

Abbreviation Heap := (gmap nat Node).

(** The object at address [i] as the audit reads it: its own fields, its
    address as identity. *)
Definition node_component (i : nat) (nd : Node) : Component :=
  mkComponent i (node_name nd) (node_version nd) (node_properties nd) (node_licenses nd) [].

(** [ComponentRepository.prototype.add] on addresses. *)
Definition repo_add_id (i : nat) (repo : list nat) : list nat :=
  if bool_decide (i ∈ repo) then repo else repo ++ [i].

(** The body of the loop of [checkLicenseGapsInComponents] for the
    component at address [i]; [rec] is the recursive call. *)
Definition gaps_visit (rec : list nat -> option (list nat)) (h : Heap)
    (withoutLicense : list nat) (i : nat) : option (list nat) :=
  nd ← h !! i;
  let withoutLicense :=
    if negb (hasComponentLicenseIncluded (node_component i nd))
    then repo_add_id i withoutLicense else withoutLicense in
  sub ← rec (node_components nd);
  Some (fold_left (fun repo componentWOLic => repo_add_id componentWOLic repo) sub withoutLicense).

(** [checkLicenseGapsInComponents(components)] with [fuel] nested calls
    left on the stack. *)
Fixpoint checkGapsHeap (fuel : nat) (h : Heap) (ids : list nat) : option (list nat) :=
  match fuel with
  | 0 => None
  | S fuel' =>
      fold_left (fun acc i => acc ≫= fun withoutLicense =>
                   gaps_visit (checkGapsHeap fuel' h) h withoutLicense i)
        ids (Some [])
  end.

(** [j] is one of the components of the object at [i]. *)
Definition child (h : Heap) (i j : nat) : Prop :=
  exists nd, h !! i = Some nd ∧ j ∈ node_components nd.

(** Every reference stored in an object points to an object. *)
Definition closed (h : Heap) : Prop :=
  map_Forall (fun _ nd => Forall (fun j => is_Some (h !! j)) (node_components nd)) h.

#[global] Instance closed_dec h : Decision (closed h).
Proof. unfold closed. apply _. Defined.

(** Some component reachable from [ids] is its own descendant. *)
Definition reaches_cycle (h : Heap) (ids : list nat) : Prop :=
  exists k j, k ∈ ids ∧ rtc (child h) k j ∧ tc (child h) j j.

(** A path of the object graph, as the list of addresses it visits. *)
Fixpoint chain (h : Heap) (l : list nat) : Prop :=
  match l with
  | x :: ((y :: _) as l') => child h x y ∧ chain h l'
  | _ => True
  end.

(** ** A tree of [Model] as objects in a heap *)

(** The object of a tree component: its sub-components by identity. *)
Definition node_of (c : Component) : Node :=
  mkNode (name c) (version c) (properties c) (licenses c) (cid <$> components c).

(** The heap holding every component of a tree at its identity. *)
Definition heap_of (cs : list Component) : Heap :=
  list_to_map ((fun c => (cid c, node_of c)) <$> preorder_list cs).

(** The number of nested calls a walk of the tree makes. *)
Fixpoint height (c : Component) : nat :=
  S (foldr Nat.max 0 (map height (components c))).

(** A BOM whose two dependencies [a] and [b] both reference the one object
    of package [shared] (npm deduplication); only [shared] lacks a
    license. *)
Definition mit : License := Disjunctive (NamedLicense "MIT" (Some (mkAttachment "TUlU" (Some Base64) None))).

Definition shared_heap : Heap :=
  list_to_map [(1, mkNode "root" (Some "1.0.0") [] [mit] [2; 3]);
               (2, mkNode "a" (Some "1.0.0") [] [mit] [4]);
               (3, mkNode "b" (Some "2.0.0") [] [mit] [4]);
               (4, mkNode "shared" (Some "0.1.0") [] [] [])].

(** ** The loop *)

Lemma fold_bind_None_start {A B} (s : A -> B -> option A) l :
  fold_left (fun o x => o ≫= fun acc => s acc x) l None = None.
Proof. by induction l. Qed.

(** A loop whose body fails, whatever the accumulator, exactly on the
    elements satisfying [P] fails exactly when some element does. *)
Lemma fold_bind_None {A B} (s : A -> B -> option A) (P : B -> Prop) l a :
  (forall acc x, s acc x = None <-> P x) ->
  fold_left (fun o x => o ≫= fun acc => s acc x) l (Some a) = None <->
  exists x, x ∈ l ∧ P x.
Proof.
  intros Hs. revert a. induction l as [|x l IH]; intros a; cbn [fold_left].
  - split; [done|]. by intros (? & ?%elem_of_nil & _).
  - cbn [mbind option_bind]. destruct (s a x) as [a'|] eqn:E.
    + rewrite IH. split.
      * intros (y & Hy & Py). exists y. split; [by right|done].
      * intros (y & [->|Hy]%elem_of_cons & Py); [|by eauto].
        apply (proj2 (Hs a x)) in Py. congruence.
    + rewrite fold_bind_None_start. split; [|done]. intros _. exists x.
      split; [by left|]. by apply (Hs a).
Qed.

Lemma gaps_visit_None rec h repo i :
  gaps_visit rec h repo i = None <->
  h !! i = None ∨ exists nd, h !! i = Some nd ∧ rec (node_components nd) = None.
Proof.
  unfold gaps_visit. destruct (h !! i) as [nd|]; cbn [mbind option_bind]; [|tauto].
  destruct (rec _) eqn:E; cbn [mbind option_bind].
  - split; [done|]. intros [?|(? & [= <-] & ?)]; congruence.
  - split; [eauto|done].
Qed.

Lemma checkGapsHeap_S_None fuel h ids :
  checkGapsHeap (S fuel) h ids = None <->
  exists i, i ∈ ids ∧
    (h !! i = None ∨ exists nd, h !! i = Some nd ∧ checkGapsHeap fuel h (node_components nd) = None).
Proof. apply fold_bind_None. intros. apply gaps_visit_None. Qed.

(** ** Paths *)

Section Paths.
Variable h : Heap.

Lemma chain_cons x l :
  chain h (x :: l) <-> match l with [] => True | y :: _ => child h x y ∧ chain h l end.
Proof. by destruct l. Qed.

Lemma chain_app_l l1 l2 : chain h (l1 ++ l2) -> chain h l1.
Proof.
  induction l1 as [|x l1 IH]; [done|]. rewrite !chain_cons.
  destruct l1 as [|y l1]; [done|]. intros [Hxy H]. split; [done|by apply IH].
Qed.

Lemma chain_app_r l1 l2 : chain h (l1 ++ l2) -> chain h l2.
Proof.
  induction l1 as [|x l1 IH]; [done|]. cbn [app]. rewrite chain_cons.
  destruct l1 as [|y l1]; cbn [app]; [by destruct l2; [|intros []]|].
  intros [_ H]. by apply IH.
Qed.

Lemma chain_tc x l y : chain h (x :: l ++ [y]) -> tc (child h) x y.
Proof.
  revert x. induction l as [|z l IH]; intros x; cbn [app]; rewrite chain_cons.
  - intros [Hxy _]. by apply tc_once.
  - intros [Hxz H]. apply (tc_l _ _ z); [done|by apply IH].
Qed.

Lemma chain_alloc k p :
  closed h -> is_Some (h !! k) -> chain h (k :: p) -> Forall (fun x => is_Some (h !! x)) (k :: p).
Proof.
  intros Hcl. revert k. induction p as [|y p IH]; intros k Hk; [by repeat constructor|].
  rewrite chain_cons. intros [(nd & Hnd & Hy) H]. constructor; [done|].
  apply IH; [|done]. pose proof (Hcl k nd Hnd) as Hall. cbn beta in Hall.
  rewrite Forall_forall in Hall. by apply Hall.
Qed.

(** A path through more objects than the heap holds visits one twice. *)
Lemma pigeonhole l :
  Forall (fun x => is_Some (h !! x)) l -> NoDup l -> length l ≤ size h.
Proof.
  intros Hall Hnd. rewrite <- size_dom.
  apply (submseteq_length l (elements (dom h))). apply NoDup_submseteq; [done|].
  intros x Hx. apply elem_of_elements, elem_of_dom. rewrite Forall_forall in Hall. by apply Hall.
Qed.

(** A path that visits an object twice shows a cycle. *)
Lemma chain_dup_cycle k p :
  chain h (k :: p) -> ¬ NoDup (k :: p) -> exists j, rtc (child h) k j ∧ tc (child h) j j.
Proof.
  intros Hc Hnd. rewrite NoDup_ListNoDup in Hnd.
  destruct (not_NoDup Nat.eq_decidable Hnd) as (a & l1 & l2 & l3 & E).
  exists a. split.
  - destruct l1 as [|x l1]; injection E as -> E; [done|]. subst p. apply tc_rtc.
    apply (chain_tc x l1 a), (chain_app_l _ (l2 ++ a :: l3)).
    cbn. rewrite <- app_assoc. exact Hc.
  - rewrite E in Hc. apply chain_app_r in Hc.
    apply (chain_tc a l2 a), (chain_app_l _ l3).
    cbn. rewrite <- app_assoc. exact Hc.
Qed.

(** From a component that reaches a cycle one can always step to a
    component that still reaches it. *)
Lemma reaches_cycle_step k j :
  rtc (child h) k j -> tc (child h) j j -> exists k1, child h k k1 ∧ rtc (child h) k1 j.
Proof.
  intros Hr Hc. inversion Hr as [|? k1 ? Hk Hr']; subst; [|by eauto].
  inversion Hc as [? ? Hjj|? y ? Hjy Hy]; subst; [by exists j|].
  exists y. split; [done|by apply tc_rtc].
Qed.

End Paths.

(** ** Termination *)

(** When the recursion does not return with [S n] calls, some path of
    [n + 1] objects starts at one of the components. *)
Lemma checkGapsHeap_None_chain h n ids :
  closed h -> Forall (fun i => is_Some (h !! i)) ids ->
  checkGapsHeap (S n) h ids = None ->
  exists k p, k ∈ ids ∧ length p = n ∧ chain h (k :: p).
Proof.
  intros Hcl. revert ids. induction n as [|n IH]; intros ids Hids [i [Hi Hv]]%checkGapsHeap_S_None.
  - by exists i, [].
  - rewrite Forall_forall in Hids. destruct Hv as [Hv|(nd & Hnd & Hrec)].
    { destruct (Hids i Hi) as [? E]. congruence. }
    destruct (IH _ (Hcl i nd Hnd) Hrec) as (k & p & Hk & Hp & Hc).
    exists i, (k :: p). split_and!; [done|cbn; lia|]. rewrite chain_cons. split; [|done].
    by exists nd.
Qed.

Lemma reaches_cycle_None h ids fuel :
  reaches_cycle h ids -> checkGapsHeap fuel h ids = None.
Proof.
  revert ids. induction fuel as [|fuel IH]; intros ids (k & j & Hk & Hr & Hc); [done|].
  apply checkGapsHeap_S_None. exists k. split; [done|]. right.
  destruct (reaches_cycle_step h k j Hr Hc) as (k1 & (nd & Hnd & Hk1) & Hr1).
  exists nd. split; [done|]. apply IH. by exists k1, j.
Qed.

(** C31: the audit over the component objects returns exactly when no
    component reachable from the BOM is its own descendant: then it
    returns within [size h + 1] nested calls, also when objects are shared
    between parents; with a cycle it never returns, whatever the stack
    depth (the JavaScript recursion overflows the stack). *)
Theorem checkGapsHeap_terminates h ids :
  closed h -> Forall (fun i => is_Some (h !! i)) ids ->
  (¬ reaches_cycle h ids -> is_Some (checkGapsHeap (S (size h)) h ids)) ∧
  (reaches_cycle h ids -> forall fuel, checkGapsHeap fuel h ids = None).
Proof.
  intros Hcl Hids. split; [|intros Hc fuel; by apply reaches_cycle_None].
  intros Hnc. destruct (checkGapsHeap _ h ids) eqn:E; [by eexists|exfalso].
  destruct (checkGapsHeap_None_chain h _ ids Hcl Hids E) as (k & p & Hk & Hp & Hc).
  assert (Hall : Forall (fun x => is_Some (h !! x)) (k :: p)).
  { apply chain_alloc; [done| |done]. rewrite Forall_forall in Hids. by apply Hids. }
  destruct (decide (NoDup (k :: p))) as [Hnd|Hnd].
  - pose proof (pigeonhole h _ Hall Hnd) as Hle. cbn in Hle. lia.
  - destruct (chain_dup_cycle h k p Hc Hnd) as (j & Hr & Hj). apply Hnc. by exists k, j.
Qed.

(** ** The heap audit on a tree is the tree audit *)

Section TreeHeap.
Variable h : Heap.

Lemma repo_add_id_cid c repo : repo_add_id (cid c) (cid <$> repo) = cid <$> repo_add c repo.
Proof. unfold repo_add_id, repo_add. case_bool_decide; [done|]. by rewrite fmap_app. Qed.

Lemma fold_repo_add_id_cid sub w :
  fold_left (fun repo j => repo_add_id j repo) (cid <$> sub) (cid <$> w) =
  cid <$> fold_left (fun repo c => repo_add c repo) sub w.
Proof. revert w. induction sub as [|c sub IH]; intros w; [done|]. cbn. by rewrite repo_add_id_cid. Qed.

Lemma node_component_of c :
  hasComponentLicenseIncluded (node_component (cid c) (node_of c)) = hasComponentLicenseIncluded c.
Proof. by destruct c. Qed.

Lemma height_child c x f : x ∈ components c -> height c ≤ S f -> height x ≤ f.
Proof.
  destruct c as [i n v ps ls cs]. cbn [height components]. intros Hx Hle.
  assert (height x ≤ foldr Nat.max 0 (map height cs)); [|lia].
  clear Hle. induction cs as [|y cs IH]; [by apply elem_of_nil in Hx|].
  cbn [map foldr]. apply elem_of_cons in Hx as [->|Hx]; [lia|]. specialize (IH Hx). lia.
Qed.

Lemma fold_visit_cid (rec : list nat -> option (list nat)) cs acc :
  Forall (fun c => forall repo,
            gaps_visit rec h (cid <$> repo) (cid c) = Some (cid <$> checkLicenseGapsStep c repo)) cs ->
  fold_left (fun o i => o ≫= fun r => gaps_visit rec h r i) (cid <$> cs) (Some (cid <$> acc)) =
  Some (cid <$> fold_left (fun acc c => checkLicenseGapsStep c acc) cs acc).
Proof.
  intros Hall. revert acc. induction Hall as [|c cs Hc _ IH]; intros acc; [done|].
  cbn [fmap list_fmap fold_left mbind option_bind]. by rewrite Hc, IH.
Qed.

(** One visit of the heap audit mirrors one step of the tree audit, given
    enough stack for the component's subtree. *)
Lemma visit_tree c :
  (forall x, x ∈ preorder c -> h !! cid x = Some (node_of x)) ->
  forall f repo, height c ≤ f ->
  gaps_visit (checkGapsHeap f h) h (cid <$> repo) (cid c) = Some (cid <$> checkLicenseGapsStep c repo).
Proof.
  induction c as [i n v ps ls cs IH] using Component_tree_ind. intros Hh f repo Hf.
  set (c := mkComponent i n v ps ls cs) in *.
  unfold gaps_visit. rewrite (Hh c) by apply elem_of_preorder_self.
  cbn [mbind option_bind]. rewrite node_component_of, step_unfold.
  destruct f as [|f]; [cbn in Hf; lia|]. cbn [checkGapsHeap node_components node_of].
  rewrite (fold_visit_cid _ cs []).
  - cbn [mbind option_bind]. f_equal. rewrite <- fold_repo_add_id_cid.
    by destruct (hasComponentLicenseIncluded c); cbn [negb]; [|rewrite repo_add_id_cid].
  - rewrite Forall_forall in IH |- *. intros x Hx repo'. apply IH; [done| |].
    + intros y Hy. apply Hh. rewrite preorder_unfold, elem_of_cons, elem_of_preorder_list. eauto.
    + by apply (height_child c).
Qed.

(** When the heap holds the objects of a tree, the audit over the heap
    returns, with enough stack, exactly the identities of the components
    the audit over the tree returns. *)
Lemma checkGapsHeap_tree cs f :
  (forall x, x ∈ preorder_list cs -> h !! cid x = Some (node_of x)) ->
  Forall (fun c => height c ≤ f) cs ->
  checkGapsHeap (S f) h (cid <$> cs) = Some (cid <$> checkLicenseGapsInComponents cs).
Proof.
  intros Hh Hf. apply (fold_visit_cid _ cs []). rewrite Forall_forall in Hf |- *.
  intros c Hc repo. apply visit_tree; [|by apply Hf].
  intros x Hx. apply Hh, elem_of_preorder_list. eauto.
Qed.

End TreeHeap.

Lemma heap_of_lookup cs x :
  NoDup (cid <$> preorder_list cs) -> x ∈ preorder_list cs -> heap_of cs !! cid x = Some (node_of x).
Proof.
  intros Hnd Hx. apply elem_of_list_to_map_1.
  - by rewrite <- list_fmap_compose.
  - apply list_elem_of_fmap. by exists x.
Qed.

(** On the heap of a tree whose components are distinct objects, the
    audit returns the incomplete components in pre-order ([gapsSpec]). *)
Lemma checkGapsHeap_heap_of cs f :
  NoDup (cid <$> preorder_list cs) -> Forall (fun c => height c ≤ f) cs ->
  checkGapsHeap (S f) (heap_of cs) (cid <$> cs) = Some (cid <$> gapsSpec cs).
Proof.
  intros Hnd Hf. rewrite <- audit_spec by done. apply checkGapsHeap_tree; [|done].
  intros x Hx. by apply heap_of_lookup.
Qed.

(** ** Witnesses *)

Lemma checkGapsHeap_terminates_witness :
  closed shared_heap ∧ Forall (fun i => is_Some (shared_heap !! i)) [1] ∧
  ((¬ reaches_cycle shared_heap [1] -> is_Some (checkGapsHeap (S (size shared_heap)) shared_heap [1])) ∧
   (reaches_cycle shared_heap [1] -> forall fuel, checkGapsHeap fuel shared_heap [1] = None)) ∧
  checkGapsHeap (S (size shared_heap)) shared_heap [1] = Some [4].
Proof.
  split; [decide_by_eval|]. split; [decide_by_eval|]. split; [|vm_compute; reflexivity].
  apply checkGapsHeap_terminates; decide_by_eval.
Defined.

End Heap.
