(* ===== verification/HeapWalk.v ===== *)
(** * The attaching walk over shared component objects

    [addLicenseTextsToComponents(components)] (src/src/licensetexts.ts,
    lines 104-110) mutates the component objects in place: for each
    component of the repository it calls [addLicenseTextToComponent], which
    sets [license.text] on the object, and then walks
    [component.components].  When npm deduplication hands two parents the
    same object, the walk reaches that object twice and annotates it twice.
    This file runs the walk over the heap of [Heap] (addresses to [Node]s),
    writing each visited object back at its address, with the stack depth
    as [fuel] ([None]: the recursion does not return or follows a
    reference to nothing).

    The walk is first written for any per-object visit ([Section Walk]).
    The facts in [Section WalkFacts] need only two laws of the visit, both
    proved of [addLicenseTextToComponent] in [LegacyWalk]: the visit
    leaves [components] alone, and a visit that succeeded changes nothing
    when repeated.  Then the second visit of a shared object changes
    nothing.  The walk throws only the read error of a license file found
    for an object it reaches ([addLicenseTextsToComponentsHeap_err]).
    Where every reachable file reads, it never throws.
    Without a reachable cycle it returns within [size h + 1] nested calls,
    and every reachable object ends up as one visit leaves it while every
    other object is untouched.  With a cycle it never returns
    ([addLicenseTextsToComponentsHeap_shared]). *)

From stdpp Require Import gmap.
From S2P Require Import Prelude Model Node Fixtures LicenseTexts LicenseGaps LegacyWalk Heap.
From Stdlib Require Import Init.Byte.

Module HeapWalk.
Import LicenseTexts LegacyWalk Heap.

Section Walk.
Variable visit : nat -> Node -> res unit * Node.

(** The loop of [addLicenseTextsToComponents] over the addresses [ids];
    [rec] is the recursive call on [component.components].  An exception
    stops the walk with the objects mutated so far. *)
Fixpoint attach_list (rec : list nat -> Heap -> option (res unit * Heap))
    (ids : list nat) (h : Heap) : option (res unit * Heap) :=
  match ids with
  | [] => Some (Ok tt, h)
  | i :: ids' =>
      nd ← h !! i;
      let '(r, nd') := visit i nd in
      let h1 := <[i := nd']> h in
      match r with
      | Err e => Some (Err e, h1)
      | Ok _ =>
          o ← rec (node_components nd') h1;
          match o with
          | (Ok _, h2) => attach_list rec ids' h2
          | (Err e, h2) => Some (Err e, h2)
          end
      end
  end.

(** [addLicenseTextsToComponents(components)] with [fuel] nested calls
    left on the stack. *)
Fixpoint attachHeap (fuel : nat) : list nat -> Heap -> option (res unit * Heap) :=
  match fuel with
  | 0 => fun _ _ => None
  | S fuel' => attach_list (attachHeap fuel')
  end.

End Walk.

(** [addLicenseTextToComponent(component)] on the object at address [i]:
    the fields it may set are written back to the object, whose
    [components] it does not touch. *)
Definition visit_node (fs : FileSystem) (i : nat) (nd : Node) : res unit * Node :=
  let '(r, c) := addLicenseTextToComponent fs (node_component i nd) in
  (r, mkNode (name c) (version c) (properties c) (licenses c) (node_components nd)).

(** The walk of the legacy pass over the objects of the heap. *)
Definition addLicenseTextsToComponentsHeap (fs : FileSystem) : nat -> list nat -> Heap -> option (res unit * Heap) :=
  attachHeap (visit_node fs).

(** The addresses the walk from [ids] reaches. *)
Definition reach (h : Heap) (ids : list nat) (x : nat) : Prop :=
  exists k, k ∈ ids ∧ rtc (child h) k x.

(** Every path of the object graph from [ids] has fewer than [n] steps. *)
Definition bounded (h : Heap) (n : nat) (ids : list nat) : Prop :=
  forall k p, k ∈ ids -> chain h (k :: p) -> length p < n.

(** A numbering of the objects that decreases from parent to child: a
    certificate that the graph has no cycle. *)
Definition ranked (h : Heap) (rk : nat -> nat) : Prop :=
  map_Forall (fun i nd => Forall (fun j => rk j < rk i) (node_components nd)) h.

#[global] Instance ranked_dec h rk : Decision (ranked h rk).
Proof. unfold ranked. apply _. Defined.

Section Spec.
Variable visit : nat -> Node -> res unit * Node.
Variable h : Heap.

(** The objects of [g] are those of [h], some of them visited once. *)
Definition visited (g : Heap) : Prop :=
  forall i, g !! i = h !! i ∨ exists nd, h !! i = Some nd ∧ g !! i = Some (visit i nd).2.

(** Each object reachable from [ids] exists and its visit succeeds. *)
Definition walk_ok (ids : list nat) : Prop :=
  forall x, reach h ids x -> exists nd, h !! x = Some nd ∧ (visit x nd).1 = Ok tt.

(** The walk from [ids] took [g] to [g']: every object it reaches is as
    one visit leaves the original, every other object is as in [g]. *)
Definition walked (ids : list nat) (g g' : Heap) : Prop :=
  forall x, (reach h ids x -> g' !! x = (fun nd => (visit x nd).2) <$> h !! x) ∧
            (g' !! x = g !! x ∨ reach h ids x).

(** The objects of [g] are those of [h], some of them after a visit that
    succeeded. *)
Definition visited_ok (g : Heap) : Prop :=
  forall i, g !! i = h !! i ∨
    exists nd, h !! i = Some nd ∧ visit i nd = (Ok tt, (visit i nd).2) ∧ g !! i = Some (visit i nd).2.

End Spec.

(** A BOM whose dependencies [a] and [b] share the object of [pkg], which
    declares MIT and is installed at [pkg]. *)
Definition shared_pkg_heap : Heap :=
  list_to_map [(1, mkNode "root" (Some "1.0.0") [] [mit] [2; 3]);
               (2, mkNode "a" (Some "1.0.0") [] [mit] [4]);
               (3, mkNode "b" (Some "2.0.0") [] [mit] [4]);
               (4, node_of (npm_pkg 4 "pkg"))].

(** ** Lemmas *)

(** *** Reachability and path length *)

Section Graph.
Variable h : Heap.

Lemma reach_nil x : ¬ reach h [] x.
Proof. intros (k & Hk & _). by apply elem_of_nil in Hk. Qed.

Lemma reach_cons i ids x : reach h (i :: ids) x <-> rtc (child h) i x ∨ reach h ids x.
Proof.
  unfold reach. setoid_rewrite elem_of_cons. split.
  - intros (k & [->|Hk] & Hr); eauto.
  - intros [Hr|(k & Hk & Hr)]; eauto.
Qed.

(** The objects reachable from [i] are [i] and those reachable from its
    components. *)
Lemma reach_node i nd x :
  h !! i = Some nd -> rtc (child h) i x <-> x = i ∨ reach h (node_components nd) x.
Proof.
  intros Hi. split.
  - intros [->|(y & (nd' & Hnd' & Hy) & Hr)]%rtc_inv; [by left|right].
    rewrite Hi in Hnd'. injection Hnd' as <-. by exists y.
  - intros [->|(y & Hy & Hr)]; [done|]. apply (rtc_l _ _ y); [|done]. by exists nd.
Qed.

Lemma reach_child i nd x :
  h !! i = Some nd -> reach h (node_components nd) x -> reach h [i] x.
Proof. intros Hi Hx. apply reach_cons. left. apply (reach_node i nd); auto. Qed.

Lemma bounded_cons n i ids : bounded h n (i :: ids) -> bounded h n ids.
Proof. intros Hb k p Hk. apply Hb. by right. Qed.

Lemma bounded_zero i ids : ¬ bounded h 0 (i :: ids).
Proof. intros Hb. specialize (Hb i [] (list_elem_of_here _ _) I). cbn in Hb. lia. Qed.

(** The components of an object are one step closer to the leaves. *)
Lemma bounded_children n i ids nd :
  bounded h (S n) (i :: ids) -> h !! i = Some nd -> bounded h n (node_components nd).
Proof.
  intros Hb Hi k p Hk Hc. assert (Hc' : chain h (i :: k :: p)).
  { rewrite chain_cons. split; [by exists nd|done]. }
  specialize (Hb i (k :: p) (list_elem_of_here _ _) Hc'). cbn in Hb. lia.
Qed.

Lemma chain_rtc k p : chain h (k :: p) -> Forall (rtc (child h) k) (k :: p).
Proof.
  revert k. induction p as [|y p IH]; intros k; [by repeat constructor|].
  rewrite chain_cons. intros [Hky Hc]. constructor; [done|].
  eapply Forall_impl; [by apply IH|]. intros x Hx. by apply (rtc_l _ _ y).
Qed.

(** Without a reachable cycle, no path from [ids] is longer than the heap
    is large (pigeonhole). *)
Lemma acyclic_bounded ids :
  (forall x, reach h ids x -> is_Some (h !! x)) -> ¬ reaches_cycle h ids ->
  bounded h (size h) ids.
Proof.
  intros Halloc Hnc k p Hk Hc. destruct (decide (NoDup (k :: p))) as [Hnd|Hnd].
  - assert (Hall : Forall (fun x => is_Some (h !! x)) (k :: p)).
    { eapply Forall_impl; [by apply chain_rtc|]. intros x Hx. apply Halloc. by exists k. }
    pose proof (pigeonhole h _ Hall Hnd) as Hle. cbn in Hle. lia.
  - destruct (chain_dup_cycle h k p Hc Hnd) as (j & Hr & Hj). destruct Hnc. by exists k, j.
Qed.

Lemma ranked_tc rk a b : ranked h rk -> tc (child h) a b -> rk b < rk a.
Proof.
  intros Hrk. induction 1 as [a b (nd & Hnd & Hb)|a y b (nd & Hnd & Hy) _ IH].
  - pose proof (map_Forall_lookup_1 _ _ _ _ Hrk Hnd) as H. cbn beta in H.
    rewrite Forall_forall in H. by apply H.
  - pose proof (map_Forall_lookup_1 _ _ _ _ Hrk Hnd) as H. cbn beta in H.
    rewrite Forall_forall in H. specialize (H y Hy). lia.
Qed.

Lemma ranked_no_cycle rk ids : ranked h rk -> ¬ reaches_cycle h ids.
Proof. intros Hrk (k & j & _ & _ & Hj). pose proof (ranked_tc rk j j Hrk Hj). lia. Qed.

(** In a closed heap, everything reachable from allocated objects is
    allocated. *)
Lemma reach_alloc ids x :
  closed h -> Forall (fun i => is_Some (h !! i)) ids -> reach h ids x -> is_Some (h !! x).
Proof.
  intros Hcl Hids (k & Hk & Hr). rewrite Forall_forall in Hids. specialize (Hids k Hk). clear Hk. revert Hids.
  induction Hr as [|a y b (nd & Hnd & Hy) _ IH]; [done|]. intros _. apply IH.
  pose proof (map_Forall_lookup_1 _ _ _ _ Hcl Hnd) as H. cbn beta in H.
  rewrite Forall_forall in H. by apply H.
Qed.

End Graph.

(** *** The walk, for any visit with the two laws *)

Section WalkFacts.
Variable visit : nat -> Node -> res unit * Node.
Hypothesis visit_components : forall i nd, node_components (visit i nd).2 = node_components nd.
Hypothesis visit_again : forall i nd nd', visit i nd = (Ok tt, nd') -> visit i nd' = (Ok tt, nd').
Variable h : Heap.

Lemma visit_ok_eq i nd : (visit i nd).1 = Ok tt -> visit i nd = (Ok tt, (visit i nd).2).
Proof. destruct (visit i nd) as [[[]|] ?]; cbn; congruence. Qed.

(** An object reached a second time is visited again, to the same
    result. *)
Lemma visited_lookup g i nd :
  visited visit h g -> h !! i = Some nd -> (visit i nd).1 = Ok tt ->
  exists ndg, g !! i = Some ndg ∧ visit i ndg = (Ok tt, (visit i nd).2).
Proof.
  intros Hg Hi Hok%visit_ok_eq. destruct (Hg i) as [E|(nd0 & E0 & E)].
  - exists nd. by rewrite E, Hi.
  - rewrite Hi in E0. injection E0 as <-. exists (visit i nd).2. split; [done|]. by apply (visit_again i nd).
Qed.

Lemma visited_insert g i nd :
  visited visit h g -> h !! i = Some nd -> visited visit h (<[i := (visit i nd).2]> g).
Proof.
  intros Hg Hi j. rewrite lookup_insert. case_decide; [subst; right; by exists nd|apply Hg].
Qed.

Lemma walked_visited ids g g' :
  visited visit h g -> walked visit h ids g g' -> visited visit h g'.
Proof.
  intros Hg Hw i. destruct (Hw i) as [Hr [E|R]]; [rewrite E; apply Hg|].
  specialize (Hr R). destruct (h !! i) as [nd|] eqn:Hi; [right; by exists nd|left; by rewrite Hr].
Qed.

Lemma walked_nil g : walked visit h [] g g.
Proof. intros x. split; [intros Hx; by apply reach_nil in Hx|by left]. Qed.

(** The effect of one iteration followed by the rest of the loop. *)
Lemma walked_cons i nd ids g g2 g3 :
  h !! i = Some nd ->
  walked visit h (node_components nd) (<[i := (visit i nd).2]> g) g2 ->
  walked visit h ids g2 g3 -> walked visit h (i :: ids) g g3.
Proof.
  intros Hi H2 H3 x. rewrite reach_cons, (reach_node h i nd x Hi).
  destruct (H2 x) as [H2r H2n], (H3 x) as [H3r H3n]. split.
  - intros [Hx|Hx]; [|by apply H3r]. destruct H3n as [->|R3]; [|by apply H3r].
    destruct Hx as [->|Hx]; [|by apply H2r]. destruct H2n as [->|R2]; [|by apply H2r].
    by rewrite lookup_insert_eq, Hi.
  - destruct H3n as [->|R3]; [|by right; right]. destruct H2n as [->|R2]; [|by right; left; right].
    destruct (decide (x = i)) as [->|Hne]; [by right; left; left|left].
    by rewrite lookup_insert_ne by congruence.
Qed.

Lemma walk_ok_cons i ids : walk_ok visit h (i :: ids) -> walk_ok visit h ids.
Proof. intros Hok x Hx. apply Hok, reach_cons. by right. Qed.

Lemma walk_ok_children i ids nd :
  walk_ok visit h (i :: ids) -> h !! i = Some nd -> walk_ok visit h (node_components nd).
Proof.
  intros Hok Hi x Hx. apply Hok, reach_cons. left. apply (reach_node h i nd x Hi). by right.
Qed.

Lemma walk_ok_head i ids :
  walk_ok visit h (i :: ids) -> exists nd, h !! i = Some nd ∧ (visit i nd).1 = Ok tt.
Proof. intros Hok. apply Hok, reach_cons. by left. Qed.

(** One iteration of the loop, when the object exists and its visit
    succeeds: visit, write back, recurse. *)
Lemma attach_list_step rec i ids g nd ndg :
  g !! i = Some ndg -> visit i ndg = (Ok tt, (visit i nd).2) ->
  node_components (visit i nd).2 = node_components nd ->
  attach_list visit rec (i :: ids) g =
  o ← rec (node_components nd) (<[i := (visit i nd).2]> g);
  match o with
  | (Ok _, h2) => attach_list visit rec ids h2
  | (Err e, h2) => Some (Err e, h2)
  end.
Proof. intros Hgi Hvg Hc. cbn [attach_list]. rewrite Hgi. cbn [mbind option_bind]. by rewrite Hvg, Hc. Qed.

(** The loop completes when the recursive call does, on components one
    step closer to the leaves. *)
Lemma attach_list_spec (rec : list nat -> Heap -> option (res unit * Heap)) n :
  (forall ids g, bounded h n ids -> walk_ok visit h ids -> visited visit h g ->
     exists g', rec ids g = Some (Ok tt, g') ∧ walked visit h ids g g') ->
  forall ids g, bounded h (S n) ids -> walk_ok visit h ids -> visited visit h g ->
  exists g', attach_list visit rec ids g = Some (Ok tt, g') ∧ walked visit h ids g g'.
Proof.
  intros Hrec ids. induction ids as [|i ids IH]; intros g Hb Hok Hg.
  { exists g. split; [done|apply walked_nil]. }
  destruct (walk_ok_head i ids Hok) as (nd & Hi & Hv).
  destruct (visited_lookup g i nd Hg Hi Hv) as (ndg & Hgi & Hvg).
  destruct (Hrec (node_components nd) (<[i := (visit i nd).2]> g)) as (g2 & Hr2 & Hw2).
  { by apply (bounded_children h n i ids). }
  { by apply (walk_ok_children i ids). }
  { by apply visited_insert. }
  destruct (IH g2) as (g3 & Hr3 & Hw3).
  { by apply bounded_cons in Hb. }
  { by apply walk_ok_cons in Hok. }
  { by apply (walked_visited _ _ _ (visited_insert g i nd Hg Hi)) in Hw2. }
  exists g3. split; [|by apply (walked_cons i nd ids g g2 g3)].
  rewrite (attach_list_step _ i ids g nd ndg Hgi Hvg (visit_components i nd)), Hr2. exact Hr3.
Qed.

(** With fuel for the longest path, the walk completes and visits every
    reachable object as one visit would. *)
Lemma attachHeap_spec n : forall ids g,
  bounded h n ids -> walk_ok visit h ids -> visited visit h g ->
  exists g', attachHeap visit (S n) ids g = Some (Ok tt, g') ∧ walked visit h ids g g'.
Proof.
  induction n as [|n IH]; intros ids g Hb Hok Hg.
  - destruct ids as [|i ids]; [|by apply bounded_zero in Hb].
    exists g. split; [done|apply walked_nil].
  - by apply (attach_list_spec _ n).
Qed.

(** *** Where the walk throws *)

(** Visiting the current version of an object: it comes from the
    original, has its components, and throws only as the original's visit
    does. *)
Lemma visited_ok_step g i ndg :
  visited_ok visit h g -> g !! i = Some ndg ->
  exists nd, h !! i = Some nd ∧ node_components ndg = node_components nd ∧
    ((visit i ndg).1 = Ok tt -> visited_ok visit h (<[i := (visit i ndg).2]> g)) ∧
    (forall e, (visit i ndg).1 = Err e -> (visit i nd).1 = Err e).
Proof.
  intros Hg Hgi.
  assert (Hins : forall nd, h !! i = Some nd -> visit i nd = (Ok tt, (visit i nd).2) ->
            visited_ok visit h (<[i := (visit i nd).2]> g)).
  { intros nd Hi Hv j. rewrite lookup_insert. case_decide; [subst; right; by exists nd|apply Hg]. }
  destruct (Hg i) as [E|(nd & Hi & Hv & E)]; rewrite Hgi in E.
  - exists ndg. split_and!; [done|done| |done]. intros Hok%visit_ok_eq. by apply Hins.
  - injection E as ->. pose proof (visit_again i nd _ Hv) as Hv'. exists nd.
    split_and!; [done|apply visit_components| |]; rewrite Hv'; [intros _; by apply Hins|done].
Qed.

Lemma attachHeap_ok_visited f : forall ids g g',
  visited_ok visit h g -> attachHeap visit f ids g = Some (Ok tt, g') -> visited_ok visit h g'.
Proof.
  induction f as [|f IHf]; [done|]. cbn [attachHeap].
  intros ids. induction ids as [|i ids IH]; intros g g' Hg H; cbn [attach_list] in H; [by simplify_eq|].
  destruct (g !! i) as [ndg|] eqn:Hgi; [|done]. cbn [mbind option_bind] in H.
  destruct (visited_ok_step g i ndg Hg Hgi) as (nd & _ & _ & Hok & _).
  destruct (visit i ndg) as [[[]|e'] nd''] eqn:Hv; cbv beta iota zeta in H; [|done].
  cbn [fst snd] in Hok.
  destruct (attachHeap visit f _ _) as [[[[]|e''] g2]|] eqn:Hr; cbn [mbind option_bind] in H; try done.
  apply (IH g2 g'); [|done]. apply (IHf (node_components nd'') (<[i := nd'']> g)); [by apply Hok|done].
Qed.

(** An exception of the walk is the exception of visiting the original
    of an object it reaches. *)
Lemma attachHeap_err f : forall ids g g' e,
  visited_ok visit h g -> attachHeap visit f ids g = Some (Err e, g') ->
  exists x nd, reach h ids x ∧ h !! x = Some nd ∧ (visit x nd).1 = Err e.
Proof.
  induction f as [|f IHf]; [done|]. cbn [attachHeap].
  intros ids. induction ids as [|i ids IH]; intros g g' e Hg H; cbn [attach_list] in H; [done|].
  destruct (g !! i) as [ndg|] eqn:Hgi; [|done]. cbn [mbind option_bind] in H.
  destruct (visited_ok_step g i ndg Hg Hgi) as (nd & Hi & Hc & Hok & Herr).
  destruct (visit i ndg) as [[[]|e'] nd''] eqn:Hv; cbv beta iota zeta in H; cbn [fst snd] in Hok, Herr.
  - specialize (Hok eq_refl). pose proof (visit_components i ndg) as Hc''. rewrite Hv in Hc''.
    cbn [snd] in Hc''. rewrite Hc'', Hc in H.
    destruct (attachHeap visit f _ _) as [[[[]|e''] g2]|] eqn:Hr; cbn [mbind option_bind] in H; try done.
    + destruct (IH g2 g' e) as (x & ndx & Hx & ?); [by apply (attachHeap_ok_visited f _ _ _ Hok Hr)|done|].
      exists x, ndx. split; [|done]. apply reach_cons. by right.
    + injection H as -> _. destruct (IHf _ _ _ e Hok Hr) as (x & ndx & Hx & ?).
      exists x, ndx. split; [|done]. apply reach_cons. left. apply (reach_node h i nd x Hi). by right.
  - injection H as -> _. exists i, nd. split_and!; [apply reach_cons; by left|done|by apply Herr].
Qed.

(** Where every visit succeeds, the walk never throws: it returns
    normally or not at all. *)
Lemma attachHeap_no_throw f : forall ids g,
  walk_ok visit h ids -> visited visit h g ->
  attachHeap visit f ids g = None ∨
  exists g', attachHeap visit f ids g = Some (Ok tt, g') ∧ visited visit h g'.
Proof.
  induction f as [|f IHf]; [by left|]. cbn [attachHeap].
  intros ids. induction ids as [|i ids IH]; intros g Hok Hg; [right; by exists g|].
  destruct (walk_ok_head i ids Hok) as (nd & Hi & Hv).
  destruct (visited_lookup g i nd Hg Hi Hv) as (ndg & Hgi & Hvg).
  rewrite (attach_list_step _ i ids g nd ndg Hgi Hvg (visit_components i nd)).
  destruct (IHf (node_components nd) (<[i := (visit i nd).2]> g)) as [->|(g2 & -> & Hg2)];
    [by apply (walk_ok_children i ids)|by apply visited_insert|by left|].
  apply IH; [by apply walk_ok_cons in Hok|done].
Qed.

(** From a reachable cycle the walk never returns, whatever the stack
    depth. *)
Lemma attachHeap_cycle f : forall ids g,
  reaches_cycle h ids -> walk_ok visit h ids -> visited visit h g ->
  attachHeap visit f ids g = None.
Proof.
  induction f as [|f IHf]; [done|]. cbn [attachHeap].
  intros ids. induction ids as [|i ids IH]; intros g Hc Hok Hg.
  { destruct Hc as (k & _ & Hk & _). by apply elem_of_nil in Hk. }
  destruct (walk_ok_head i ids Hok) as (nd & Hi & Hv).
  destruct (visited_lookup g i nd Hg Hi Hv) as (ndg & Hgi & Hvg).
  rewrite (attach_list_step _ i ids g nd ndg Hgi Hvg (visit_components i nd)).
  destruct Hc as (k & j & [->|Hk]%elem_of_cons & Hr & Hj).
  - destruct (reaches_cycle_step h i j Hr Hj) as (k1 & (nd' & Hnd' & Hk1) & Hr1).
    rewrite Hi in Hnd'. injection Hnd' as <-.
    rewrite IHf; [done|by exists k1, j|by apply (walk_ok_children i ids)|by apply visited_insert].
  - destruct (attachHeap_no_throw f (node_components nd) (<[i := (visit i nd).2]> g))
      as [->|(g2 & -> & Hg2)]; [by apply (walk_ok_children i ids)|by apply visited_insert|done|].
    apply IH; [by exists k, j|by apply walk_ok_cons in Hok|done].
Qed.

End WalkFacts.

(** *** The visit of the legacy pass has the two laws *)

Section Legacy.
Variable fs : FileSystem.

Lemma visit_node_components i nd : node_components (visit_node fs i nd).2 = node_components nd.
Proof. unfold visit_node. by destruct (addLicenseTextToComponent fs _). Qed.

Lemma visit_node_ok i nd : reads_ok fs (node_component i nd) -> (visit_node fs i nd).1 = Ok tt.
Proof.
  intros Hr%(visit_ok fs). unfold visit_node. by destruct (addLicenseTextToComponent fs _).
Qed.

Lemma visit_node_err i nd e :
  (visit_node fs i nd).1 = Err e ->
  exists f ct, (f, ct) ∈ searchLicenseSources fs (getComponentInstallPath (node_component i nd)) "" ∧
    readFileSync fs f = Err e.
Proof.
  intros H. apply visit_err. unfold visit_node in H. by destruct (addLicenseTextToComponent fs _).
Qed.

(** The object written back reads as the component the visit returned. *)
Lemma visit_node_component i nd :
  let c := (addLicenseTextToComponent fs (node_component i nd)).2 in
  node_component i (mkNode (name c) (version c) (properties c) (licenses c) (node_components nd)) = c.
Proof.
  destruct (addLicenseTextToComponent_head fs (node_component i nd)) as [Hh Hc].
  destruct (addLicenseTextToComponent fs _) as [r [i' n v ps ls cs]]. cbn in Hh, Hc |- *.
  injection Hh as ->. by subst.
Qed.

Lemma visit_node_again i nd nd' :
  visit_node fs i nd = (Ok tt, nd') -> visit_node fs i nd' = (Ok tt, nd').
Proof.
  pose proof (visit_node_component i nd) as Hnc. unfold visit_node in *.
  destruct (addLicenseTextToComponent fs (node_component i nd)) as [r c] eqn:E.
  intros [= -> <-]. cbn [snd] in Hnc. rewrite Hnc, (visit_idem fs _ _ E). done.
Qed.

End Legacy.

(** The precondition of the walk, from the readability of the files its
    searches find. *)
Lemma reads_walk_ok fs h ids :
  (forall x, reach h ids x -> exists nd, h !! x = Some nd ∧ reads_ok fs (node_component x nd)) ->
  walk_ok (visit_node fs) h ids.
Proof. intros Hrd x (nd & Hnd & Hr)%Hrd. exists nd. split; [done|by apply visit_node_ok]. Qed.

(** Without a reachable cycle and with readable files, the legacy walk
    completes within [size h + 1] nested calls and leaves each reachable
    object as one visit leaves it. *)
Lemma addLicenseTextsToComponentsHeap_walked fs h ids :
  ¬ reaches_cycle h ids ->
  (forall x, reach h ids x -> exists nd, h !! x = Some nd ∧ reads_ok fs (node_component x nd)) ->
  exists h', addLicenseTextsToComponentsHeap fs (S (size h)) ids h = Some (Ok tt, h') ∧
    walked (visit_node fs) h ids h h'.
Proof.
  intros Hnc Hrd.
  apply (attachHeap_spec (visit_node fs) (visit_node_components fs) (visit_node_again fs));
    [|by apply reads_walk_ok|intros i; by left].
  apply acyclic_bounded; [|done]. intros x (nd & Hnd & _)%Hrd. by exists nd.
Qed.

(** ** Properties *)

(** C18: the legacy walk over component objects that may be shared
    between parents (npm deduplication), when every license file the
    searches find reads, returns exactly when no cycle is reachable.  It
    then returns normally within [size h + 1] nested calls.  Every
    reachable object, also one reached through two parents, ends up
    exactly as one [addLicenseTextToComponent] leaves it, and every other
    object is left alone.  With a cycle it never returns, whatever the
    stack depth. *)
Theorem addLicenseTextsToComponentsHeap_shared fs h ids :
  (forall x, reach h ids x -> exists nd, h !! x = Some nd ∧ reads_ok fs (node_component x nd)) ->
  (¬ reaches_cycle h ids ->
   exists h', addLicenseTextsToComponentsHeap fs (S (size h)) ids h = Some (Ok tt, h') ∧
     forall x, (reach h ids x -> h' !! x = (fun nd => (visit_node fs x nd).2) <$> h !! x) ∧
               (¬ reach h ids x -> h' !! x = h !! x)) ∧
  (reaches_cycle h ids -> forall fuel, addLicenseTextsToComponentsHeap fs fuel ids h = None).
Proof.
  intros Hrd. split; [intros Hnc|intros Hc fuel].
  - destruct (addLicenseTextsToComponentsHeap_walked fs h ids Hnc Hrd) as (h' & Hr & Hw).
    exists h'. split; [done|]. intros x. destruct (Hw x) as [Hr' Hn]. split; [done|].
    intros Hx. by destruct Hn.
  - apply (attachHeap_cycle (visit_node fs) (visit_node_components fs) (visit_node_again fs) h);
      [done|by apply reads_walk_ok|intros i; by left].
Qed.

(** C33: over component objects that may be shared between parents,
    the only exception the legacy walk throws, at any stack depth, is the
    read error of a license file that the search finds at the install
    path of an object the walk reaches. *)
Theorem addLicenseTextsToComponentsHeap_err fs f ids h h' e :
  addLicenseTextsToComponentsHeap fs f ids h = Some (Err e, h') ->
  exists x nd fl ct, reach h ids x ∧ h !! x = Some nd ∧
    (fl, ct) ∈ searchLicenseSources fs (getComponentInstallPath (node_component x nd)) "" ∧
    readFileSync fs fl = Err e.
Proof.
  intros H. destruct (attachHeap_err (visit_node fs) (visit_node_components fs) (visit_node_again fs)
                        h f ids h h' e) as (x & nd & Hx & Hnd & Hv); [intros i; by left|done|].
  destruct (visit_node_err fs x nd e Hv) as (fl & ct & ?). by exists x, nd, fl, ct.
Qed.

(** ** Witnesses *)

(** Two dependencies share the object of [pkg]: the walk attaches the
    base64 of [pkg/LICENSE] to it, and leaves [a]'s text alone. *)
Lemma addLicenseTextsToComponentsHeap_shared_witness :
  let fs := dir_fs "pkg" [("LICENSE", text_bytes "MIT License")] in
  let h := shared_pkg_heap in
  (forall x, reach h [1] x -> exists nd, h !! x = Some nd ∧ reads_ok fs (node_component x nd)) ∧
  ¬ reaches_cycle h [1] ∧
  ((¬ reaches_cycle h [1] ->
    exists h', addLicenseTextsToComponentsHeap fs (S (size h)) [1] h = Some (Ok tt, h') ∧
      forall x, (reach h [1] x -> h' !! x = (fun nd => (visit_node fs x nd).2) <$> h !! x) ∧
                (¬ reach h [1] x -> h' !! x = h !! x)) ∧
   (reaches_cycle h [1] -> forall fuel, addLicenseTextsToComponentsHeap fs fuel [1] h = None)) ∧
  (fun r => (node_licenses <$> r.2 !! 4, node_licenses <$> r.2 !! 2)) <$>
    addLicenseTextsToComponentsHeap fs (S (size h)) [1] h =
  Some (Some [Disjunctive (NamedLicense "MIT"
                (Some (mkAttachment "TUlUIExpY2Vuc2U=" (Some Base64) (Some "text/plain"))))],
        Some [mit]).
Proof.
  cbv zeta.
  assert (Hok : forall x, reach shared_pkg_heap [1] x -> exists nd, shared_pkg_heap !! x = Some nd ∧
            reads_ok (dir_fs "pkg" [("LICENSE", text_bytes "MIT License")]) (node_component x nd)).
  { intros x Hx.
    destruct (reach_alloc shared_pkg_heap [1] x ltac:(decide_by_eval) ltac:(decide_by_eval) Hx) as [nd Hnd].
    exists nd. split; [done|].
    assert (Hall : map_Forall (fun i nd =>
              reads_ok (dir_fs "pkg" [("LICENSE", text_bytes "MIT License")]) (node_component i nd))
              shared_pkg_heap) by decide_by_eval.
    exact (map_Forall_lookup_1 _ _ _ _ Hall Hnd). }
  split; [exact Hok|]. split; [apply (ranked_no_cycle _ (fun i => 5 - i)); decide_by_eval|].
  split; [exact (addLicenseTextsToComponentsHeap_shared _ shared_pkg_heap [1] Hok)|].
  vm_compute. reflexivity.
Defined.

(** The shared package holds a directory named [LICENSE]: the walk
    throws EISDIR for it. *)
Lemma addLicenseTextsToComponentsHeap_err_witness :
  let fs := dir_fs "pkg/LICENSE" [] in
  let r := addLicenseTextsToComponentsHeap fs 5 [1] shared_pkg_heap in
  r = Some (Err (FsError "EISDIR" "read" "pkg/LICENSE"), from_option snd ∅ r) ∧
  exists x nd fl ct, reach shared_pkg_heap [1] x ∧ shared_pkg_heap !! x = Some nd ∧
    (fl, ct) ∈ searchLicenseSources fs (getComponentInstallPath (node_component x nd)) "" ∧
    readFileSync fs fl = Err (FsError "EISDIR" "read" "pkg/LICENSE").
Proof.
  cbv zeta. split; [vm_compute; reflexivity|].
  apply (addLicenseTextsToComponentsHeap_err _ 5 [1] shared_pkg_heap
           (from_option snd ∅ (addLicenseTextsToComponentsHeap (dir_fs "pkg/LICENSE" []) 5 [1] shared_pkg_heap))).
  vm_compute. reflexivity.
Defined.

End HeapWalk.
