(* ===== verification/HeapRun.v ===== *)
(** * A generation run over shared component objects

    The generator calls [addLicenseTextsToBom(bom, packageFile)] and then
    [checkLicenseGaps(bom)] on the same component objects
    (src/src/licensetexts.ts, lines 118-121 and 161-170).  This file runs
    both passes over the heap of [Heap]: the attaching walk of [HeapWalk],
    the [console.log(packageFile)], then the audit [checkGapsHeap] and its
    report, with the stack depth as fuel for both recursions.

    The audit is characterised on any heap without a reachable cycle
    ([checkGapsHeap_spec]).  It returns every reachable object whose
    license evidence is incomplete, and no other.  It lists each of them
    once, also an object reached through two parents, because
    [ComponentRepository.add] ignores an object it already holds.  The
    walk leaves the object graph as it was ([visited_child]), so the audit
    sees the graph the walk saw.  The run then reports exactly the
    reachable objects that stay incomplete after annotation
    ([licenseRunHeap_gaps]). *)

From stdpp Require Import gmap.
From S2P Require Import Prelude Model Node Fixtures LicenseTexts LicenseGaps LegacyWalk Heap HeapWalk.
From Stdlib Require Import Init.Byte.

Module HeapRun.
Import LicenseGaps LegacyWalk Heap HeapWalk.

(** The line [checkLicenseGaps] prints for the object at address [i]. *)
Definition gapLineAt (h : Heap) (i : nat) : string :=
  from_option (fun nd => gapLine (node_component i nd)) "" (h !! i).

(** [checkLicenseGaps(bom)] over the objects: the audit, then the report
    and the exception when it found gaps.  [out] is the output so far. *)
Definition checkLicenseGapsHeap (fuel : nat) (ids : list nat) (h : Heap) (out : list string)
    : option (res unit * list string) :=
  componentsWOLics ← checkGapsHeap fuel h ids;
  if bool_decide (0 < length componentsWOLics) then
    Some (Err gapError,
          out ++ gapHeader (length componentsWOLics) :: map (gapLineAt h) componentsWOLics)
  else Some (Ok tt, out).

(** [addLicenseTextsToBom(bom, packageFile)] then [checkLicenseGaps(bom)]
    on the objects of the heap: the state is the heap and the output. *)
Definition licenseRunHeap (fs : FileSystem) (fuel : nat) (packageFile : string)
    (ids : list nat) (h : Heap) (out : list string)
    : option (res unit * (Heap * list string)) :=
  o ← addLicenseTextsToComponentsHeap fs fuel ids h;
  match o with
  | (Err e, h') => Some (Err e, (h', out))
  | (Ok _, h') =>
      r ← checkLicenseGapsHeap fuel ids h' (out ++ [packageFile]);
      Some (r.1, (h', r.2))
  end.

(** The object at [x] exists and its license evidence is incomplete. *)
Definition gap (h : Heap) (x : nat) : Prop :=
  exists nd, h !! x = Some nd ∧ hasComponentLicenseIncluded (node_component x nd) = false.

(** ** Lemmas *)

(** *** The repository of gaps *)

Lemma elem_of_repo_add_id x i repo : x ∈ repo_add_id i repo <-> x = i ∨ x ∈ repo.
Proof.
  unfold repo_add_id. case_bool_decide as Hi.
  - split; [by right|]. by intros [->|?].
  - rewrite elem_of_app, list_elem_of_singleton. tauto.
Qed.

Lemma repo_add_id_NoDup i repo : NoDup repo -> NoDup (repo_add_id i repo).
Proof.
  intros Hnd. unfold repo_add_id. case_bool_decide as Hi; [done|].
  apply NoDup_app. split_and!; [done| |apply NoDup_singleton].
  intros x Hx ->%list_elem_of_singleton. contradiction.
Qed.

Lemma fold_repo_add_id_spec sub w :
  NoDup w ->
  NoDup (fold_left (fun repo j => repo_add_id j repo) sub w) ∧
  forall x, x ∈ fold_left (fun repo j => repo_add_id j repo) sub w <-> x ∈ sub ∨ x ∈ w.
Proof.
  revert w. induction sub as [|j sub IH]; intros w Hnd; cbn [fold_left].
  - split; [done|]. intros x. rewrite elem_of_nil. tauto.
  - destruct (IH (repo_add_id j w)) as [Hnd' Hx]; [by apply repo_add_id_NoDup|].
    split; [done|]. intros x. rewrite Hx, elem_of_repo_add_id, elem_of_cons. tauto.
Qed.

(** *** The audit on a heap without reachable cycle *)

Section Audit.
Variable h : Heap.

(** The loop of [checkLicenseGapsInComponents], given that the recursive
    call returns the gaps of the components. *)
Lemma gaps_fold_spec (rec : list nat -> option (list nat)) n :
  (forall ids, bounded h n ids -> (forall x, reach h ids x -> is_Some (h !! x)) ->
     exists r, rec ids = Some r ∧ NoDup r ∧ forall x, x ∈ r <-> reach h ids x ∧ gap h x) ->
  forall ids w, bounded h (S n) ids -> (forall x, reach h ids x -> is_Some (h !! x)) -> NoDup w ->
  exists r, fold_left (fun acc i => acc ≫= fun w => gaps_visit rec h w i) ids (Some w) = Some r ∧
    NoDup r ∧ forall x, x ∈ r <-> x ∈ w ∨ (reach h ids x ∧ gap h x).
Proof.
  intros Hrec ids. induction ids as [|i ids IH]; intros w Hb Hal Hnd; cbn [fold_left].
  { exists w. split_and!; [done|done|]. intros x. pose proof (reach_nil h x). tauto. }
  destruct (Hal i) as [nd Hi]; [apply reach_cons; by left|].
  destruct (Hrec (node_components nd)) as (sub & Hsub & Hndsub & Hxsub).
  { by apply (bounded_children h n i ids). }
  { intros x Hx. apply Hal, reach_cons. left. apply (reach_node h i nd x Hi). by right. }
  set (w0 := if negb (hasComponentLicenseIncluded (node_component i nd)) then repo_add_id i w else w).
  assert (Hw0 : NoDup w0 ∧ forall x, x ∈ w0 <-> x ∈ w ∨ (x = i ∧ gap h x)).
  { unfold w0, gap. destruct (hasComponentLicenseIncluded _) eqn:E; cbn [negb].
    - split; [done|]. intros x. split; [tauto|]. intros [?|(-> & nd' & Hnd' & E')]; [done|congruence].
    - split; [by apply repo_add_id_NoDup|]. intros x. rewrite elem_of_repo_add_id. split.
      + intros [->|?]; [right; split; [done|by exists nd]|by left].
      + intros [?|[-> _]]; [by right|by left]. }
  destruct (fold_repo_add_id_spec sub w0 (proj1 Hw0)) as [Hnd1 Hx1].
  destruct (IH (fold_left (fun repo j => repo_add_id j repo) sub w0)) as (r & Hr & Hndr & Hxr);
    [by apply bounded_cons in Hb|intros x Hx; apply Hal, reach_cons; by right|done|].
  exists r. split_and!; [|done|].
  - unfold gaps_visit. rewrite Hi. cbn [mbind option_bind]. by rewrite Hsub.
  - intros x. rewrite Hxr, Hx1, (proj2 Hw0), Hxsub, reach_cons, (reach_node h i nd x Hi).
    tauto.
Qed.

(** The audit returns, each once, the reachable objects whose evidence is
    incomplete. *)
Lemma checkGapsHeap_spec n : forall ids,
  bounded h n ids -> (forall x, reach h ids x -> is_Some (h !! x)) ->
  exists r, checkGapsHeap (S n) h ids = Some r ∧ NoDup r ∧
    forall x, x ∈ r <-> reach h ids x ∧ gap h x.
Proof.
  induction n as [|n IH]; intros ids Hb Hal.
  - destruct ids as [|i ids]; [|by apply bounded_zero in Hb].
    exists []. split_and!; [done|constructor|]. intros x. pose proof (reach_nil h x).
    rewrite elem_of_nil. tauto.
  - destruct (gaps_fold_spec (checkGapsHeap (S n) h) n IH ids [] Hb Hal (NoDup_nil_2))
      as (r & Hr & Hnd & Hx).
    exists r. split_and!; [exact Hr|done|]. intros x. rewrite Hx, elem_of_nil. tauto.
Qed.

End Audit.

(** *** The walk keeps the object graph *)

Section Transfer.
Variable visit : nat -> Node -> res unit * Node.
Hypothesis visit_components : forall i nd, node_components (visit i nd).2 = node_components nd.
Variables h g : Heap.
Hypothesis Hg : visited visit h g.

Lemma visited_components i : node_components <$> g !! i = node_components <$> h !! i.
Proof. destruct (Hg i) as [->|(nd & -> & ->)]; [done|]. cbn. by rewrite visit_components. Qed.

Lemma visited_child i j : child g i j <-> child h i j.
Proof.
  pose proof (visited_components i) as E. unfold child.
  destruct (g !! i) as [ndg|], (h !! i) as [nd|]; cbn in E; try done.
  - injection E as E.
    split; intros (? & [= <-] & Hj); eexists; (split; [done|]); [by rewrite <- E|by rewrite E].
Qed.

Lemma visited_rtc i j : rtc (child g) i j <-> rtc (child h) i j.
Proof.
  split; apply (rtc_congruence id); intros x y; apply visited_child.
Qed.

Lemma visited_reach ids x : reach g ids x <-> reach h ids x.
Proof. unfold reach. by setoid_rewrite visited_rtc. Qed.

Lemma visited_chain l : chain g l <-> chain h l.
Proof.
  induction l as [|x l IH]; [done|]. rewrite !chain_cons.
  destruct l; [done|]. by rewrite visited_child, IH.
Qed.

Lemma visited_bounded n ids : bounded g n ids <-> bounded h n ids.
Proof. unfold bounded. by setoid_rewrite visited_chain. Qed.

Lemma visited_is_Some i : is_Some (g !! i) <-> is_Some (h !! i).
Proof.
  pose proof (visited_components i) as E.
  destruct (g !! i), (h !! i); cbn in E; try done; split; by intros [].
Qed.

End Transfer.

(** *** The run *)

Lemma gap_walked fs h ids h' x :
  walked (visit_node fs) h ids h h' -> reach h ids x ->
  gap h' x <-> exists nd, h !! x = Some nd ∧
    hasComponentLicenseIncluded (node_component x (visit_node fs x nd).2) = false.
Proof.
  intros Hw Hx. destruct (Hw x) as [Hr _]. unfold gap. rewrite (Hr Hx).
  destruct (h !! x) as [nd|]; cbn; [|split; by intros (? & ? & _)].
  split; [intros (? & [= <-] & E); by exists nd|intros (? & [= <-] & E); by eexists].
Qed.

(** The run, once the walk and the audit are known. *)
Lemma licenseRunHeap_eq fs fuel pf ids h out h' gaps :
  addLicenseTextsToComponentsHeap fs fuel ids h = Some (Ok tt, h') ->
  checkGapsHeap fuel h' ids = Some gaps ->
  licenseRunHeap fs fuel pf ids h out =
    Some (match gaps with
          | [] => (Ok tt, (h', out ++ [pf]))
          | _ => (Err gapError, (h', out ++ pf :: gapHeader (length gaps) :: map (gapLineAt h') gaps))
          end).
Proof.
  intros Hw Ha. unfold licenseRunHeap, checkLicenseGapsHeap. rewrite Hw. cbn [mbind option_bind].
  rewrite Ha. cbn [mbind option_bind]. destruct gaps as [|g gs]; [done|].
  rewrite bool_decide_true by (cbn; lia). cbn. by rewrite <- app_assoc.
Qed.

(** ** Properties *)

(** C32: over component objects that may be shared between parents,
    with no reachable cycle, the audit [checkLicenseGapsInComponents]
    returns within [size h + 1] nested calls.  It returns every reachable
    object whose license evidence is incomplete, at any depth, and no
    other, each once also when two parents reach it. *)
Theorem checkGapsHeap_shared h ids :
  ¬ reaches_cycle h ids -> (forall x, reach h ids x -> is_Some (h !! x)) ->
  exists r, checkGapsHeap (S (size h)) h ids = Some r ∧ NoDup r ∧
    forall x, x ∈ r <-> reach h ids x ∧ gap h x.
Proof. intros Hnc Hal. apply checkGapsHeap_spec; [by apply acyclic_bounded|done]. Qed.

(** C21: a generation run over component objects shared between parents,
    with no reachable cycle and readable license files, reports each
    reachable object whose evidence is still incomplete after the
    attaching walk exactly once, also when two parents reach it, and no
    other object.  It succeeds, printing only the package file name,
    exactly when there is none.  Otherwise it prints the count and one
    line per such object and throws the license-gap error. *)
Theorem licenseRunHeap_gaps fs pf h ids out :
  ¬ reaches_cycle h ids ->
  (forall x, reach h ids x -> exists nd, h !! x = Some nd ∧ reads_ok fs (node_component x nd)) ->
  exists h' gaps,
    addLicenseTextsToComponentsHeap fs (S (size h)) ids h = Some (Ok tt, h') ∧
    NoDup gaps ∧
    (forall x, x ∈ gaps <-> reach h ids x ∧ exists nd, h !! x = Some nd ∧
       hasComponentLicenseIncluded (node_component x (visit_node fs x nd).2) = false) ∧
    licenseRunHeap fs (S (size h)) pf ids h out =
      Some (match gaps with
            | [] => (Ok tt, (h', out ++ [pf]))
            | _ => (Err gapError, (h', out ++ pf :: gapHeader (length gaps) :: map (gapLineAt h') gaps))
            end).
Proof.
  intros Hnc Hrd. destruct (addLicenseTextsToComponentsHeap_walked fs h ids Hnc Hrd) as (h' & Hr & Hw).
  assert (Hv : visited (visit_node fs) h h').
  { apply (walked_visited _ h ids h); [intros i; by left|done]. }
  destruct (checkGapsHeap_spec h' (size h) ids) as (gaps & Ha & Hnd & Hx).
  - apply (visited_bounded _ (visit_node_components fs) h h' Hv), acyclic_bounded; [|done].
    intros x (nd & Hnd & _)%Hrd. by exists nd.
  - intros x Hx%(visited_reach _ (visit_node_components fs) h h' Hv).
    apply (visited_is_Some _ (visit_node_components fs) h h' Hv). destruct (Hrd x Hx) as (nd & ? & _).
    by exists nd.
  - exists h', gaps. split_and!; [done|done| |by apply licenseRunHeap_eq].
    intros x. rewrite Hx, (visited_reach _ (visit_node_components fs) h h' Hv).
    split; intros [Hx' Hgap]; split; try done; by apply (gap_walked fs h ids h' x Hw Hx').
Qed.

(** ** Witnesses *)

(** [a] and [b] share the unlicensed object of [shared]: the audit
    reports it once. *)
Lemma checkGapsHeap_shared_witness :
  ¬ reaches_cycle shared_heap [1] ∧ (forall x, reach shared_heap [1] x -> is_Some (shared_heap !! x)) ∧
  (exists r, checkGapsHeap (S (size shared_heap)) shared_heap [1] = Some r ∧ NoDup r ∧
    forall x, x ∈ r <-> reach shared_heap [1] x ∧ gap shared_heap x) ∧
  checkGapsHeap (S (size shared_heap)) shared_heap [1] = Some [4].
Proof.
  assert (Hnc : ¬ reaches_cycle shared_heap [1]).
  { apply (ranked_no_cycle _ (fun i => 5 - i)). decide_by_eval. }
  assert (Hal : forall x, reach shared_heap [1] x -> is_Some (shared_heap !! x)).
  { intros x. apply reach_alloc; decide_by_eval. }
  split; [exact Hnc|]. split; [exact Hal|]. split; [exact (checkGapsHeap_shared _ _ Hnc Hal)|].
  vm_compute. reflexivity.
Defined.

(** The shared package has no license file: the run reports it once,
    though both [a] and [b] reach it. *)
Lemma licenseRunHeap_gaps_witness :
  let fs := dir_fs "pkg" [] in
  let h := shared_pkg_heap in
  (forall x, reach h [1] x -> exists nd, h !! x = Some nd ∧ reads_ok fs (node_component x nd)) ∧
  ¬ reaches_cycle h [1] ∧
  (exists h' gaps,
    addLicenseTextsToComponentsHeap fs (S (size h)) [1] h = Some (Ok tt, h') ∧
    NoDup gaps ∧
    (forall x, x ∈ gaps <-> reach h [1] x ∧ exists nd, h !! x = Some nd ∧
       hasComponentLicenseIncluded (node_component x (visit_node fs x nd).2) = false) ∧
    licenseRunHeap fs (S (size h)) "package.json" [1] h [] =
      Some (match gaps with
            | [] => (Ok tt, (h', [] ++ ["package.json"]))
            | _ => (Err gapError, (h', [] ++ "package.json" :: gapHeader (length gaps) :: map (gapLineAt h') gaps))
            end)) ∧
  (fun r => (r.1, r.2.2)) <$> licenseRunHeap fs (S (size h)) "package.json" [1] h [] =
    Some (Err gapError, ["package.json"; "Components without license informations (1)"; " - pkg@1.0.0"]).
Proof.
  cbv zeta.
  assert (Hrd : forall x, reach shared_pkg_heap [1] x -> exists nd, shared_pkg_heap !! x = Some nd ∧
            reads_ok (dir_fs "pkg" []) (node_component x nd)).
  { intros x Hx.
    destruct (reach_alloc shared_pkg_heap [1] x ltac:(decide_by_eval) ltac:(decide_by_eval) Hx) as [nd Hnd].
    exists nd. split; [done|].
    assert (Hall : map_Forall (fun i nd => reads_ok (dir_fs "pkg" []) (node_component i nd))
              shared_pkg_heap) by decide_by_eval.
    exact (map_Forall_lookup_1 _ _ _ _ Hall Hnd). }
  assert (Hnc : ¬ reaches_cycle shared_pkg_heap [1]).
  { apply (ranked_no_cycle _ (fun i => 5 - i)). decide_by_eval. }
  split; [exact Hrd|]. split; [exact Hnc|].
  split; [exact (licenseRunHeap_gaps _ "package.json" shared_pkg_heap [1] [] Hnc Hrd)|].
  vm_compute. reflexivity.
Defined.

End HeapRun.
